(** * Predictive content cache: pattern table, cache entries and the
      server's cache management

    A shallow embedding of [CacheEntry.cc], [PatternTable.cc] and the
    cache-management half of [HttpServer.cc].

    Modelling conventions
    - [simtime_t] (OMNeT++'s fixed-point simulation time) is a rational
      number of seconds; [simTime()] is an explicit argument [now].
    - C++ [int] is [Z].  Signed overflow is undefined behaviour in C++, so
      no wrap-around is written out for counters; the one unsigned
      conversion of the source ([static_cast<size_t>]) is modelled with its
      wrap-around.
    - C++ [double] is modelled by exact rationals [Q]: probabilities are
      exact quotients, and [static_cast<int>] truncates toward zero.
    - [std::map] is a list of key/value pairs kept strictly sorted by key,
      so that iterating over the map is iterating over the list.
    - [emit] and [EV <<] only report, they are left out. *)

From Stdlib Require Import ZArith QArith Qround List String Ascii Bool Lia Lqa.
From Stdlib Require Import Sorted Permutation.
Import ListNotations.

Set Implicit Arguments.
Local Open Scope Z_scope.

(** [length] is the length of a list; the length of a string is written
    [String.length]. *)
Local Abbreviation length := List.length.

(* ================================================================= *)
(** ** Keys of a [std::map]: a strict total order given by a comparison *)

Class KeyOrder (K : Type) : Type := {
  kcmp : K -> K -> comparison;
  kcmp_eq : forall a b, kcmp a b = Eq <-> a = b;
  kcmp_antisym : forall a b, kcmp b a = CompOpp (kcmp a b);
  kcmp_trans : forall a b c, kcmp a b = Lt -> kcmp b c = Lt -> kcmp a c = Lt
}.

(** [int] keys. *)
#[export, refine] Instance Z_KeyOrder : KeyOrder Z := {| kcmp := Z.compare |}.
Proof.
  - intros a b. apply Z.compare_eq_iff.
  - intros a b. apply Z.compare_antisym.
  - intros a b c. rewrite !Z.compare_lt_iff. lia.
Defined.

(** [std::string] keys: [operator<] is the lexicographic order on bytes. *)
#[export, refine] Instance string_KeyOrder : KeyOrder string :=
  {| kcmp := String.compare |}.
Proof.
  - intros a b. split; [apply String.compare_eq_iff|].
    intros <-. induction a as [|x a IH]; cbn; [reflexivity|].
    unfold Ascii.compare. now rewrite N.compare_refl.
  - intros a b. apply String.compare_antisym.
  - intros a. induction a as [|x a IH]; intros [|y b] [|z c]; cbn; try congruence.
    assert (R : forall u, Ascii.compare u u = Eq)
      by (intros u; unfold Ascii.compare; apply N.compare_refl).
    destruct (Ascii.compare x y) eqn:Exy; try discriminate;
    destruct (Ascii.compare y z) eqn:Eyz; try discriminate; intros H1 H2.
    + apply Ascii.compare_eq_iff in Exy, Eyz. subst. rewrite R. eauto.
    + apply Ascii.compare_eq_iff in Exy. subst. now rewrite Eyz.
    + apply Ascii.compare_eq_iff in Eyz. subst. now rewrite Exy.
    + replace (Ascii.compare x z) with Lt; [reflexivity|].
      symmetry. unfold Ascii.compare in *. rewrite N.compare_lt_iff in *. lia.
Defined.

(** [std::pair] keys: [operator<] compares the first components, then the
    second ones. *)
Definition pair_cmp {A B} `{KeyOrder A} `{KeyOrder B} (x y : A * B) : comparison :=
  match kcmp (fst x) (fst y) with
  | Eq => kcmp (snd x) (snd y)
  | c => c
  end.

#[export, refine] Instance pair_KeyOrder {A B} `{KeyOrder A} `{KeyOrder B} :
  KeyOrder (A * B) := {| kcmp := pair_cmp |}.
Proof.
  - intros [a1 a2] [b1 b2]. unfold pair_cmp; simpl. split.
    + destruct (kcmp a1 b1) eqn:E1; try discriminate.
      intros E2. apply kcmp_eq in E1, E2. congruence.
    + intros E. inversion E; subst.
      now rewrite (proj2 (kcmp_eq b1 b1) eq_refl), (proj2 (kcmp_eq b2 b2) eq_refl).
  - intros [a1 a2] [b1 b2]. unfold pair_cmp; simpl.
    rewrite (kcmp_antisym a1 b1). destruct (kcmp a1 b1); simpl; auto.
    apply kcmp_antisym.
  - intros [a1 a2] [b1 b2] [c1 c2]. unfold pair_cmp; simpl.
    destruct (kcmp a1 b1) eqn:E1; try discriminate;
    destruct (kcmp b1 c1) eqn:E2; try discriminate; intros H1 H2.
    + apply kcmp_eq in E1, E2. subst.
      rewrite (proj2 (kcmp_eq c1 c1) eq_refl). eapply kcmp_trans; eauto.
    + apply kcmp_eq in E1. subst. now rewrite E2.
    + apply kcmp_eq in E2. subst. now rewrite E1.
    + now rewrite (kcmp_trans _ _ _ E1 E2).
Defined.

(* ================================================================= *)
(** ** [std::map] as a key-sorted association list *)

Section StdMapDefs.
Context {K V : Type} `{KeyOrder K}.

(** [m.find(k)], as an option of the mapped value. *)
Fixpoint map_find (k : K) (m : list (K * V)) : option V :=
  match m with
  | [] => None
  | (k', v) :: r => match kcmp k k' with Eq => Some v | _ => map_find k r end
  end.

(** [m[k] = v]: replaces the value of an existing key, otherwise inserts the
    pair at its place in the key order. *)
Fixpoint map_set (k : K) (v : V) (m : list (K * V)) : list (K * V) :=
  match m with
  | [] => [(k, v)]
  | (k', v') :: r =>
      match kcmp k k' with
      | Lt => (k, v) :: m
      | Eq => (k, v) :: r
      | Gt => (k', v') :: map_set k v r
      end
  end.

(** [m.erase(k)], also used for [m.erase(it)] with [it] pointing at key [k]. *)
Fixpoint map_erase (k : K) (m : list (K * V)) : list (K * V) :=
  match m with
  | [] => []
  | (k', v) :: r => match kcmp k k' with Eq => r | _ => (k', v) :: map_erase k r end
  end.

(** In-place mutation of the value an iterator for key [k] points at. *)
Fixpoint map_alter (f : V -> V) (k : K) (m : list (K * V)) : list (K * V) :=
  match m with
  | [] => []
  | (k', v) :: r =>
      match kcmp k k' with Eq => (k', f v) :: r | _ => (k', v) :: map_alter f k r end
  end.

Definition keys_lt (a b : K * V) : Prop := kcmp (fst a) (fst b) = Lt.

(** The representation invariant of a [std::map]: strictly increasing keys. *)
Definition map_ok (m : list (K * V)) : Prop := StronglySorted keys_lt m.

End StdMapDefs.

(** [m[k]] read on an [int]-valued map: a missing key reads as [0]. *)
Definition map_get0 {K} `{KeyOrder K} (k : K) (m : list (K * Z)) : Z :=
  match map_find k m with Some v => v | None => 0 end.

(** Strict comparison of simulation times. *)
Definition Qltb (a b : Q) : bool := negb (Qle_bool b a).

(* ================================================================= *)
(** ** CacheEntry.cc *)

Record CacheEntry : Type := mkCacheEntry {
  resourceId : Z;
  content : string;
  contentSize : Z;
  timestamp : Q;
  ttl : Z;
  accessCount : Z;
  lastAccess : Q;
  dirty : bool
}.

(** [CacheEntry::CacheEntry()] *)
Definition default_CacheEntry : CacheEntry :=
  mkCacheEntry (-1) EmptyString 0 0 3600 0 0 false.

(** [CacheEntry::setContent] *)
Definition setContent (pageContent : string) (e : CacheEntry) : CacheEntry :=
  mkCacheEntry (resourceId e) pageContent (Z.of_nat (String.length pageContent))
    (timestamp e) (ttl e) (accessCount e) (lastAccess e) true.

(** [CacheEntry::CacheEntry(resId, pageContent, ttlSeconds)], built at time
    [now]. *)
Definition new_CacheEntry (now : Q) (resId : Z) (pageContent : string)
    (ttlSeconds : Z) : CacheEntry :=
  mkCacheEntry resId pageContent (Z.of_nat (String.length pageContent))
    now ttlSeconds 1 now false.

(** [CacheEntry::setTimestamp] *)
Definition setTimestamp (t : Q) (e : CacheEntry) : CacheEntry :=
  mkCacheEntry (resourceId e) (content e) (contentSize e) t (ttl e)
    (accessCount e) (lastAccess e) (dirty e).

(** [CacheEntry::updateAccess] *)
Definition updateAccess (now : Q) (e : CacheEntry) : CacheEntry :=
  mkCacheEntry (resourceId e) (content e) (contentSize e) (timestamp e) (ttl e)
    (accessCount e + 1) now (dirty e).

(** [CacheEntry::isExpired] *)
Definition isExpired (now : Q) (e : CacheEntry) : bool :=
  if ttl e <=? 0 then false
  else
    let currentTime := now in
    let expiryTime := (timestamp e + inject_Z (ttl e))%Q in
    Qle_bool expiryTime currentTime.

(** [CacheEntry::isValid] *)
Definition isValid (now : Q) (e : CacheEntry) : bool :=
  (0 <=? resourceId e) && negb (String.eqb (content e) EmptyString)
  && negb (isExpired now e).

(** [CacheEntry::refresh] *)
Definition refresh (now : Q) (newContent : string) (newTtl : Z) (e : CacheEntry)
    : CacheEntry :=
  let e1 := setContent newContent e in
  mkCacheEntry (resourceId e1) (content e1) (contentSize e1) now
    (if 0 <=? newTtl then newTtl else ttl e1)
    (accessCount e1) (lastAccess e1) false.

(* ================================================================= *)
(** ** HttpServer.cc: pattern learning and cache management *)

(** The part of the server's state the cache and the learner use.  A pending
    expiry message is represented by the time it is scheduled for. *)
Record HttpServer : Type := mkHttpServer {
  patternTable : list ((string * string) * Z);
  clientLastPage : list (Z * string);
  responseCache : list (string * CacheEntry);
  cacheExpiryMessages : list (string * Q);
  maxCacheSize : Z;
  currentCacheSize : Z
}.

(** [HttpServer::initialize]: no pattern learned, an empty cache of at most
    20 pages. *)
Definition initialize : HttpServer := mkHttpServer [] [] [] [] 20 0.

Definition set_cache (c : list (string * CacheEntry)) (msgs : list (string * Q))
    (size : Z) (s : HttpServer) : HttpServer :=
  mkHttpServer (patternTable s) (clientLastPage s) c msgs (maxCacheSize s) size.

(** [HttpServer::updatePatternTable] *)
Definition updatePatternTable (clientId : Z) (fromPage toPage : string)
    (s : HttpServer) : HttpServer :=
  if String.eqb fromPage EmptyString || String.eqb toPage EmptyString
     || String.eqb fromPage toPage
  then s
  else
    let transition := (fromPage, toPage) in
    mkHttpServer
      (map_set transition (map_get0 transition (patternTable s) + 1) (patternTable s))
      (map_set clientId toPage (clientLastPage s))
      (responseCache s) (cacheExpiryMessages s) (maxCacheSize s) (currentCacheSize s).

(** [HttpServer::checkResponseCache]; [cachedResponse] is the out-parameter,
    written on a hit only. *)
Definition checkResponseCache (now : Q) (page : string) (cachedResponse : string)
    (s : HttpServer) : bool * string * HttpServer :=
  match map_find page (responseCache s) with
  | Some e =>
      if negb (isExpired now e) then
        (true, content e,
         set_cache (map_alter (updateAccess now) page (responseCache s))
                   (cacheExpiryMessages s) (currentCacheSize s) s)
      else
        (false, cachedResponse,
         set_cache (map_erase page (responseCache s))
                   (map_erase page (cacheExpiryMessages s))
                   (currentCacheSize s - 1) s)
  | None => (false, cachedResponse, s)
  end.

(** [HttpServer::scheduleCacheExpiry] *)
Definition scheduleCacheExpiry (now : Q) (pageName : string) (ttlSeconds : Q)
    (s : HttpServer) : HttpServer :=
  set_cache (responseCache s)
    (map_set pageName (now + ttlSeconds)%Q (map_erase pageName (cacheExpiryMessages s)))
    (currentCacheSize s) s.

(** [HttpServer::handleCacheExpiry] *)
Definition handleCacheExpiry (pageName : string) (s : HttpServer) : HttpServer :=
  let '(c, size) :=
    match map_find pageName (responseCache s) with
    | Some _ => (map_erase pageName (responseCache s), currentCacheSize s - 1)
    | None => (responseCache s, currentCacheSize s)
    end in
  set_cache c (map_erase pageName (cacheExpiryMessages s)) size s.

(** The [while] loop of [HttpServer::cleanupExpiredCache] over the entries
    from [cacheIt] on: the entries kept, the expiry messages and the size
    counter after it. *)
Fixpoint cleanup_loop (now : Q) (entries : list (string * CacheEntry))
    (msgs : list (string * Q)) (size : Z)
    : list (string * CacheEntry) * list (string * Q) * Z :=
  match entries with
  | [] => ([], msgs, size)
  | (k, e) :: rest =>
      if isExpired now e then cleanup_loop now rest (map_erase k msgs) (size - 1)
      else
        let '(kept, msgs', size') := cleanup_loop now rest msgs size in
        ((k, e) :: kept, msgs', size')
  end.

(** [HttpServer::cleanupExpiredCache] *)
Definition cleanupExpiredCache (now : Q) (s : HttpServer) : HttpServer :=
  let '(kept, msgs, size) :=
    cleanup_loop now (responseCache s) (cacheExpiryMessages s) (currentCacheSize s) in
  set_cache kept msgs size s.

(** The [for] loop of [HttpServer::evictLeastRecentlyUsed]: [lruIt] moves to
    an entry only when its last access is strictly older. *)
Fixpoint lru_scan (lruIt : string * CacheEntry) (oldestAccess : Q)
    (rest : list (string * CacheEntry)) : string * CacheEntry :=
  match rest with
  | [] => lruIt
  | it :: rest' =>
      if Qltb (lastAccess (snd it)) oldestAccess
      then lru_scan it (lastAccess (snd it)) rest'
      else lru_scan lruIt oldestAccess rest'
  end.

(** [HttpServer::evictLeastRecentlyUsed] *)
Definition evictLeastRecentlyUsed (s : HttpServer) : HttpServer :=
  match responseCache s with
  | [] => s
  | first :: _ =>
      let lruIt := lru_scan first (lastAccess (snd first)) (responseCache s) in
      set_cache (map_erase (fst lruIt) (responseCache s))
                (map_erase (fst lruIt) (cacheExpiryMessages s))
                (currentCacheSize s - 1) s
  end.

(** [HttpServer::updateCacheSize] *)
Definition updateCacheSize (s : HttpServer) : HttpServer :=
  set_cache (responseCache s) (cacheExpiryMessages s)
    (Z.of_nat (List.length (responseCache s))) s.

(** [HttpServer::addToCacheWithManagement] *)
Definition addToCacheWithManagement (now : Q) (pageName : string)
    (entry : CacheEntry) (s : HttpServer) : bool * HttpServer :=
  let s1 :=
    if maxCacheSize s <=? currentCacheSize s then
      let s' := cleanupExpiredCache now s in
      if maxCacheSize s' <=? currentCacheSize s' then evictLeastRecentlyUsed s'
      else s'
    else s in
  (true,
   set_cache (map_set pageName entry (responseCache s1)) (cacheExpiryMessages s1)
             (currentCacheSize s1 + 1) s1).

(** The operations that change the cache, each at its simulation time. *)
Inductive cache_op : Type :=
| Insert (now : Q) (pageName : string) (entry : CacheEntry)
| Lookup (now : Q) (page : string)
| Cleanup (now : Q)
| ExpiryTimer (pageName : string).

Definition cache_step (s : HttpServer) (op : cache_op) : HttpServer :=
  match op with
  | Insert now pageName entry => snd (addToCacheWithManagement now pageName entry s)
  | Lookup now page => snd (checkResponseCache now page EmptyString s)
  | Cleanup now => cleanupExpiredCache now s
  | ExpiryTimer pageName => handleCacheExpiry pageName s
  end.

Definition cache_run (ops : list cache_op) (s : HttpServer) : HttpServer :=
  fold_left cache_step ops s.

Definition cache_keys (s : HttpServer) : list string := map fst (responseCache s).

(* ================================================================= *)
(** ** PatternTable.cc *)

Record PatternTable : Type := mkPatternTable {
  transitions : list ((Z * Z) * Z);
  predictions : list (Z * list Z);
  totalTransitions : Z;
  confidenceThreshold : Q;
  maxPredictions : Z;
  enableLearning : bool;
  totalUpdates : Z;
  predictionRequests : Z;
  successfulPredictions : Z
}.

(** [PatternTable::PatternTable(threshold, maxPred)] *)
Definition new_PatternTable (threshold : Q) (maxPred : Z) : PatternTable :=
  mkPatternTable [] [] 0 threshold maxPred true 0 0 0.

(** [PatternTable::isValidPage] *)
Definition isValidPage (pageId : Z) : bool := 0 <=? pageId.

(** [PatternTable::recordTransition] *)
Definition recordTransition (fromPage toPage : Z) (pt : PatternTable) : PatternTable :=
  if negb (enableLearning pt) || negb (isValidPage fromPage) || negb (isValidPage toPage)
  then pt
  else
    let transition := (fromPage, toPage) in
    mkPatternTable
      (map_set transition (map_get0 transition (transitions pt) + 1) (transitions pt))
      (map_erase fromPage (predictions pt))
      (totalTransitions pt + 1)
      (confidenceThreshold pt) (maxPredictions pt) (enableLearning pt)
      (totalUpdates pt + 1) (predictionRequests pt) (successfulPredictions pt).

(** The [for] loop of [PatternTable::recordSequence] over consecutive pairs. *)
Fixpoint recordSequence_loop (pageSequence : list Z) (pt : PatternTable) : PatternTable :=
  match pageSequence with
  | a :: ((b :: _) as rest) => recordSequence_loop rest (recordTransition a b pt)
  | _ => pt
  end.

(** [PatternTable::recordSequence] *)
Definition recordSequence (pageSequence : list Z) (pt : PatternTable) : PatternTable :=
  if negb (enableLearning pt) || (Nat.ltb (List.length pageSequence) 2) then pt
  else recordSequence_loop pageSequence pt.

(** [PatternTable::updatePattern] *)
Definition updatePattern (fromPage toPage count : Z) (pt : PatternTable) : PatternTable :=
  if negb (enableLearning pt) || negb (isValidPage fromPage) || negb (isValidPage toPage)
     || (count <=? 0)
  then pt
  else
    let transition := (fromPage, toPage) in
    mkPatternTable
      (map_set transition (map_get0 transition (transitions pt) + count) (transitions pt))
      (map_erase fromPage (predictions pt))
      (totalTransitions pt + count)
      (confidenceThreshold pt) (maxPredictions pt) (enableLearning pt)
      (totalUpdates pt + 1) (predictionRequests pt) (successfulPredictions pt).

(** [PatternTable::getTransitionCount] *)
Definition getTransitionCount (pt : PatternTable) (fromPage toPage : Z) : Z :=
  match map_find (fromPage, toPage) (transitions pt) with
  | Some c => c
  | None => 0
  end.

(** [PatternTable::getTotalTransitionsFrom] *)
Definition getTotalTransitionsFrom (pt : PatternTable) (fromPage : Z) : Z :=
  fold_left
    (fun total entry => if fst (fst entry) =? fromPage then total + snd entry else total)
    (transitions pt) 0.

(** [PatternTable::getTransitionProbability] *)
Definition getTransitionProbability (pt : PatternTable) (fromPage toPage : Z) : Q :=
  if negb (isValidPage fromPage) || negb (isValidPage toPage) then 0%Q
  else
    match map_find (fromPage, toPage) (transitions pt) with
    | None => 0%Q
    | Some c =>
        let totalFromPage := getTotalTransitionsFrom pt fromPage in
        if totalFromPage =? 0 then 0%Q
        else (inject_Z c / inject_Z totalFromPage)%Q
    end.

(** [PatternTable::getReachablePages] *)
Fixpoint reachable_loop (fromPage : Z) (entries : list ((Z * Z) * Z)) : list Z :=
  match entries with
  | [] => []
  | entry :: rest =>
      if fst (fst entry) =? fromPage then snd (fst entry) :: reachable_loop fromPage rest
      else reachable_loop fromPage rest
  end.

Definition getReachablePages (pt : PatternTable) (fromPage : Z) : list Z :=
  reachable_loop fromPage (transitions pt).

(** [std::sort] with the comparator [a.second > b.second], as a sort by
    insertion: [x] goes before the first element it is strictly greater
    than.  (The standard leaves the order of equal elements open; nothing
    proved below depends on it.) *)
Fixpoint insert_desc (x : Z * Q) (l : list (Z * Q)) : list (Z * Q) :=
  match l with
  | [] => [x]
  | y :: r => if Qltb (snd y) (snd x) then x :: l else y :: insert_desc x r
  end.

Definition sort_desc (l : list (Z * Q)) : list (Z * Q) := fold_right insert_desc [] l.

(** The [push_back] loop of [PatternTable::calculateProbabilities]. *)
Fixpoint probabilities_loop (fromPage totalFromPage : Z)
    (entries : list ((Z * Z) * Z)) : list (Z * Q) :=
  match entries with
  | [] => []
  | entry :: rest =>
      if fst (fst entry) =? fromPage then
        (snd (fst entry), (inject_Z (snd entry) / inject_Z totalFromPage)%Q)
        :: probabilities_loop fromPage totalFromPage rest
      else probabilities_loop fromPage totalFromPage rest
  end.

(** [PatternTable::calculateProbabilities] *)
Definition calculateProbabilities (pt : PatternTable) (fromPage : Z) : list (Z * Q) :=
  let totalFromPage := getTotalTransitionsFrom pt fromPage in
  if totalFromPage =? 0 then []
  else sort_desc (probabilities_loop fromPage totalFromPage (transitions pt)).

(** [static_cast<size_t>] of an [int], for a 64-bit [size_t]. *)
Definition to_size_t (n : Z) : Z := n mod 2 ^ 64.

(** The selection loop of [PatternTable::getPredictions]. *)
Fixpoint select_predictions (threshold : Q) (maxPred : Z)
    (probabilities : list (Z * Q)) (result : list Z) : list Z :=
  match probabilities with
  | [] => result
  | prob :: rest =>
      if Qle_bool threshold (snd prob)
         && (Z.of_nat (List.length result) <? to_size_t maxPred)
      then select_predictions threshold maxPred rest (result ++ [fst prob])
      else select_predictions threshold maxPred rest result
  end.

Definition count_request (pt : PatternTable) : PatternTable :=
  mkPatternTable (transitions pt) (predictions pt) (totalTransitions pt)
    (confidenceThreshold pt) (maxPredictions pt) (enableLearning pt)
    (totalUpdates pt) (predictionRequests pt + 1) (successfulPredictions pt).

Definition set_predictions (p : list (Z * list Z)) (pt : PatternTable) : PatternTable :=
  mkPatternTable (transitions pt) p (totalTransitions pt)
    (confidenceThreshold pt) (maxPredictions pt) (enableLearning pt)
    (totalUpdates pt) (predictionRequests pt) (successfulPredictions pt).

(** [PatternTable::getPredictions]: the method is [const] but counts the
    request and fills the memo table, so the table after the call is
    returned with the result. *)
Definition getPredictions (currentPage : Z) (pt : PatternTable)
    : list Z * PatternTable :=
  let pt1 := count_request pt in
  if negb (isValidPage currentPage) then ([], pt1)
  else
    match map_find currentPage (predictions pt1) with
    | Some cached => (cached, pt1)
    | None =>
        let probabilities := calculateProbabilities pt1 currentPage in
        let result :=
          select_predictions (confidenceThreshold pt1) (maxPredictions pt1)
            probabilities [] in
        (result, set_predictions (map_set currentPage result (predictions pt1)) pt1)
    end.

(** [PatternTable::getPredictionsWithConfidence] *)
Definition getPredictionsWithConfidence (currentPage : Z) (pt : PatternTable)
    : list (Z * Q) * PatternTable :=
  let pt1 := count_request pt in
  if negb (isValidPage currentPage) then ([], pt1)
  else (calculateProbabilities pt1 currentPage, pt1).

(** [PatternTable::getMostLikelyNextPage] *)
Definition getMostLikelyNextPage (pt : PatternTable) (currentPage : Z) : Z :=
  match calculateProbabilities pt currentPage with
  | [] => -1
  | best :: _ => if Qltb (snd best) (confidenceThreshold pt) then -1 else fst best
  end.

(** [PatternTable::clear] *)
Definition clear (pt : PatternTable) : PatternTable :=
  mkPatternTable [] [] 0 (confidenceThreshold pt) (maxPredictions pt)
    (enableLearning pt) 0 0 0.

(** [PatternTable::clearPredictionsCache] *)
Definition clearPredictionsCache (pt : PatternTable) : PatternTable :=
  set_predictions [] pt.

(** The [while] loop of [PatternTable::compact]: the entries kept and the
    running total after it. *)
Fixpoint compact_loop (minCount : Z) (entries : list ((Z * Z) * Z)) (total : Z)
    : list ((Z * Z) * Z) * Z :=
  match entries with
  | [] => ([], total)
  | entry :: rest =>
      if snd entry <? minCount then compact_loop minCount rest (total - snd entry)
      else
        let '(kept, total') := compact_loop minCount rest total in
        (entry :: kept, total')
  end.

(** [PatternTable::compact] *)
Definition compact (minCount : Z) (pt : PatternTable) : PatternTable :=
  let '(kept, total) := compact_loop minCount (transitions pt) (totalTransitions pt) in
  clearPredictionsCache
    (mkPatternTable kept (predictions pt) total
       (confidenceThreshold pt) (maxPredictions pt) (enableLearning pt)
       (totalUpdates pt) (predictionRequests pt) (successfulPredictions pt)).

(** [static_cast<int>] of a [double]: truncation toward zero. *)
Definition Qtrunc (q : Q) : Z := Z.quot (Qnum q) (Zpos (Qden q)).

(** The body of the [for] loop of [PatternTable::decay] on one entry. *)
Definition decay_entry (factor : Q) (entry : (Z * Z) * Z) : (Z * Z) * Z :=
  let second := Qtrunc (inject_Z (snd entry) * factor) in
  (fst entry, if second =? 0 then 1 else second).

(** [PatternTable::decay] *)
Definition decay (factor : Q) (pt : PatternTable) : PatternTable :=
  if Qle_bool factor 0 || Qle_bool 1 factor then pt
  else
    clearPredictionsCache
      (mkPatternTable (map (decay_entry factor) (transitions pt)) (predictions pt)
         (Qtrunc (inject_Z (totalTransitions pt) * factor))
         (confidenceThreshold pt) (maxPredictions pt) (enableLearning pt)
         (totalUpdates pt) (predictionRequests pt) (successfulPredictions pt)).

(** The inline setters of PatternTable.h. *)
Definition setConfidenceThreshold (threshold : Q) (pt : PatternTable) : PatternTable :=
  mkPatternTable (transitions pt) (predictions pt) (totalTransitions pt)
    threshold (maxPredictions pt) (enableLearning pt)
    (totalUpdates pt) (predictionRequests pt) (successfulPredictions pt).

Definition setMaxPredictions (maxPred : Z) (pt : PatternTable) : PatternTable :=
  mkPatternTable (transitions pt) (predictions pt) (totalTransitions pt)
    (confidenceThreshold pt) maxPred (enableLearning pt)
    (totalUpdates pt) (predictionRequests pt) (successfulPredictions pt).

Definition setEnableLearning (enable : bool) (pt : PatternTable) : PatternTable :=
  mkPatternTable (transitions pt) (predictions pt) (totalTransitions pt)
    (confidenceThreshold pt) (maxPredictions pt) enable
    (totalUpdates pt) (predictionRequests pt) (successfulPredictions pt).

(** [PatternTable::getTotalTransitions] *)
Definition getTotalTransitions (pt : PatternTable) : Z := totalTransitions pt.

(** The public operations that change a pattern table. *)
Inductive pt_op : Type :=
| RecordTransition (fromPage toPage : Z)
| RecordSequence (pageSequence : list Z)
| UpdatePattern (fromPage toPage count : Z)
| GetPredictions (currentPage : Z)
| GetPredictionsWithConfidence (currentPage : Z)
| Clear
| ClearPredictionsCache
| Compact (minCount : Z)
| Decay (factor : Q)
| SetConfidenceThreshold (threshold : Q)
| SetMaxPredictions (maxPred : Z)
| SetEnableLearning (enable : bool).

Definition pt_step (pt : PatternTable) (op : pt_op) : PatternTable :=
  match op with
  | RecordTransition f t => recordTransition f t pt
  | RecordSequence l => recordSequence l pt
  | UpdatePattern f t c => updatePattern f t c pt
  | GetPredictions p => snd (getPredictions p pt)
  | GetPredictionsWithConfidence p => snd (getPredictionsWithConfidence p pt)
  | Clear => clear pt
  | ClearPredictionsCache => clearPredictionsCache pt
  | Compact n => compact n pt
  | Decay f => decay f pt
  | SetConfidenceThreshold q => setConfidenceThreshold q pt
  | SetMaxPredictions n => setMaxPredictions n pt
  | SetEnableLearning b => setEnableLearning b pt
  end.

Definition pt_run (ops : list pt_op) (pt : PatternTable) : PatternTable :=
  fold_left pt_step ops pt.

Definition is_decay (op : pt_op) : bool :=
  match op with Decay _ => true | _ => false end.

Definition is_reconfigure (op : pt_op) : bool :=
  match op with
  | SetConfidenceThreshold _ | SetMaxPredictions _ => true
  | _ => false
  end.

(** Sum of [getTransitionCount] over the stored transitions. *)
Definition sum_of_counts (pt : PatternTable) : Z :=
  fold_right
    (fun entry acc => getTransitionCount pt (fst (fst entry)) (snd (fst entry)) + acc)
    0 (transitions pt).

(** Sum of the probabilities of a list of [(page, probability)] pairs. *)
Definition sum_probabilities (l : list (Z * Q)) : Q :=
  fold_right (fun prob acc => (snd prob + acc)%Q) 0%Q l.

(** Sum over the pages reachable from [fromPage] of the transition
    probability to them. *)
Definition sum_successor_probabilities (pt : PatternTable) (fromPage : Z) : Q :=
  fold_right (fun toPage acc => (getTransitionProbability pt fromPage toPage + acc)%Q)
    0%Q (getReachablePages pt fromPage).

(** A list of rationals in descending order. *)
Fixpoint descending (l : list Q) : Prop :=
  match l with
  | [] => True
  | x :: r => match r with [] => True | y :: _ => (y <= x)%Q end /\ descending r
  end.

(* ================================================================= *)
(** ** More of CacheEntry.h and CacheEntry.cc *)

(** The inline setters of CacheEntry.h. *)
Definition setResourceId (id : Z) (e : CacheEntry) : CacheEntry :=
  mkCacheEntry id (content e) (contentSize e) (timestamp e) (ttl e)
    (accessCount e) (lastAccess e) (dirty e).

Definition setTtl (ttlSeconds : Z) (e : CacheEntry) : CacheEntry :=
  mkCacheEntry (resourceId e) (content e) (contentSize e) (timestamp e) ttlSeconds
    (accessCount e) (lastAccess e) (dirty e).

Definition setDirty (d : bool) (e : CacheEntry) : CacheEntry :=
  mkCacheEntry (resourceId e) (content e) (contentSize e) (timestamp e) (ttl e)
    (accessCount e) (lastAccess e) d.

(** The operations that change a cache entry. *)
Inductive entry_op : Type :=
| ESetResourceId (id : Z)
| ESetContent (pageContent : string)
| ESetTimestamp (t : Q)
| ESetTtl (ttlSeconds : Z)
| ESetDirty (d : bool)
| EUpdateAccess (now : Q)
| ERefresh (now : Q) (newContent : string) (newTtl : Z).

Definition entry_step (e : CacheEntry) (op : entry_op) : CacheEntry :=
  match op with
  | ESetResourceId id => setResourceId id e
  | ESetContent c => setContent c e
  | ESetTimestamp t => setTimestamp t e
  | ESetTtl n => setTtl n e
  | ESetDirty d => setDirty d e
  | EUpdateAccess now => updateAccess now e
  | ERefresh now c n => refresh now c n e
  end.

Definition entry_run (ops : list entry_op) (e : CacheEntry) : CacheEntry :=
  fold_left entry_step ops e.

(** [CacheEntry::operator==], [operator!=] and [operator<]: entries are
    compared by their resource identifiers. *)
Definition entry_eqb (a b : CacheEntry) : bool := resourceId a =? resourceId b.

Definition entry_neqb (a b : CacheEntry) : bool := negb (entry_eqb a b).

Definition entry_ltb (a b : CacheEntry) : bool := resourceId a <? resourceId b.

(* ================================================================= *)
(** ** More of HttpServer.cc: pages, probabilities, pre-caching, dispatch *)

(** [enum WebPage] *)
Definition HOME : Z := 0.
Definition LOGIN : Z := 1.
Definition DASHBOARD : Z := 2.
Definition PROFILE : Z := 3.
Definition SETTINGS : Z := 4.
Definition LOGOUT : Z := 5.

(** [HttpServer::getPageName] *)
Definition getPageName (pageId : Z) : string :=
  if pageId =? HOME then "home"
  else if pageId =? LOGIN then "login"
  else if pageId =? DASHBOARD then "dashboard"
  else if pageId =? PROFILE then "profile"
  else if pageId =? SETTINGS then "settings"
  else if pageId =? LOGOUT then "logout"
  else "unknown".

(** The line feed of the C++ string literals. *)
Definition nl : string := String (ascii_of_nat 10) EmptyString.

(** [HttpServer::generatePageContent] *)
Definition generatePageContent (pageName : string) : string :=
  let content := ("<!DOCTYPE html>" ++ nl ++ "<html>" ++ nl ++ "<head>" ++ nl)%string in
  let content := (content ++ ("<title>" ++ pageName ++ " - Web Application</title>" ++ nl))%string in
  let content := (content ++ ("<meta charset='UTF-8'>" ++ nl))%string in
  let content :=
    (content ++ ("<style>body{font-family:Arial,sans-serif;margin:20px;}</style>" ++ nl))%string in
  let content := (content ++ ("</head>" ++ nl ++ "<body>" ++ nl))%string in
  let content :=
    if String.eqb pageName "Home" then
      let content := (content ++ ("<h1>Welcome to Our Web Application</h1>" ++ nl))%string in
      let content :=
        (content ++ ("<p>This is the home page with navigation and main content.</p>" ++ nl))%string in
      let content :=
        (content ++ ("<nav><ul><li><a href='login'>Login</a></li><li><a href='dashboard'>Dashboard</a></li></ul></nav>" ++ nl))%string in
      (content ++ ("<div>Main content area with featured items and news.</div>" ++ nl))%string
    else if String.eqb pageName "Login" then
      let content := (content ++ ("<h1>User Login</h1>" ++ nl))%string in
      let content :=
        (content ++ ("<form><input type='text' placeholder='Username'><input type='password' placeholder='Password'><button>Login</button></form>" ++ nl))%string in
      (content ++ ("<p>Please enter your credentials to access the dashboard.</p>" ++ nl))%string
    else if String.eqb pageName "Dashboard" then
      let content := (content ++ ("<h1>User Dashboard</h1>" ++ nl))%string in
      let content :=
        (content ++ ("<div>Welcome back! Here's your personal dashboard with statistics and quick actions.</div>" ++ nl))%string in
      let content :=
        (content ++ ("<section>Recent activity, charts, and data visualization components.</section>" ++ nl))%string in
      (content ++ ("<nav><ul><li><a href='profile'>Profile</a></li><li><a href='settings'>Settings</a></li><li><a href='logout'>Logout</a></li></ul></nav>" ++ nl))%string
    else if String.eqb pageName "Profile" then
      let content := (content ++ ("<h1>User Profile</h1>" ++ nl))%string in
      let content :=
        (content ++ ("<div>Personal information, avatar, and account details.</div>" ++ nl))%string in
      (content ++ ("<form>Profile editing form with various input fields and preferences.</form>" ++ nl))%string
    else if String.eqb pageName "Settings" then
      let content := (content ++ ("<h1>Application Settings</h1>" ++ nl))%string in
      let content :=
        (content ++ ("<div>Configuration options, preferences, and system settings.</div>" ++ nl))%string in
      (content ++ ("<form>Various settings controls, checkboxes, dropdowns, and configuration options.</form>" ++ nl))%string
    else if String.eqb pageName "Logout" then
      let content := (content ++ ("<h1>Logout Confirmation</h1>" ++ nl))%string in
      let content :=
        (content ++ ("<p>You have been successfully logged out. Thank you for using our application.</p>" ++ nl))%string in
      (content ++ ("<a href='home'>Return to Home</a> | <a href='login'>Login Again</a>" ++ nl))%string
    else
      let content := (content ++ ("<h1>" ++ pageName ++ "</h1>" ++ nl))%string in
      (content ++ ("<p>Generic page content for " ++ pageName ++ ".</p>" ++ nl))%string in
  (content ++ ("</body>" ++ nl ++ "</html>"))%string.

(** [struct PageInfo] *)
Record PageInfo : Type := mkPageInfo {
  pi_pageId : Z;
  pi_pageName : string;
  pi_content : string;
  pi_contentSize : Z;
  pi_ttl : Z
}.

(** [PageInfo::PageInfo(id, name, pageContent, ttlSeconds)] *)
Definition new_PageInfo (id : Z) (name pageContent : string) (ttlSeconds : Z) : PageInfo :=
  mkPageInfo id name pageContent (Z.of_nat (String.length pageContent)) ttlSeconds.

(** [HttpServer::initializeWebPages]: the map [webPages], which nothing
    writes afterwards. *)
Definition webPages : list (Z * PageInfo) :=
  let w := [] in
  let w := map_set HOME (new_PageInfo HOME "home" (generatePageContent "Home") 3600) w in
  let w := map_set LOGIN (new_PageInfo LOGIN "login" (generatePageContent "Login") 1800) w in
  let w :=
    map_set DASHBOARD
      (new_PageInfo DASHBOARD "dashboard" (generatePageContent "Dashboard") 900) w in
  let w :=
    map_set PROFILE (new_PageInfo PROFILE "profile" (generatePageContent "Profile") 1800) w in
  let w :=
    map_set SETTINGS
      (new_PageInfo SETTINGS "settings" (generatePageContent "Settings") 1200) w in
  map_set LOGOUT (new_PageInfo LOGOUT "logout" (generatePageContent "Logout") 300) w.

(** [HttpServer::getPageInfo], [None] for [nullptr]. *)
Definition getPageInfo (pageId : Z) : option PageInfo := map_find pageId webPages.

(** [HttpServer::calculateTransitionProbability] *)
Definition calculateTransitionProbability (fromPage toPage : string) (s : HttpServer) : Q :=
  if String.eqb fromPage EmptyString || String.eqb toPage EmptyString then 0%Q
  else
    let targetTransition := (fromPage, toPage) in
    match map_find targetTransition (patternTable s) with
    | None => 0%Q
    | Some second =>
        let totalFromPage :=
          fold_left
            (fun total entry =>
               if String.eqb (fst (fst entry)) fromPage then total + snd entry else total)
            (patternTable s) 0 in
        if totalFromPage =? 0 then 0%Q
        else (inject_Z second / inject_Z totalFromPage)%Q
    end.

(** The value [initialize] gives [predictionThreshold]; the functions that
    read it take it as an argument. *)
Definition initial_predictionThreshold : Q := 6 # 10.

(** The body of the loop of [HttpServer::predictivePreCache] for a
    transition to [toPage] whose probability exceeds the threshold. *)
Definition precache_candidate (now : Q) (toPage : string) (s : HttpServer) : HttpServer :=
  let '(needsPreCache, s1) :=
    match map_find toPage (responseCache s) with
    | Some e =>
        if negb (isExpired now e) then (false, s)
        else
          (true,
           set_cache (map_erase toPage (responseCache s)) (cacheExpiryMessages s)
             (currentCacheSize s) s)
    | None => (true, s)
    end in
  if needsPreCache then
    let responseContent := generatePageContent toPage in
    let cacheEntry := setTimestamp now (new_CacheEntry now (-1) responseContent 5) in
    let '(added, s2) := addToCacheWithManagement now toPage cacheEntry s1 in
    if added then scheduleCacheExpiry now toPage 5 s2 else s2
  else s1.

(** One iteration of the loop of [HttpServer::predictivePreCache]. *)
Definition precache_step (predictionThreshold now : Q) (currentPage : string)
    (s : HttpServer) (pattern : (string * string) * Z) : HttpServer :=
  let fromPage := fst (fst pattern) in
  let toPage := snd (fst pattern) in
  if String.eqb fromPage currentPage then
    let probability := calculateTransitionProbability fromPage toPage s in
    if Qltb predictionThreshold probability then precache_candidate now toPage s else s
  else s.

(** [HttpServer::predictivePreCache] *)
Definition predictivePreCache (predictionThreshold now : Q) (currentPage : string)
    (s : HttpServer) : HttpServer :=
  fold_left (precache_step predictionThreshold now currentPage) (patternTable s) s.

(** The fields of an [HttpResponse] the server fills in. *)
Record HttpResponse : Type := mkHttpResponse {
  resp_requestId : Z;
  resp_resourceId : Z;
  resp_content : string;
  resp_timestamp : Q;
  resp_ttl : Z;
  resp_cacheable : bool
}.

(** The pattern learning and pre-caching both response paths end with. *)
Definition learn_and_precache (predictionThreshold now : Q) (clientId resourceId fromPage : Z)
    (s : HttpServer) : HttpServer :=
  let currentPageName := getPageName resourceId in
  let fromPageName := getPageName fromPage in
  let s1 :=
    if 0 <=? fromPage then updatePatternTable clientId fromPageName currentPageName s
    else s in
  predictivePreCache predictionThreshold now currentPageName s1.

(** [HttpServer::processDelayedRequest]: the response sent and the state
    after it (counters of requests and response times left out). *)
Definition processDelayedRequest (predictionThreshold now : Q)
    (requestId clientId resourceId fromPage : Z) (s : HttpServer)
    : HttpResponse * HttpServer :=
  match getPageInfo resourceId with
  | Some pageInfo =>
      (mkHttpResponse requestId resourceId (pi_content pageInfo) now (pi_ttl pageInfo) true,
       learn_and_precache predictionThreshold now clientId resourceId fromPage s)
  | None =>
      (mkHttpResponse requestId resourceId "ERROR 404: Page not found" now 300 false, s)
  end.

(** The ["CachedResponse"] branch of [HttpServer::handleMessage]. *)
Definition handleCachedResponse (predictionThreshold now : Q)
    (requestId clientId resourceId fromPage : Z) (content : string) (s : HttpServer)
    : HttpResponse * HttpServer :=
  (mkHttpResponse requestId resourceId content now 3600 true,
   learn_and_precache predictionThreshold now clientId resourceId fromPage s).

(** [HttpServer::handleHttpRequest]: the content of the cached response it
    schedules on a hit ([None] on a miss, when it schedules the delayed
    processing), and the state after the probe. *)
Definition handleHttpRequest (now : Q) (resourceId : Z) (s : HttpServer)
    : option string * HttpServer :=
  let pageName := getPageName resourceId in
  let '(hit, cachedResponse, s') := checkResponseCache now pageName EmptyString s in
  if hit then (Some cachedResponse, s') else (None, s').

(** The messages [HttpServer::handleMessage] tells apart. *)
Inductive server_event : Type :=
| EvHttpRequest (now : Q) (resourceId : Z)
| EvCachedResponse (now : Q) (requestId clientId resourceId fromPage : Z) (content : string)
| EvCacheCleanup (now : Q)
| EvCacheExpiry (pageName : string)
| EvDelayedProcessing (now : Q) (requestId clientId resourceId fromPage : Z).

(** [HttpServer::handleMessage], as the state after the message. *)
Definition handleMessage (predictionThreshold : Q) (s : HttpServer) (ev : server_event)
    : HttpServer :=
  match ev with
  | EvHttpRequest now resourceId => snd (handleHttpRequest now resourceId s)
  | EvCachedResponse now requestId clientId resourceId fromPage content =>
      snd (handleCachedResponse predictionThreshold now requestId clientId resourceId
             fromPage content s)
  | EvCacheCleanup now => cleanupExpiredCache now s
  | EvCacheExpiry pageName => handleCacheExpiry pageName s
  | EvDelayedProcessing now requestId clientId resourceId fromPage =>
      snd (processDelayedRequest predictionThreshold now requestId clientId resourceId
             fromPage s)
  end.

Definition server_run (predictionThreshold : Q) (events : list server_event)
    (s : HttpServer) : HttpServer :=
  fold_left (handleMessage predictionThreshold) events s.

(* ================================================================= *)
(** ** More of PatternTable.cc *)

(** [std::sort] with the comparator [a.second > b.second] on the stored
    transitions, as a sort by insertion. *)
Fixpoint insert_by_count (x : (Z * Z) * Z) (l : list ((Z * Z) * Z)) : list ((Z * Z) * Z) :=
  match l with
  | [] => [x]
  | y :: r => if snd y <? snd x then x :: l else y :: insert_by_count x r
  end.

Definition sort_by_count (l : list ((Z * Z) * Z)) : list ((Z * Z) * Z) :=
  fold_right insert_by_count [] l.

(** The last loop of [PatternTable::getTopTransitions]. *)
Fixpoint top_loop (limit count : Z) (sortedTransitions : list ((Z * Z) * Z)) : list (Z * Z) :=
  match sortedTransitions with
  | [] => []
  | entry :: rest =>
      if limit <=? count then [] else fst entry :: top_loop limit (count + 1) rest
  end.

(** [PatternTable::getTopTransitions] *)
Definition getTopTransitions (pt : PatternTable) (limit : Z) : list (Z * Z) :=
  top_loop limit 0 (sort_by_count (transitions pt)).

(** [PatternTable::getPredictionAccuracy] *)
Definition getPredictionAccuracy (pt : PatternTable) : Q :=
  if predictionRequests pt =? 0 then 0%Q
  else (inject_Z (successfulPredictions pt) / inject_Z (predictionRequests pt))%Q.

(** [PatternTable::getPatternCount] *)
Definition getPatternCount (pt : PatternTable) : Z := Z.of_nat (length (transitions pt)).

(* ================================================================= *)
(** ** The first HttpClient: a cache of resource identifiers *)

(** The cache of the client: [cacheSize] is an [int] parameter, [cache] a
    [std::vector<int>]. *)
Record HttpClient : Type := mkHttpClient {
  cacheSize : Z;
  cache : list Z
}.

(** [HttpClient::checkCache] *)
Definition checkCache (resourceId : Z) (c : HttpClient) : bool :=
  if cacheSize c =? 0 then false
  else existsb (Z.eqb resourceId) (cache c).

(** [HttpClient::updateCache].  [cache.size() < cacheSize] compares a
    [size_t] with an [int], which is converted to [size_t].  The last branch
    overwrites [cache[0]] and rotates the vector left by one; it is only
    reached with a non-empty vector. *)
Definition updateCache (resourceId : Z) (c : HttpClient) : HttpClient :=
  if cacheSize c =? 0 then c
  else if existsb (Z.eqb resourceId) (cache c) then c
  else if Z.of_nat (length (cache c)) <? to_size_t (cacheSize c)
  then mkHttpClient (cacheSize c) (cache c ++ [resourceId])
  else
    match cache c with
    | [] => c
    | _ :: rest => mkHttpClient (cacheSize c) (rest ++ [resourceId])
    end.

(** The responses a client receives, as the resources they carry. *)
Definition client_run (resources : list Z) (c : HttpClient) : HttpClient :=
  fold_left (fun c r => updateCache r c) resources c.

(* ================================================================= *)
(** ** Notions the statements below are written with *)

(** Number of entries in the cache store, [responseCache.size()]. *)
Definition cache_size (s : HttpServer) : Z := Z.of_nat (length (responseCache s)).

(** The size invariant of the cache: the store holds no more entries than
    the size counter says, the counter is within the capacity, and it runs
    ahead of the store by less than the capacity. *)
Definition cache_inv (cap : Z) (s : HttpServer) : Prop :=
  maxCacheSize s = cap /\ cache_size s <= currentCacheSize s /\
  currentCacheSize s <= cap /\ currentCacheSize s - cache_size s <= cap - 1.

(** The state an insertion writes the entry into: the cache after the
    clean-up and the eviction an insertion into a full cache starts with. *)
Definition make_room (now : Q) (s : HttpServer) : HttpServer :=
  if maxCacheSize s <=? currentCacheSize s then
    let s' := cleanupExpiredCache now s in
    if maxCacheSize s' <=? currentCacheSize s' then evictLeastRecentlyUsed s'
    else s'
  else s.

(** The server state [initialize] would build for another capacity. *)
Definition with_capacity (cap : Z) : HttpServer := mkHttpServer [] [] [] [] cap 0.


Definition older (a b : string * CacheEntry) : Prop :=
  (lastAccess (snd a) < lastAccess (snd b))%Q.

Definition not_newer (a b : string * CacheEntry) : Prop :=
  (lastAccess (snd a) <= lastAccess (snd b))%Q.

(** The entry [evictLeastRecentlyUsed] removes from a cache, if any. *)
Definition lru_victim (m : list (string * CacheEntry)) : option (string * CacheEntry) :=
  match m with
  | [] => None
  | first :: _ => Some (lru_scan first (lastAccess (snd first)) m)
  end.

Definition op_item : Type := Q * string * CacheEntry.
Definition item_time (it : op_item) : Q := fst (fst it).
Definition item_key (it : op_item) : string := snd (fst it).
Definition item_entry (it : op_item) : CacheEntry := snd it.

Definition insert_ops (items : list op_item) : list cache_op :=
  map (fun it => Insert (item_time it) (item_key it) (item_entry it)) items.

Definition store_item (m : list (string * CacheEntry)) (it : op_item) :=
  map_set (item_key it) (item_entry it) m.

(** Stored transitions join valid pages and have a positive count. *)
Definition valid_entry (entry : (Z * Z) * Z) : Prop :=
  0 <= fst (fst entry) /\ 0 <= snd (fst entry) /\ 1 <= snd entry.

(** The representation invariant of a pattern table. *)
Definition pt_wf (pt : PatternTable) : Prop :=
  map_ok (transitions pt) /\ map_ok (predictions pt) /\
  Forall valid_entry (transitions pt).

(** Sum of the stored counts, and of those leaving [fromPage]. *)
Definition sum_values (m : list ((Z * Z) * Z)) : Z :=
  fold_right (fun entry acc => snd entry + acc) 0 m.

Fixpoint sum_from (fromPage : Z) (m : list ((Z * Z) * Z)) : Z :=
  match m with
  | [] => 0
  | entry :: rest =>
      (if fst (fst entry) =? fromPage then snd entry else 0) + sum_from fromPage rest
  end.

(** The running total agrees with the stored counts. *)
Definition total_ok (pt : PatternTable) : Prop :=
  pt_wf pt /\ totalTransitions pt = sum_values (transitions pt).

(** [b] may follow [a] in a list sorted by descending probability. *)
Definition desc_rel (a b : Z * Q) : Prop := (snd b <= snd a)%Q.

(** The [(page, probability)] pairs the selection loop of [getPredictions]
    keeps, [size] being [result.size()] when the loop reaches
    [probabilities]. *)
Fixpoint select_pairs (threshold : Q) (maxPred : Z) (probabilities : list (Z * Q))
    (size : nat) : list (Z * Q) :=
  match probabilities with
  | [] => []
  | prob :: rest =>
      if Qle_bool threshold (snd prob) && (Z.of_nat size <? to_size_t maxPred)
      then prob :: select_pairs threshold maxPred rest (S size)
      else select_pairs threshold maxPred rest size
  end.

(** A list of predictions for [page] is good when it is short enough, every
    page in it is confident enough, and it is in descending order of
    probability. *)
Definition good_predictions (pt : PatternTable) (page : Z) (l : list Z) : Prop :=
  Z.of_nat (length l) <= maxPredictions pt /\
  Forall (fun t => (confidenceThreshold pt <= getTransitionProbability pt page t)%Q) l /\
  descending (map (getTransitionProbability pt page) l).

(** Every memoized list is one [getPredictions] may return now. *)
Definition memo_ok (pt : PatternTable) : Prop :=
  forall page l, map_find page (predictions pt) = Some l -> good_predictions pt page l.

Definition memo_inv (threshold : Q) (maxPred : Z) (pt : PatternTable) : Prop :=
  pt_wf pt /\ confidenceThreshold pt = threshold /\ maxPredictions pt = maxPred /\
  memo_ok pt.

(** The entries [predictivePreCache] builds for a page: the generated
    content of that name, five seconds to live, no resource identifier. *)
Definition pregenerated (k : string) (e : CacheEntry) : Prop :=
  content e = generatePageContent k /\ ttl e = 5 /\ resourceId e = -1.

(** Cache and pending expiry messages agree on page [k]: a stored entry is
    pre-generated and its message is due when it expires; a page that is not
    stored has no message. *)
Definition page_consistent (k : string) (s : HttpServer) : Prop :=
  match map_find k (responseCache s) with
  | Some e =>
      pregenerated k e /\
      map_find k (cacheExpiryMessages s) = Some (timestamp e + 5)%Q
  | None => map_find k (cacheExpiryMessages s) = None
  end.

(** The invariant of the cache half of the server. *)
Definition cache_part_inv (cap : Z) (s : HttpServer) : Prop :=
  map_ok (responseCache s) /\ map_ok (cacheExpiryMessages s) /\
  maxCacheSize s = cap /\ cache_size s <= currentCacheSize s /\ cache_size s <= cap /\
  (forall k, page_consistent k s).

(** The same with page [k0] set aside, as it holds while an entry for [k0]
    is being added. *)
Definition room_inv (cap : Z) (k0 : string) (s : HttpServer) : Prop :=
  map_ok (responseCache s) /\ map_ok (cacheExpiryMessages s) /\
  maxCacheSize s = cap /\ cache_size s <= currentCacheSize s /\ cache_size s <= cap /\
  map_find k0 (responseCache s) = None /\
  (forall k, k <> k0 -> page_consistent k s).

(** A learned transition joins two different, named pages and has been seen
    at least once. *)
Definition pattern_entry_ok (entry : (string * string) * Z) : Prop :=
  fst (fst entry) <> EmptyString /\ snd (fst entry) <> EmptyString /\
  fst (fst entry) <> snd (fst entry) /\ 1 <= snd entry.

Definition pattern_inv (s : HttpServer) : Prop :=
  map_ok (patternTable s) /\ Forall pattern_entry_ok (patternTable s).

Definition server_inv (cap : Z) (s : HttpServer) : Prop :=
  cache_part_inv cap s /\ pattern_inv s.

(** Sum of the counts of the learned transitions leaving [fromPage]. *)
Fixpoint pattern_total_from (fromPage : string) (m : list ((string * string) * Z)) : Z :=
  match m with
  | [] => 0
  | entry :: rest =>
      (if String.eqb (fst (fst entry)) fromPage then snd entry else 0)
      + pattern_total_from fromPage rest
  end.

(** Number of times the step from [f] to [t] occurs in a sequence of
    pages. *)
Fixpoint count_steps (f t : Z) (pageSequence : list Z) : Z :=
  match pageSequence with
  | a :: ((b :: _) as rest) =>
      (if (a =? f) && (b =? t) then 1 else 0) + count_steps f t rest
  | _ => 0
  end.

(** [b] may follow [a] in a list of transitions sorted by descending
    count. *)
Definition count_desc (a b : (Z * Z) * Z) : Prop := snd b <= snd a.

(* ================================================================= *)
(** * Properties *)

(** ** Key comparison *)

Lemma kcmp_refl {K} `{KeyOrder K} (a : K) : kcmp a a = Eq.
Proof. now apply kcmp_eq. Qed.

Lemma kcmp_gt_lt {K} `{KeyOrder K} (a b : K) : kcmp a b = Gt -> kcmp b a = Lt.
Proof. intros E. rewrite kcmp_antisym, E. reflexivity. Qed.

Lemma kcmp_lt_gt {K} `{KeyOrder K} (a b : K) : kcmp a b = Lt -> kcmp b a = Gt.
Proof. intros E. rewrite kcmp_antisym, E. reflexivity. Qed.

Lemma kcmp_neq {K} `{KeyOrder K} (a b : K) : a <> b -> kcmp a b <> Eq.
Proof. intros N E. apply N. now apply kcmp_eq. Qed.


(** ** The map operations *)

Section StdMapFacts.
Context {K V : Type} `{KeyOrder K}.
Implicit Types (k : K) (v : V) (m : list (K * V)).

Lemma map_find_set_same k v m : map_find k (map_set k v m) = Some v.
Proof.
  induction m as [|[k' v'] r IH]; simpl.
  - now rewrite kcmp_refl.
  - destruct (kcmp k k') eqn:E; simpl; rewrite ?kcmp_refl, ?E; auto.
Qed.

Lemma map_find_set_other k k' v m :
  k <> k' -> map_find k' (map_set k v m) = map_find k' m.
Proof.
  intros N. assert (N' : kcmp k' k <> Eq) by (apply kcmp_neq; congruence).
  induction m as [|[k1 v1] r IH]; simpl.
  - destruct (kcmp k' k); congruence.
  - destruct (kcmp k k1) eqn:E; simpl.
    + apply kcmp_eq in E. subst k1. destruct (kcmp k' k); congruence.
    + destruct (kcmp k' k); congruence.
    + now rewrite IH.
Qed.

Lemma length_map_set_le k v m : (length (map_set k v m) <= S (length m))%nat.
Proof.
  induction m as [|[k' v'] r IH]; simpl; [lia|].
  destruct (kcmp k k'); simpl; lia.
Qed.

Lemma length_map_set_new k v m :
  map_find k m = None -> length (map_set k v m) = S (length m).
Proof.
  induction m as [|[k' v'] r IH]; simpl; [reflexivity|].
  destruct (kcmp k k'); simpl; intros E; try discriminate; auto.
Qed.

Lemma map_find_In k v m : map_find k m = Some v -> In (k, v) m.
Proof.
  induction m as [|[k' v'] r IH]; simpl; [discriminate|].
  destruct (kcmp k k') eqn:E; auto.
  intros [= ->]. apply kcmp_eq in E. subst. now left.
Qed.

Lemma map_find_key_In k v m : map_find k m = Some v -> In k (map fst m).
Proof. intros E. apply map_find_In in E. now apply (in_map fst) in E. Qed.

Lemma map_find_None_not_In k m : map_find k m = None -> ~ In k (map fst m).
Proof.
  induction m as [|[k' v'] r IH]; simpl; [tauto|].
  destruct (kcmp k k') eqn:E; try discriminate; intros F [->|I]; try (now apply IH);
    rewrite kcmp_refl in E; discriminate.
Qed.

Lemma In_key_map_find k m : In k (map fst m) -> exists v, map_find k m = Some v.
Proof.
  intros I. destruct (map_find k m) as [v|] eqn:E; [now exists v|].
  now apply map_find_None_not_In in E.
Qed.

Lemma map_ok_cons_inv k v m :
  map_ok ((k, v) :: m) -> map_ok m /\ Forall (fun e => kcmp k (fst e) = Lt) m.
Proof. intros O. inversion O; subst. split; assumption. Qed.

Lemma In_map_find k v m : map_ok m -> In (k, v) m -> map_find k m = Some v.
Proof.
  induction m as [|[k' v'] r IH]; simpl; [tauto|].
  intros O. apply map_ok_cons_inv in O. destruct O as [O F].
  intros [E|I].
  - inversion E; subst. now rewrite kcmp_refl.
  - rewrite Forall_forall in F. specialize (F _ I). simpl in F.
    rewrite (kcmp_lt_gt _ _ F). auto.
Qed.

Lemma In_map_set k v m e : In e (map_set k v m) -> e = (k, v) \/ In e m.
Proof.
  induction m as [|[k' v'] r IH]; simpl.
  - intros [<-|[]]. now left.
  - destruct (kcmp k k'); simpl; intuition.
Qed.

Lemma In_map_erase k m e : In e (map_erase k m) -> In e m.
Proof.
  induction m as [|[k' v'] r IH]; simpl; [tauto|].
  destruct (kcmp k k'); simpl; intuition.
Qed.

Lemma map_ok_set k v m : map_ok m -> map_ok (map_set k v m).
Proof.
  induction m as [|[k' v'] r IH]; simpl; intros O.
  - repeat constructor.
  - pose proof O as O'. apply map_ok_cons_inv in O'. destruct O' as [Or F].
    destruct (kcmp k k') eqn:E.
    + apply kcmp_eq in E. subst k'. constructor; assumption.
    + constructor; [assumption|]. constructor; [exact E|].
      rewrite Forall_forall in *. intros e I. unfold keys_lt; simpl.
      eapply kcmp_trans; [exact E|]. apply (F e I).
    + constructor; [now apply IH|].
      rewrite Forall_forall in *. intros e I. unfold keys_lt; simpl.
      apply In_map_set in I. destruct I as [->|I]; simpl.
      * now apply kcmp_gt_lt.
      * apply (F e I).
Qed.

Lemma map_ok_erase k m : map_ok m -> map_ok (map_erase k m).
Proof.
  induction m as [|[k' v'] r IH]; simpl; intros O; [assumption|].
  pose proof O as O'. apply map_ok_cons_inv in O'. destruct O' as [Or F].
  destruct (kcmp k k'); auto; (constructor; [now apply IH|]);
    rewrite Forall_forall in *; intros e I; apply In_map_erase in I; apply (F e I).
Qed.

Lemma map_erase_not_found k m : map_find k m = None -> map_erase k m = m.
Proof.
  induction m as [|[k' v'] r IH]; simpl; [reflexivity|].
  destruct (kcmp k k'); intros E; try discriminate; now rewrite IH.
Qed.

Lemma length_map_erase_found k v m :
  map_find k m = Some v -> S (length (map_erase k m)) = length m.
Proof.
  induction m as [|[k' v'] r IH]; simpl; [discriminate|].
  destruct (kcmp k k'); intros E; simpl; auto.
Qed.

Lemma length_map_erase_le k m : (length (map_erase k m) <= length m)%nat.
Proof.
  induction m as [|[k' v'] r IH]; simpl; [lia|].
  destruct (kcmp k k'); simpl; lia.
Qed.

Lemma map_find_erase_same k m : map_ok m -> map_find k (map_erase k m) = None.
Proof.
  induction m as [|[k' v'] r IH]; simpl; intros O; [reflexivity|].
  apply map_ok_cons_inv in O. destruct O as [Or F].
  destruct (kcmp k k') eqn:E; simpl; rewrite ?E; auto.
  apply kcmp_eq in E. subst k'.
  destruct (map_find k r) as [v|] eqn:Fd; [|reflexivity].
  apply map_find_In in Fd. rewrite Forall_forall in F. specialize (F _ Fd).
  simpl in F. rewrite kcmp_refl in F. discriminate.
Qed.

Lemma map_find_erase_other k k' m :
  k <> k' -> map_find k' (map_erase k m) = map_find k' m.
Proof.
  intros N. assert (N' : kcmp k' k <> Eq) by (apply kcmp_neq; congruence).
  induction m as [|[k1 v1] r IH]; simpl; [reflexivity|].
  destruct (kcmp k k1) eqn:E; simpl; rewrite ?IH; auto.
  apply kcmp_eq in E. subst k1. destruct (kcmp k' k); congruence.
Qed.

Lemma map_keys_alter (f : V -> V) k m : map fst (map_alter f k m) = map fst m.
Proof.
  induction m as [|[k' v'] r IH]; simpl; [reflexivity|].
  destruct (kcmp k k'); simpl; now rewrite ?IH.
Qed.

Lemma length_map_alter (f : V -> V) k m : length (map_alter f k m) = length m.
Proof. rewrite <- (length_map fst), map_keys_alter. apply length_map. Qed.

Lemma map_find_alter_same (f : V -> V) k m :
  map_find k (map_alter f k m) = option_map f (map_find k m).
Proof.
  induction m as [|[k' v'] r IH]; simpl; [reflexivity|].
  destruct (kcmp k k') eqn:E; simpl; rewrite E; auto.
Qed.

Lemma map_find_alter_other (f : V -> V) k k' m :
  k <> k' -> map_find k' (map_alter f k m) = map_find k' m.
Proof.
  intros N. assert (N' : kcmp k' k <> Eq) by (apply kcmp_neq; congruence).
  induction m as [|[k1 v1] r IH]; simpl; [reflexivity|].
  destruct (kcmp k k1) eqn:E; simpl; rewrite ?IH; auto.
  apply kcmp_eq in E. subst k1. destruct (kcmp k' k); congruence.
Qed.

Lemma length_map_set_pos k v m : (1 <= length (map_set k v m))%nat.
Proof.
  destruct m as [|[k' v'] r]; simpl; [lia|]. destruct (kcmp k k'); simpl; lia.
Qed.

End StdMapFacts.

(* ================================================================= *)
(** ** Cache management *)

Lemma cleanup_loop_facts now entries msgs size :
  let '(kept, _, size') := cleanup_loop now entries msgs size in
  (length kept <= length entries)%nat /\
  size - size' = Z.of_nat (length entries) - Z.of_nat (length kept) /\
  kept = filter (fun ke => negb (isExpired now (snd ke))) entries.
Proof.
  revert msgs size. induction entries as [|[k e] rest IH]; intros msgs size.
  - cbn. repeat split; lia.
  - cbn [cleanup_loop filter snd]. destruct (isExpired now e) eqn:E; cbn [negb].
    + specialize (IH (map_erase k msgs) (size - 1)).
      destruct (cleanup_loop now rest (map_erase k msgs) (size - 1)) as [[kept msgs'] size'].
      destruct IH as (L & S & F). cbn [length]. split; [lia|]. split; [lia|exact F].
    + specialize (IH msgs size).
      destruct (cleanup_loop now rest msgs size) as [[kept msgs'] size'].
      destruct IH as (L & S & F). cbn [length]. split; [lia|]. split; [lia|now rewrite F].
Qed.

Lemma cleanupExpiredCache_facts now s :
  let s' := cleanupExpiredCache now s in
  maxCacheSize s' = maxCacheSize s /\
  cache_size s' <= cache_size s /\
  currentCacheSize s - currentCacheSize s' = cache_size s - cache_size s' /\
  responseCache s' = filter (fun ke => negb (isExpired now (snd ke))) (responseCache s).
Proof.
  unfold cleanupExpiredCache, cache_size.
  pose proof (cleanup_loop_facts now (responseCache s) (cacheExpiryMessages s)
                (currentCacheSize s)) as F.
  destruct (cleanup_loop now (responseCache s) (cacheExpiryMessages s)
              (currentCacheSize s)) as [[kept msgs'] size'].
  destruct F as (L & S & F). simpl. repeat split; try lia. exact F.
Qed.

Lemma lru_scan_In lruIt oldest rest :
  lru_scan lruIt oldest rest = lruIt \/ In (lru_scan lruIt oldest rest) rest.
Proof.
  revert lruIt oldest. induction rest as [|it rest IH]; intros lruIt oldest; simpl.
  - now left.
  - destruct (Qltb (lastAccess (snd it)) oldest).
    + destruct (IH it (lastAccess (snd it))) as [->|I]; auto.
    + destruct (IH lruIt oldest) as [->|I]; auto.
Qed.

(** The entry the scan of [evictLeastRecentlyUsed] stops at is in the cache. *)
Lemma lru_victim_In first rest :
  In (lru_scan first (lastAccess (snd first)) (first :: rest)) (first :: rest).
Proof.
  destruct (lru_scan_In first (lastAccess (snd first)) (first :: rest)) as [->|I].
  - now left.
  - exact I.
Qed.

Lemma evictLeastRecentlyUsed_facts s :
  let s' := evictLeastRecentlyUsed s in
  maxCacheSize s' = maxCacheSize s /\
  (responseCache s = [] -> s' = s) /\
  (responseCache s <> [] ->
   cache_size s' = cache_size s - 1 /\ currentCacheSize s' = currentCacheSize s - 1).
Proof.
  unfold evictLeastRecentlyUsed, cache_size.
  destruct (responseCache s) as [|first rest] eqn:C.
  - rewrite C. split; [reflexivity|]. split; [reflexivity|]. intros N. now elim N.
  - pose proof (lru_victim_In first rest) as I.
    set (v := lru_scan first (lastAccess (snd first)) (first :: rest)) in *.
    destruct (In_key_map_find (fst v) (first :: rest)) as [e Fd].
    { now apply in_map. }
    apply length_map_erase_found in Fd.
    cbn [set_cache maxCacheSize responseCache currentCacheSize].
    split; [reflexivity|]. split; [discriminate|]. intros _.
    rewrite <- Fd. split; lia.
Qed.

Lemma addToCacheWithManagement_eq now pageName entry s :
  addToCacheWithManagement now pageName entry s =
  (true,
   set_cache (map_set pageName entry (responseCache (make_room now s)))
     (cacheExpiryMessages (make_room now s))
     (currentCacheSize (make_room now s) + 1) (make_room now s)).
Proof. reflexivity. Qed.

(** Under the size invariant an insertion always finds room: after the
    clean-up and the eviction the counter is below the capacity. *)
Lemma make_room_sizes cap now s :
  1 <= cap -> cache_inv cap s ->
  maxCacheSize (make_room now s) = cap /\
  cache_size (make_room now s) <= currentCacheSize (make_room now s) /\
  currentCacheSize (make_room now s) <= cap - 1.
Proof.
  intros P (M & I1 & I2 & I3). unfold make_room.
  destruct (maxCacheSize s <=? currentCacheSize s) eqn:Full.
  - apply Z.leb_le in Full.
    destruct (cleanupExpiredCache_facts now s) as (M1 & L1 & D1 & _).
    set (s1 := cleanupExpiredCache now s) in *.
    destruct (maxCacheSize s1 <=? currentCacheSize s1) eqn:Full1.
    + apply Z.leb_le in Full1.
      destruct (evictLeastRecentlyUsed_facts s1) as (M2 & E & NE).
      destruct (responseCache s1) as [|x r] eqn:C1.
      * assert (cache_size s1 = 0) by (unfold cache_size; now rewrite C1). lia.
      * destruct NE as (N1 & N2); [discriminate|]. split; [congruence|]. split; lia.
    + apply Z.leb_gt in Full1. split; [congruence|]. split; lia.
  - apply Z.leb_gt in Full. split; [exact M|]. split; lia.
Qed.

Lemma addToCacheWithManagement_inv cap now pageName entry s :
  1 <= cap -> cache_inv cap s ->
  cache_inv cap (snd (addToCacheWithManagement now pageName entry s)).
Proof.
  intros P I. destruct (make_room_sizes now P I) as (M & L & C).
  rewrite addToCacheWithManagement_eq. unfold cache_inv, cache_size in *.
  cbn [snd set_cache responseCache currentCacheSize maxCacheSize].
  pose proof (length_map_set_le pageName entry (responseCache (make_room now s))).
  pose proof (length_map_set_pos pageName entry (responseCache (make_room now s))).
  split; [exact M|]. split; [lia|]. split; lia.
Qed.

Lemma checkResponseCache_sizes now page cr s :
  let s' := snd (checkResponseCache now page cr s) in
  maxCacheSize s' = maxCacheSize s /\
  cache_size s' <= cache_size s /\
  currentCacheSize s - currentCacheSize s' = cache_size s - cache_size s'.
Proof.
  unfold checkResponseCache, cache_size.
  destruct (map_find page (responseCache s)) as [e|] eqn:Fd; simpl.
  - destruct (isExpired now e); simpl.
    + apply length_map_erase_found in Fd. repeat split; lia.
    + rewrite length_map_alter. repeat split; lia.
  - repeat split; lia.
Qed.

Lemma handleCacheExpiry_sizes pageName s :
  let s' := handleCacheExpiry pageName s in
  maxCacheSize s' = maxCacheSize s /\
  cache_size s' <= cache_size s /\
  currentCacheSize s - currentCacheSize s' = cache_size s - cache_size s'.
Proof.
  unfold handleCacheExpiry, cache_size.
  destruct (map_find pageName (responseCache s)) as [e|] eqn:Fd; simpl.
  - apply length_map_erase_found in Fd. repeat split; lia.
  - repeat split; lia.
Qed.

Lemma cache_step_inv cap s op : 1 <= cap -> cache_inv cap s -> cache_inv cap (cache_step s op).
Proof.
  intros P I. destruct op as [now k e|now k|now|k]; cbn [cache_step].
  - now apply addToCacheWithManagement_inv.
  - destruct I as (M & I1 & I2 & I3).
    destruct (checkResponseCache_sizes now k EmptyString s) as (A & B & C).
    split; [congruence|]. split; [lia|]. split; lia.
  - destruct I as (M & I1 & I2 & I3).
    destruct (cleanupExpiredCache_facts now s) as (A & B & C & _).
    split; [congruence|]. split; [lia|]. split; lia.
  - destruct I as (M & I1 & I2 & I3).
    destruct (handleCacheExpiry_sizes k s) as (A & B & C).
    split; [congruence|]. split; [lia|]. split; lia.
Qed.

Lemma cache_run_inv cap ops s : 1 <= cap -> cache_inv cap s -> cache_inv cap (cache_run ops s).
Proof.
  intros P. revert s. induction ops as [|op ops IH]; intros s I; simpl; [exact I|].
  apply IH. now apply cache_step_inv.
Qed.

(** C1. Starting from an empty cache with a capacity of at least one entry,
    after every sequence of cache operations (insertions through
    [addToCacheWithManagement], and also lookups, clean-ups and expiry
    timers) the capacity is unchanged, the number of entries of the cache
    store is at most [maxCacheSize], and so is the size counter
    [currentCacheSize]. *)
Theorem cache_capacity_bound (s0 : HttpServer) (ops : list cache_op) :
  responseCache s0 = [] -> currentCacheSize s0 = 0 -> 1 <= maxCacheSize s0 ->
  let s := cache_run ops s0 in
  maxCacheSize s = maxCacheSize s0 /\
  cache_size s <= maxCacheSize s /\
  currentCacheSize s <= maxCacheSize s.
Proof.
  intros E C P s.
  assert (I0 : cache_inv (maxCacheSize s0) s0).
  { unfold cache_inv, cache_size. rewrite E, C. cbn. repeat split; lia. }
  destruct (cache_run_inv ops P I0) as (M & I1 & I2 & _). fold s in M, I1, I2.
  split; [exact M|]. split; lia.
Qed.

Lemma cache_capacity_bound_witness :
  let ops := [Insert 0 "home" (new_CacheEntry 0 (-1) "h" 5);
              Insert 1 "login" (new_CacheEntry 1 (-1) "l" 5);
              Lookup 7 "home"] in
  let s := cache_run ops initialize in
  maxCacheSize s = 20 /\ cache_size s <= maxCacheSize s /\
  currentCacheSize s <= maxCacheSize s.
Proof.
  apply (cache_capacity_bound initialize); [reflexivity | reflexivity | cbn; lia].
Defined.

(** *** The store stays a well-formed map *)

Lemma map_ok_filter {K V} `{KeyOrder K} (p : K * V -> bool) (m : list (K * V)) :
  map_ok m -> map_ok (filter p m).
Proof.
  induction m as [|[k v] r IH]; simpl; intros O; [assumption|].
  apply map_ok_cons_inv in O. destruct O as [Or F].
  destruct (p (k, v)); [|now apply IH].
  constructor; [now apply IH|].
  rewrite Forall_forall in *. intros e I. apply filter_In in I. apply (F e (proj1 I)).
Qed.

Lemma cleanupExpiredCache_ok now s :
  map_ok (responseCache s) -> map_ok (responseCache (cleanupExpiredCache now s)).
Proof.
  intros O. destruct (cleanupExpiredCache_facts now s) as (_ & _ & _ & ->).
  now apply map_ok_filter.
Qed.

Lemma evictLeastRecentlyUsed_ok s :
  map_ok (responseCache s) -> map_ok (responseCache (evictLeastRecentlyUsed s)).
Proof.
  intros O. unfold evictLeastRecentlyUsed.
  destruct (responseCache s) as [|first rest] eqn:C; [now rewrite C|].
  cbn [set_cache responseCache]. now apply map_ok_erase.
Qed.

Lemma make_room_ok now s :
  map_ok (responseCache s) -> map_ok (responseCache (make_room now s)).
Proof.
  intros O. unfold make_room.
  destruct (maxCacheSize s <=? currentCacheSize s); [|exact O].
  destruct (maxCacheSize (cleanupExpiredCache now s) <=?
            currentCacheSize (cleanupExpiredCache now s)).
  - now apply evictLeastRecentlyUsed_ok, cleanupExpiredCache_ok.
  - now apply cleanupExpiredCache_ok.
Qed.

Lemma addToCacheWithManagement_ok now pageName entry s :
  map_ok (responseCache s) ->
  map_ok (responseCache (snd (addToCacheWithManagement now pageName entry s))).
Proof.
  intros O. rewrite addToCacheWithManagement_eq. cbn [snd set_cache responseCache].
  now apply map_ok_set, make_room_ok.
Qed.

Lemma addToCacheWithManagement_stores now pageName entry s :
  map_find pageName
    (responseCache (snd (addToCacheWithManagement now pageName entry s))) = Some entry.
Proof.
  rewrite addToCacheWithManagement_eq. cbn [snd set_cache responseCache].
  apply map_find_set_same.
Qed.

(** *** Expiry *)

Lemma isExpired_false_iff now e :
  isExpired now e = false <-> (ttl e <= 0 \/ (now < timestamp e + inject_Z (ttl e))%Q).
Proof.
  unfold isExpired. destruct (ttl e <=? 0) eqn:T.
  - apply Z.leb_le in T. tauto.
  - apply Z.leb_gt in T.
    destruct (Qle_bool (timestamp e + inject_Z (ttl e)) now) eqn:E.
    + apply Qle_bool_iff in E. split; [discriminate|].
      intros [L|L]; [lia|]. exfalso. eapply Qlt_not_le; eauto.
    + split; [|reflexivity]. intros _. right. apply Qnot_le_lt. intros L.
      apply Qle_bool_iff in L. congruence.
Qed.

Lemma isExpired_true_iff now e :
  isExpired now e = true <-> (0 < ttl e /\ (timestamp e + inject_Z (ttl e) <= now)%Q).
Proof.
  unfold isExpired. destruct (ttl e <=? 0) eqn:T.
  - apply Z.leb_le in T. split; [discriminate|lia].
  - apply Z.leb_gt in T. rewrite Qle_bool_iff. tauto.
Qed.

(** A lookup of a stored entry that has not expired is a hit. *)
Lemma checkResponseCache_hit now page cr s e :
  map_find page (responseCache s) = Some e -> isExpired now e = false ->
  checkResponseCache now page cr s =
    (true, content e,
     set_cache (map_alter (updateAccess now) page (responseCache s))
       (cacheExpiryMessages s) (currentCacheSize s) s).
Proof. intros F E. unfold checkResponseCache. now rewrite F, E. Qed.

(** A lookup of a stored entry that has expired is a miss and erases it. *)
Lemma checkResponseCache_expired now page cr s e :
  map_find page (responseCache s) = Some e -> isExpired now e = true ->
  checkResponseCache now page cr s =
    (false, cr,
     set_cache (map_erase page (responseCache s))
       (map_erase page (cacheExpiryMessages s)) (currentCacheSize s - 1) s).
Proof. intros F E. unfold checkResponseCache. now rewrite F, E. Qed.

Lemma checkResponseCache_absent now page cr s :
  map_find page (responseCache s) = None ->
  checkResponseCache now page cr s = (false, cr, s).
Proof. intros F. unfold checkResponseCache. now rewrite F. Qed.

(** C4. An entry with creation time [t0 = timestamp entry] and [ttl = d],
    once inserted: with [d > 0], a lookup at a probe time in [[t0, t0+d)] is
    a hit that returns its content and keeps it stored (with its access
    statistics updated), and a lookup at a probe time [>= t0+d] is a miss
    that removes the entry (store and size counter shrink by one); with
    [d <= 0] the entry is not expired at any probe time and the lookup is a
    hit. *)
Theorem expiry_correctness (s : HttpServer) (tins : Q) (page : string)
    (entry : CacheEntry) (now : Q) (cr : string) :
  map_ok (responseCache s) ->
  let s1 := snd (addToCacheWithManagement tins page entry s) in
  let r := checkResponseCache now page cr s1 in
  (0 < ttl entry ->
   (timestamp entry <= now)%Q -> (now < timestamp entry + inject_Z (ttl entry))%Q ->
   fst (fst r) = true /\ snd (fst r) = content entry /\
   map_find page (responseCache (snd r)) = Some (updateAccess now entry)) /\
  (0 < ttl entry -> (timestamp entry + inject_Z (ttl entry) <= now)%Q ->
   fst (fst r) = false /\ snd (fst r) = cr /\
   map_find page (responseCache (snd r)) = None /\
   cache_size (snd r) = cache_size s1 - 1 /\
   currentCacheSize (snd r) = currentCacheSize s1 - 1) /\
  (ttl entry <= 0 ->
   isExpired now entry = false /\ fst (fst r) = true /\ snd (fst r) = content entry).
Proof.
  intros O s1 r.
  assert (F : map_find page (responseCache s1) = Some entry)
    by apply addToCacheWithManagement_stores.
  assert (O1 : map_ok (responseCache s1)) by now apply addToCacheWithManagement_ok.
  split; [|split].
  - intros T _ L.
    assert (E : isExpired now entry = false) by (apply isExpired_false_iff; now right).
    subst r. rewrite (checkResponseCache_hit now page cr s1 F E).
    cbn [fst snd set_cache responseCache]. rewrite map_find_alter_same, F.
    repeat split.
  - intros T L.
    assert (E : isExpired now entry = true) by (now apply isExpired_true_iff).
    subst r. rewrite (checkResponseCache_expired now page cr s1 F E).
    unfold cache_size. cbn [fst snd set_cache responseCache currentCacheSize].
    apply length_map_erase_found in F.
    repeat split; try lia. now apply map_find_erase_same.
  - intros T.
    assert (E : isExpired now entry = false) by (apply isExpired_false_iff; now left).
    subst r. rewrite (checkResponseCache_hit now page cr s1 F E).
    repeat split. exact E.
Qed.

Lemma expiry_correctness_witness :
  let x := new_CacheEntry 0 (-1) "x" 5 in
  let s1 := snd (addToCacheWithManagement 0 "X" x initialize) in
  fst (fst (checkResponseCache 4 "X" EmptyString s1)) = true /\
  fst (fst (checkResponseCache 6 "X" EmptyString s1)) = false /\
  map_find "X"%string (responseCache (snd (checkResponseCache 6 "X" EmptyString s1))) = None.
Proof.
  intros x s1.
  assert (O : map_ok (responseCache initialize)) by constructor.
  destruct (expiry_correctness initialize 0 "X"%string x 4 EmptyString O) as (H4 & _ & _).
  destruct (expiry_correctness initialize 0 "X"%string x 6 EmptyString O) as (_ & H6 & _).
  destruct H4 as (A & _); [reflexivity| unfold Qle; simpl; lia | unfold Qlt; simpl; lia |].
  destruct H6 as (B & _ & C & _); [reflexivity| unfold Qle; simpl; lia |].
  split; [exact A|]. split; [exact B|exact C].
Defined.

(** *** A cache configured with capacity 0 *)








(** *** The victim of an eviction *)

Lemma Qltb_true a b : Qltb a b = true <-> (a < b)%Q.
Proof.
  unfold Qltb. rewrite negb_true_iff. split.
  - intros E. apply Qnot_le_lt. intros L. apply Qle_bool_iff in L. congruence.
  - intros L. destruct (Qle_bool b a) eqn:E; [|reflexivity].
    apply Qle_bool_iff in E. exfalso. eapply Qlt_not_le; eauto.
Qed.

Lemma Qltb_false a b : Qltb a b = false <-> (b <= a)%Q.
Proof.
  unfold Qltb. rewrite negb_false_iff. apply Qle_bool_iff.
Qed.

(** The scan stops at the first entry of least last access: the entries
    passed before it are strictly newer, those after it are not older. *)
Lemma lru_scan_spec lruIt rest v :
  v = lru_scan lruIt (lastAccess (snd lruIt)) rest ->
  (v = lruIt /\ Forall (not_newer lruIt) rest) \/
  (exists l1 l2, rest = l1 ++ v :: l2 /\ older v lruIt /\
                 Forall (older v) l1 /\ Forall (not_newer v) l2).
Proof.
  revert lruIt. induction rest as [|it rest IH]; intros lruIt Ev; cbn [lru_scan] in Ev.
  - left. split; [exact Ev|constructor].
  - destruct (Qltb (lastAccess (snd it)) (lastAccess (snd lruIt))) eqn:E.
    + apply Qltb_true in E. right.
      destruct (IH it Ev) as [(Ei & F)|(l1 & l2 & Er & O & F1 & F2)].
      * exists [], rest. rewrite Ei. repeat split; auto.
      * exists (it :: l1), l2. split; [rewrite Er at 1; reflexivity|].
        split; [unfold older in *; eapply Qlt_trans; eauto|].
        split; [constructor; assumption|assumption].
    + apply Qltb_false in E.
      destruct (IH lruIt Ev) as [(Ei & F)|(l1 & l2 & Er & O & F1 & F2)].
      * left. split; [exact Ei|]. constructor; assumption.
      * right. exists (it :: l1), l2. split; [rewrite Er at 1; reflexivity|].
        split; [assumption|]. split; [|assumption].
        constructor; [|assumption]. unfold older in *. eapply Qlt_le_trans; eauto.
Qed.

Lemma lru_victim_spec first rest v :
  v = lru_scan first (lastAccess (snd first)) (first :: rest) ->
  exists l1 l2, first :: rest = l1 ++ v :: l2 /\
                Forall (older v) l1 /\ Forall (not_newer v) l2.
Proof.
  cbn [lru_scan].
  replace (Qltb (lastAccess (snd first)) (lastAccess (snd first))) with false
    by (symmetry; apply Qltb_false; apply Qle_refl).
  intros Ev.
  destruct (lru_scan_spec first rest Ev) as [(Ei & F)|(l1 & l2 & E & O & F1 & F2)].
  - exists [], rest. rewrite Ei. repeat split; auto.
  - exists (first :: l1), l2. split; [rewrite E at 1; reflexivity|]. split; [|assumption].
    constructor; assumption.
Qed.

Lemma map_ok_app_inv {K V} `{KeyOrder K} (l1 l2 : list (K * V)) (x : K * V) :
  map_ok (l1 ++ x :: l2) ->
  Forall (fun y => kcmp (fst y) (fst x) = Lt) l1 /\
  Forall (fun y => kcmp (fst x) (fst y) = Lt) l2.
Proof.
  induction l1 as [|[k v] l1 IH]; cbn [app]; intros O.
  - destruct x as [kx vx]. apply map_ok_cons_inv in O. split; [constructor|apply O].
  - apply map_ok_cons_inv in O. destruct O as [O F]. destruct (IH O) as [A B].
    split; [|exact B]. constructor; [|exact A].
    rewrite Forall_forall in F. apply (F x). apply in_or_app. right. now left.
Qed.

Lemma evictLeastRecentlyUsed_victim s v :
  lru_victim (responseCache s) = Some v ->
  evictLeastRecentlyUsed s =
    set_cache (map_erase (fst v) (responseCache s))
      (map_erase (fst v) (cacheExpiryMessages s)) (currentCacheSize s - 1) s.
Proof.
  unfold lru_victim, evictLeastRecentlyUsed.
  destruct (responseCache s) as [|first rest]; [discriminate|]. now intros [= <-].
Qed.

(** The victim is an entry of least last access, and among the entries of
    that same last access the one with the smallest key. *)
Lemma lru_victim_least m v :
  map_ok m -> lru_victim m = Some v ->
  In v m /\
  (forall x, In x m -> (lastAccess (snd v) <= lastAccess (snd x))%Q) /\
  (forall x, In x m -> (lastAccess (snd x) == lastAccess (snd v))%Q ->
             x = v \/ kcmp (fst v) (fst x) = Lt).
Proof.
  intros O Ev. destruct m as [|first rest]; [discriminate|].
  cbn [lru_victim] in Ev. injection Ev as Ev. symmetry in Ev.
  destruct (lru_victim_spec first rest Ev) as (l1 & l2 & E & F1 & F2).
  rewrite E in O |- *. destruct (map_ok_app_inv _ _ _ O) as [K1 K2].
  rewrite Forall_forall in F1, F2, K1, K2.
  split; [apply in_or_app; right; now left|]. split.
  - intros x I. apply in_app_or in I. destruct I as [I|[<-|I]].
    + apply Qlt_le_weak. apply (F1 x I).
    + apply Qle_refl.
    + apply (F2 x I).
  - intros x I Eq. apply in_app_or in I. destruct I as [I|[<-|I]].
    + exfalso. specialize (F1 x I). unfold older in F1. rewrite Eq in F1.
      now apply Qlt_irrefl in F1.
    + now left.
    + right. apply (K2 x I).
Qed.

(** *** Filling a cache up to its capacity *)

Lemma set_cache_eta s :
  set_cache (responseCache s) (cacheExpiryMessages s) (currentCacheSize s) s = s.
Proof. now destruct s. Qed.

Lemma make_room_below now s : currentCacheSize s < maxCacheSize s -> make_room now s = s.
Proof.
  intros L. unfold make_room.
  replace (maxCacheSize s <=? currentCacheSize s) with false
    by (symmetry; apply Z.leb_gt; lia). reflexivity.
Qed.

Lemma cache_run_below items s :
  currentCacheSize s + Z.of_nat (length items) <= maxCacheSize s ->
  cache_run (insert_ops items) s =
    set_cache (fold_left store_item items (responseCache s)) (cacheExpiryMessages s)
      (currentCacheSize s + Z.of_nat (length items)) s.
Proof.
  revert s. induction items as [|it items IH]; intros s L.
  - cbn. rewrite Z.add_0_r. symmetry. apply set_cache_eta.
  - cbn [insert_ops map cache_run fold_left cache_step].
    rewrite addToCacheWithManagement_eq. cbn [snd].
    cbn [length] in L. rewrite make_room_below by lia.
    fold (insert_ops items).
    change (fold_left cache_step (insert_ops items) ?x) with (cache_run (insert_ops items) x).
    rewrite IH by (cbn; lia). unfold set_cache. cbn. f_equal. cbn [length]. lia.
Qed.

Lemma fold_store_ok items m : map_ok m -> map_ok (fold_left store_item items m).
Proof.
  revert m. induction items as [|it items IH]; intros m O; cbn; [exact O|].
  apply IH. now apply map_ok_set.
Qed.

Lemma fold_store_find_other items m k :
  ~ In k (map item_key items) ->
  map_find k (fold_left store_item items m) = map_find k m.
Proof.
  revert m. induction items as [|it items IH]; intros m N; cbn [fold_left]; [reflexivity|].
  cbn [map] in N. rewrite IH by (intros I; apply N; now right). unfold store_item.
  apply map_find_set_other. intros E. apply N. now left.
Qed.

Lemma fold_store_find items m it :
  NoDup (map item_key items) -> In it items ->
  map_find (item_key it) (fold_left store_item items m) = Some (item_entry it).
Proof.
  revert m. induction items as [|it0 items IH]; intros m D I; [destruct I|].
  cbn [map] in D. inversion D as [|? ? N D']; subst.
  cbn [fold_left]. destruct I as [->|I].
  - rewrite fold_store_find_other by exact N. apply map_find_set_same.
  - now apply IH.
Qed.

Lemma fold_store_In items m x :
  In x (fold_left store_item items m) ->
  In x m \/ exists it, In it items /\ x = (item_key it, item_entry it).
Proof.
  revert m. induction items as [|it0 items IH]; intros m I; cbn [fold_left] in I; [now left|].
  apply IH in I. destruct I as [I|(it & I & E)].
  - apply In_map_set in I. destruct I as [->|I]; [|now left].
    right. exists it0. split; [now left|reflexivity].
  - right. exists it. split; [now right|exact E].
Qed.

Lemma fold_store_length items m :
  NoDup (map item_key items) ->
  (forall it, In it items -> map_find (item_key it) m = None) ->
  length (fold_left store_item items m) = (length m + length items)%nat.
Proof.
  revert m. induction items as [|it0 items IH]; intros m D F; cbn [fold_left length]; [lia|].
  cbn [map] in D. inversion D as [|? ? N D']; subst.
  rewrite IH; [| exact D' |].
  - unfold store_item. rewrite length_map_set_new; [lia|]. apply F. now left.
  - intros it I. unfold store_item. rewrite map_find_set_other.
    + apply F. now right.
    + intros E. apply N. rewrite E. now apply in_map.
Qed.

Lemma cleanup_loop_fresh now entries msgs size :
  Forall (fun ke => isExpired now (snd ke) = false) entries ->
  cleanup_loop now entries msgs size = (entries, msgs, size).
Proof.
  induction 1 as [|[k e] rest E F IH]; cbn [cleanup_loop]; [reflexivity|].
  cbn [snd] in E. now rewrite E, IH.
Qed.

Lemma cleanupExpiredCache_fresh now s :
  Forall (fun ke => isExpired now (snd ke) = false) (responseCache s) ->
  cleanupExpiredCache now s = s.
Proof.
  intros F. unfold cleanupExpiredCache. rewrite cleanup_loop_fresh by exact F.
  apply set_cache_eta.
Qed.

Lemma cache_run_app ops1 ops2 s :
  cache_run (ops1 ++ ops2) s = cache_run ops2 (cache_run ops1 s).
Proof. apply fold_left_app. Qed.

(** Capacity [N], [N+1] distinct keys inserted, the first entry strictly
    older than the next [N-1] ones, nothing expired when the last insertion
    is made: that insertion evicts the first-inserted key and nothing else. *)
Lemma fill_then_insert (first : op_item) (others : list op_item) (last : op_item) :
  NoDup (map item_key ((first :: others) ++ [last])) ->
  Forall (fun it => (lastAccess (item_entry first) < lastAccess (item_entry it))%Q) others ->
  Forall (fun it => isExpired (item_time last) (item_entry it) = false) (first :: others) ->
  let cap := Z.of_nat (length (first :: others)) in
  let s := cache_run (insert_ops ((first :: others) ++ [last])) (with_capacity cap) in
  map_find (item_key first) (responseCache s) = None /\
  (forall it, In it (others ++ [last]) ->
     map_find (item_key it) (responseCache s) = Some (item_entry it)) /\
  cache_size s = cap /\ currentCacheSize s = cap.
Proof.
  intros D Old Fresh cap s.
  set (items := first :: others) in *.
  set (mN := fold_left store_item items []).
  (* the keys *)
  rewrite map_app in D. cbn [map] in D.
  assert (Dl : ~ In (item_key last) (map item_key items)).
  { apply NoDup_remove_2 in D. now rewrite app_nil_r in D. }
  assert (Di : NoDup (map item_key items)) by now apply NoDup_app_remove_r in D.
  assert (Df : ~ In (item_key first) (map item_key others)).
  { unfold items in Di. cbn [map] in Di. now inversion Di. }
  (* the cache once it is full *)
  assert (OmN : map_ok mN) by (apply fold_store_ok; constructor).
  assert (LmN : length mN = length items).
  { unfold mN. rewrite fold_store_length; [reflexivity|exact Di|reflexivity]. }
  assert (FmN : forall it, In it items -> map_find (item_key it) mN = Some (item_entry it)).
  { intros it I. now apply fold_store_find. }
  assert (ImN : forall x, In x mN ->
            exists it, In it items /\ x = (item_key it, item_entry it)).
  { intros x I. apply fold_store_In in I. destruct I as [[]|I]. exact I. }
  assert (SN : cache_run (insert_ops items) (with_capacity cap) =
               set_cache mN [] cap (with_capacity cap)).
  { rewrite cache_run_below; [reflexivity|]. cbn. unfold cap, items. lia. }
  (* the last insertion: nothing to clean up, one entry to evict *)
  assert (FreshN : Forall (fun ke => isExpired (item_time last) (snd ke) = false) mN).
  { rewrite Forall_forall. intros x I. destruct (ImN x I) as (it & Ii & ->).
    rewrite Forall_forall in Fresh. apply (Fresh it Ii). }
  destruct (lru_victim mN) as [v|] eqn:Ev.
  2: { destruct mN; [discriminate LmN|discriminate Ev]. }
  destruct (lru_victim_least OmN Ev) as (Iv & Least & _).
  assert (Vf : v = (item_key first, item_entry first)).
  { destruct (ImN v Iv) as (it & Ii & ->). destruct Ii as [<-|Io]; [reflexivity|].
    exfalso. rewrite Forall_forall in Old. specialize (Old it Io).
    assert (If : In (item_key first, item_entry first) mN).
    { apply map_find_In, FmN. now left. }
    specialize (Least _ If). cbn [snd] in Least.
    apply (Qlt_irrefl (lastAccess (item_entry first))).
    eapply Qlt_le_trans; eauto. }
  subst v.
  assert (S : responseCache s =
              map_set (item_key last) (item_entry last) (map_erase (item_key first) mN) /\
              currentCacheSize s = cap).
  { unfold s. unfold insert_ops. rewrite map_app. fold (insert_ops items).
    rewrite cache_run_app, SN. cbn [map cache_run fold_left cache_step].
    rewrite addToCacheWithManagement_eq. cbn [snd].
    set (sN := set_cache mN [] cap (with_capacity cap)).
    assert (MR : make_room (item_time last) sN =
                 set_cache (map_erase (item_key first) mN) [] (cap - 1) sN).
    { unfold make_room.
      replace (maxCacheSize sN <=? currentCacheSize sN) with true
        by (symmetry; apply Z.leb_le; cbn; lia).
      rewrite cleanupExpiredCache_fresh by exact FreshN.
      replace (maxCacheSize sN <=? currentCacheSize sN) with true
        by (symmetry; apply Z.leb_le; cbn; lia).
      rewrite (evictLeastRecentlyUsed_victim sN Ev). reflexivity. }
    rewrite MR. cbn [set_cache responseCache currentCacheSize].
    split; [reflexivity|lia]. }
  destruct S as [S C]. rewrite S.
  assert (Nfl : item_key last <> item_key first).
  { intros E. apply Dl. rewrite E. unfold items. now left. }
  split; [|split; [|split]].
  - rewrite map_find_set_other by exact Nfl. now apply map_find_erase_same.
  - intros it I. apply in_app_or in I. destruct I as [I|[<-|[]]].
    + assert (Nl : item_key last <> item_key it).
      { intros E. apply Dl. rewrite E. apply in_map. now right. }
      assert (Nf : item_key first <> item_key it).
      { intros E. apply Df. rewrite E. now apply in_map. }
      rewrite map_find_set_other by exact Nl.
      rewrite map_find_erase_other by exact Nf. apply FmN. now right.
    + apply map_find_set_same.
  - unfold cache_size. rewrite S. rewrite length_map_set_new.
    + assert (Ff : map_find (item_key first) mN = Some (item_entry first))
        by (apply FmN; now left).
      apply length_map_erase_found in Ff. unfold cap. lia.
    + rewrite map_find_erase_other by (intros E; now apply Nfl).
      unfold mN. now rewrite fold_store_find_other.
  - exact C.
Qed.

(** C6, counterexample.  Capacity 2.  ["b"] is created at time 0 and ["a"]
    at time 1, both are looked up at time 2; the insertion of ["c"] at time
    3 then evicts ["a"], although both have the same last access and ["b"]
    is the one created first.  And when the three insertions happen at one
    simulation time, with no lookup at all, the insertion of ["c"] evicts
    ["a"], the key inserted second, and keeps ["b"], the key inserted
    first. *)
Lemma lru_tie_break_counterexample :
  let s2 := cache_run [Insert 0 "b" (new_CacheEntry 0 (-1) "b" 3600);
                       Insert 1 "a" (new_CacheEntry 1 (-1) "a" 3600);
                       Lookup 2 "b"; Lookup 2 "a"] (with_capacity 2) in
  let s3 := cache_run [Insert 3 "c" (new_CacheEntry 3 (-1) "c" 3600)] s2 in
  let t3 := cache_run [Insert 0 "b" (new_CacheEntry 0 (-1) "b" 3600);
                       Insert 0 "a" (new_CacheEntry 0 (-1) "a" 3600);
                       Insert 0 "c" (new_CacheEntry 0 (-1) "c" 3600)] (with_capacity 2) in
  option_map lastAccess (map_find "a"%string (responseCache s2)) = Some 2%Q /\
  option_map lastAccess (map_find "b"%string (responseCache s2)) = Some 2%Q /\
  option_map timestamp (map_find "a"%string (responseCache s2)) = Some 1%Q /\
  option_map timestamp (map_find "b"%string (responseCache s2)) = Some 0%Q /\
  cache_keys s3 = ["b"; "c"]%string /\
  cache_keys t3 = ["b"; "c"]%string.
Proof. vm_compute. repeat split. Qed.

(** C6, as amended.  The entry [evictLeastRecentlyUsed] removes is one with
    the smallest [lastAccess]; among entries with that same [lastAccess] it
    is the one with the smallest key (the first met when iterating over the
    map), whatever their creation timestamps; exactly that key leaves the
    store.  In particular, with capacity [N >= 1], inserting [N+1] distinct
    keys with no lookup in between evicts exactly the first-inserted key,
    provided that entry's last access is strictly older than that of the
    next [N-1] entries and no entry has expired when the last insertion is
    made. *)
Theorem lru_eviction_order :
  (forall (s : HttpServer) (v : string * CacheEntry),
     map_ok (responseCache s) -> lru_victim (responseCache s) = Some v ->
     In v (responseCache s) /\
     (forall x, In x (responseCache s) ->
        (lastAccess (snd v) <= lastAccess (snd x))%Q) /\
     (forall x, In x (responseCache s) ->
        (lastAccess (snd x) == lastAccess (snd v))%Q ->
        x = v \/ kcmp (fst v) (fst x) = Lt) /\
     responseCache (evictLeastRecentlyUsed s) = map_erase (fst v) (responseCache s) /\
     map_find (fst v) (responseCache (evictLeastRecentlyUsed s)) = None /\
     (forall k, k <> fst v ->
        map_find k (responseCache (evictLeastRecentlyUsed s)) =
        map_find k (responseCache s))) /\
  (forall (first : op_item) (others : list op_item) (last : op_item),
     NoDup (map item_key ((first :: others) ++ [last])) ->
     Forall (fun it => (lastAccess (item_entry first) < lastAccess (item_entry it))%Q)
       others ->
     Forall (fun it => isExpired (item_time last) (item_entry it) = false)
       (first :: others) ->
     let cap := Z.of_nat (length (first :: others)) in
     let s := cache_run (insert_ops ((first :: others) ++ [last])) (with_capacity cap) in
     map_find (item_key first) (responseCache s) = None /\
     (forall it, In it (others ++ [last]) ->
        map_find (item_key it) (responseCache s) = Some (item_entry it)) /\
     cache_size s = cap /\ currentCacheSize s = cap).
Proof.
  split.
  - intros s v O Ev. destruct (lru_victim_least O Ev) as (I & L & T).
    rewrite (evictLeastRecentlyUsed_victim s Ev). cbn [set_cache responseCache].
    repeat split; auto.
    + now apply map_find_erase_same.
    + intros k N. apply map_find_erase_other. congruence.
  - exact fill_then_insert.
Qed.

Lemma lru_eviction_order_witness :
  let a := (0%Q, "a"%string, new_CacheEntry 0 (-1) "a" 5) in
  let b := (1%Q, "b"%string, new_CacheEntry 1 (-1) "b" 5) in
  let c := (2%Q, "c"%string, new_CacheEntry 2 (-1) "c" 5) in
  let s := cache_run (insert_ops [a; b; c]) (with_capacity 2) in
  map_find "a"%string (responseCache s) = None /\
  map_find "b"%string (responseCache s) = Some (item_entry b) /\
  map_find "c"%string (responseCache s) = Some (item_entry c).
Proof.
  intros a b c s.
  destruct lru_eviction_order as [_ Fill].
  assert (D : NoDup (map item_key ((a :: [b]) ++ [c]))).
  { repeat constructor; cbn; intuition discriminate. }
  assert (O : Forall (fun it => (lastAccess (item_entry a) < lastAccess (item_entry it))%Q)
                [b]).
  { repeat constructor. }
  assert (F : Forall (fun it => isExpired (item_time c) (item_entry it) = false) [a; b]).
  { repeat constructor. }
  destruct (Fill a [b] c D O F) as (A & B & _).
  split; [exact A|]. split.
  - apply (B b). now left.
  - apply (B c). right. now left.
Defined.

(* ================================================================= *)
(** ** The pattern table *)

Lemma map_get0_nonneg (m : list ((Z * Z) * Z)) k :
  Forall valid_entry m -> 0 <= map_get0 k m.
Proof.
  intros F. unfold map_get0. destruct (map_find k m) as [c|] eqn:E; [|lia].
  apply map_find_In in E. rewrite Forall_forall in F. destruct (F _ E) as (_ & _ & C).
  cbn in C. lia.
Qed.

Lemma valid_set m f t c :
  Forall valid_entry m -> 0 <= f -> 0 <= t -> 1 <= c ->
  Forall valid_entry (map_set (f, t) c m).
Proof.
  intros F Vf Vt Vc. rewrite Forall_forall in *. intros e I.
  apply In_map_set in I. destruct I as [->|I]; [|now apply F].
  repeat split; assumption.
Qed.

Lemma recordTransition_wf f t pt : pt_wf pt -> pt_wf (recordTransition f t pt).
Proof.
  intros (O & P & F). unfold recordTransition, isValidPage.
  destruct (enableLearning pt); cbn [negb orb]; [|now repeat split].
  destruct (0 <=? f) eqn:Vf; cbn [negb orb]; [|now repeat split].
  destruct (0 <=? t) eqn:Vt; cbn [negb orb]; [|now repeat split].
  apply Z.leb_le in Vf, Vt. unfold pt_wf. cbn [transitions predictions].
  split; [now apply map_ok_set|]. split; [now apply map_ok_erase|].
  apply valid_set; auto. pose proof (map_get0_nonneg (f, t) F). lia.
Qed.

Lemma updatePattern_wf f t c pt : pt_wf pt -> pt_wf (updatePattern f t c pt).
Proof.
  intros (O & P & F). unfold updatePattern, isValidPage.
  destruct (enableLearning pt); cbn [negb orb]; [|now repeat split].
  destruct (0 <=? f) eqn:Vf; cbn [negb orb]; [|now repeat split].
  destruct (0 <=? t) eqn:Vt; cbn [negb orb]; [|now repeat split].
  destruct (c <=? 0) eqn:Vc; [now repeat split|].
  apply Z.leb_le in Vf, Vt. apply Z.leb_gt in Vc. unfold pt_wf. cbn [transitions predictions].
  split; [now apply map_ok_set|]. split; [now apply map_ok_erase|].
  apply valid_set; auto. pose proof (map_get0_nonneg (f, t) F). lia.
Qed.

Lemma recordSequence_loop_preserves (P : PatternTable -> Prop) l pt :
  (forall f t pt', P pt' -> P (recordTransition f t pt')) ->
  P pt -> P (recordSequence_loop l pt).
Proof.
  intros Step. revert pt. induction l as [|a l IH]; intros pt H; [exact H|].
  destruct l as [|b l]; [exact H|].
  change (P (recordSequence_loop (b :: l) (recordTransition a b pt))).
  apply IH. now apply Step.
Qed.

Lemma recordSequence_preserves (P : PatternTable -> Prop) l pt :
  (forall f t pt', P pt' -> P (recordTransition f t pt')) ->
  P pt -> P (recordSequence l pt).
Proof.
  intros Step H. unfold recordSequence.
  destruct (negb (enableLearning pt) || (length l <? 2)%nat); [exact H|].
  now apply recordSequence_loop_preserves.
Qed.

Lemma compact_loop_facts minCount m total :
  let '(kept, total') := compact_loop minCount m total in
  kept = filter (fun entry => negb (snd entry <? minCount)) m /\
  total' = total - (sum_values m - sum_values kept).
Proof.
  revert total. induction m as [|e m IH]; intros total; cbn [compact_loop filter].
  - split; [reflexivity|]. cbn. lia.
  - destruct (snd e <? minCount); cbn [negb].
    + specialize (IH (total - snd e)).
      destruct (compact_loop minCount m (total - snd e)) as [kept total'].
      destruct IH as [-> ->]. split; [reflexivity|]. cbn [sum_values fold_right].
      fold (sum_values m). lia.
    + specialize (IH total).
      destruct (compact_loop minCount m total) as [kept total'].
      destruct IH as [-> ->]. split; [reflexivity|]. cbn [sum_values fold_right].
      fold (sum_values m).
      fold (sum_values (filter (fun entry => negb (snd entry <? minCount)) m)). lia.
Qed.

Lemma compact_wf n pt : pt_wf pt -> pt_wf (compact n pt).
Proof.
  intros (O & P & F). unfold compact.
  pose proof (compact_loop_facts n (transitions pt) (totalTransitions pt)) as C.
  destruct (compact_loop n (transitions pt) (totalTransitions pt)) as [kept total'].
  destruct C as [-> _]. unfold pt_wf. cbn [clearPredictionsCache set_predictions transitions predictions].
  split; [now apply map_ok_filter|]. split; [constructor|].
  rewrite Forall_forall in *. intros e I. apply filter_In in I. now apply F.
Qed.

Lemma Qtrunc_nonneg (c : Z) (f : Q) :
  0 <= c -> (0 < f)%Q -> Qtrunc (inject_Z c * f) = Qfloor (inject_Z c * f) /\
                         0 <= Qtrunc (inject_Z c * f).
Proof.
  intros C F. unfold Qtrunc, Qfloor. destruct f as [n d]. unfold Qlt in F. cbn in *.
  assert (0 <= c * n) by nia.
  rewrite Z.quot_div_nonneg by lia. split; [reflexivity|].
  apply Z.div_pos; lia.
Qed.

Lemma decay_entry_valid f e : (0 < f)%Q -> valid_entry e -> valid_entry (decay_entry f e).
Proof.
  intros F (A & B & C). unfold decay_entry, valid_entry. cbn [fst snd].
  destruct (@Qtrunc_nonneg (snd e) f) as [_ N]; [lia|exact F|].
  repeat split; auto.
  destruct (Qtrunc (inject_Z (snd e) * f) =? 0) eqn:E; [lia|].
  apply Z.eqb_neq in E. lia.
Qed.

Lemma map_ok_same_keys {K V} `{KeyOrder K} (g : K * V -> K * V) (m : list (K * V)) :
  (forall e, fst (g e) = fst e) -> map_ok m -> map_ok (map g m).
Proof.
  intros G. induction m as [|[k v] r IH]; cbn [map]; intros O; [constructor|].
  apply map_ok_cons_inv in O. destruct O as [O F].
  constructor; [now apply IH|].
  rewrite Forall_forall in *. intros e I. apply in_map_iff in I.
  destruct I as (x & <- & I). unfold keys_lt. rewrite !G. apply (F x I).
Qed.

Lemma Qle_bool_false a b : Qle_bool a b = false <-> (b < a)%Q.
Proof.
  split.
  - intros E. apply Qnot_le_lt. intros L. apply Qle_bool_iff in L. congruence.
  - intros L. destruct (Qle_bool a b) eqn:E; [|reflexivity].
    apply Qle_bool_iff in E. exfalso. eapply Qlt_not_le; eauto.
Qed.

Lemma decay_wf f pt : pt_wf pt -> pt_wf (decay f pt).
Proof.
  intros (O & P & F). unfold decay.
  destruct (Qle_bool f 0) eqn:E0; cbn [orb]; [now repeat split|].
  destruct (Qle_bool 1 f); [now repeat split|].
  apply Qle_bool_false in E0.
  unfold pt_wf. cbn [clearPredictionsCache set_predictions transitions predictions].
  split; [apply map_ok_same_keys; auto|]. split; [constructor|].
  rewrite Forall_forall in *. intros e I. apply in_map_iff in I.
  destruct I as (x & <- & I). apply decay_entry_valid; auto.
Qed.

Lemma getPredictions_wf p pt : pt_wf pt -> pt_wf (snd (getPredictions p pt)).
Proof.
  intros (O & P & F). unfold getPredictions.
  destruct (negb (isValidPage p)); [now repeat split|].
  cbn [count_request predictions].
  destruct (map_find p (predictions pt)); [now repeat split|].
  unfold pt_wf. cbn [snd set_predictions count_request transitions predictions].
  split; [exact O|]. split; [now apply map_ok_set|exact F].
Qed.

Lemma getPredictionsWithConfidence_wf p pt :
  pt_wf pt -> pt_wf (snd (getPredictionsWithConfidence p pt)).
Proof.
  intros W. unfold getPredictionsWithConfidence.
  destruct (negb (isValidPage p)); exact W.
Qed.

Lemma pt_step_wf pt op : pt_wf pt -> pt_wf (pt_step pt op).
Proof.
  intros W. destruct op; cbn [pt_step].
  - now apply recordTransition_wf.
  - apply recordSequence_preserves; [|exact W]. intros. now apply recordTransition_wf.
  - now apply updatePattern_wf.
  - now apply getPredictions_wf.
  - now apply getPredictionsWithConfidence_wf.
  - repeat split; constructor.
  - destruct W as (O & P & F). repeat split; auto. constructor.
  - now apply compact_wf.
  - now apply decay_wf.
  - exact W.
  - exact W.
  - exact W.
Qed.

Lemma new_PatternTable_wf thr maxp : pt_wf (new_PatternTable thr maxp).
Proof. repeat split; constructor. Qed.

Lemma pt_run_preserves (P : PatternTable -> Prop) (allowed : pt_op -> bool) ops pt :
  (forall pt' op, allowed op = true -> P pt' -> P (pt_step pt' op)) ->
  forallb allowed ops = true -> P pt -> P (pt_run ops pt).
Proof.
  intros Step. revert pt. induction ops as [|op ops IH]; intros pt A H; [exact H|].
  cbn [forallb] in A. apply andb_true_iff in A. destruct A as [A1 A2].
  cbn [pt_run fold_left]. apply IH; [exact A2|]. now apply Step.
Qed.

Lemma pt_run_wf ops thr maxp : pt_wf (pt_run ops (new_PatternTable thr maxp)).
Proof.
  apply (pt_run_preserves pt_wf (fun _ => true)).
  - intros pt' op _. apply pt_step_wf.
  - now induction ops.
  - apply new_PatternTable_wf.
Qed.

(** *** The running total *)

Lemma sum_values_set (m : list ((Z * Z) * Z)) k v :
  map_ok m -> sum_values (map_set k v m) = sum_values m - map_get0 k m + v.
Proof.
  unfold map_get0. induction m as [|[k' v'] r IH]; intros O.
  - cbn. lia.
  - apply map_ok_cons_inv in O. destruct O as [O F].
    cbn [map_set map_find]. destruct (kcmp k k') eqn:E.
    + cbn [sum_values fold_right snd]. lia.
    + assert (N : map_find k r = None).
      { destruct (map_find k r) as [c|] eqn:Fd; [|reflexivity].
        apply map_find_In in Fd. rewrite Forall_forall in F. specialize (F _ Fd).
        cbn [fst] in F. pose proof (kcmp_trans _ _ _ E F) as T.
        rewrite kcmp_refl in T. discriminate. }
      rewrite N. cbn [sum_values fold_right snd]. lia.
    + specialize (IH O). cbn [sum_values fold_right snd] in *.
      fold (sum_values r) in *. fold (sum_values (map_set k v r)) in *. lia.
Qed.

Lemma getTransitionCount_stored pt e :
  map_ok (transitions pt) -> In e (transitions pt) ->
  getTransitionCount pt (fst (fst e)) (snd (fst e)) = snd e.
Proof.
  intros O I. unfold getTransitionCount. destruct e as [[f t] c]. cbn [fst snd].
  now rewrite (In_map_find _ _ O I).
Qed.

Lemma sum_of_counts_values pt :
  map_ok (transitions pt) -> sum_of_counts pt = sum_values (transitions pt).
Proof.
  intros O. unfold sum_of_counts.
  assert (G : forall l, (forall e, In e l -> In e (transitions pt)) ->
            fold_right (fun entry acc =>
              getTransitionCount pt (fst (fst entry)) (snd (fst entry)) + acc) 0 l
            = sum_values l).
  { induction l as [|e l IH]; intros S; [reflexivity|].
    cbn [fold_right sum_values]. rewrite IH by (intros x I; apply S; now right).
    rewrite getTransitionCount_stored; [reflexivity|exact O|]. apply S. now left. }
  apply G. auto.
Qed.

Lemma recordTransition_total f t pt : total_ok pt -> total_ok (recordTransition f t pt).
Proof.
  intros [W T]. split; [now apply recordTransition_wf|].
  destruct W as (O & _). unfold recordTransition.
  destruct (negb (enableLearning pt) || negb (isValidPage f) || negb (isValidPage t));
    [exact T|].
  cbn [totalTransitions transitions]. rewrite sum_values_set by exact O. lia.
Qed.

Lemma updatePattern_total f t c pt : total_ok pt -> total_ok (updatePattern f t c pt).
Proof.
  intros [W T]. split; [now apply updatePattern_wf|].
  destruct W as (O & _). unfold updatePattern.
  destruct (negb (enableLearning pt) || negb (isValidPage f) || negb (isValidPage t)
            || (c <=? 0)); [exact T|].
  cbn [totalTransitions transitions]. rewrite sum_values_set by exact O. lia.
Qed.

Lemma compact_total n pt : total_ok pt -> total_ok (compact n pt).
Proof.
  intros [W T]. split; [now apply compact_wf|]. unfold compact.
  pose proof (compact_loop_facts n (transitions pt) (totalTransitions pt)) as C.
  destruct (compact_loop n (transitions pt) (totalTransitions pt)) as [kept total'].
  destruct C as [_ ->]. cbn [clearPredictionsCache set_predictions totalTransitions transitions].
  lia.
Qed.

Lemma pt_step_total pt op : negb (is_decay op) = true -> total_ok pt -> total_ok (pt_step pt op).
Proof.
  intros ND T. destruct op; cbn [pt_step]; try discriminate ND.
  - now apply recordTransition_total.
  - apply recordSequence_preserves; [|exact T]. intros. now apply recordTransition_total.
  - now apply updatePattern_total.
  - split; [apply getPredictions_wf, T|]. destruct T as [_ T]. unfold getPredictions.
    destruct (negb (isValidPage currentPage)); [exact T|].
    destruct (map_find currentPage (predictions (count_request pt))); exact T.
  - split; [apply getPredictionsWithConfidence_wf, T|]. destruct T as [_ T].
    unfold getPredictionsWithConfidence.
    destruct (negb (isValidPage currentPage)); exact T.
  - split; [|reflexivity]. repeat split; constructor.
  - destruct T as [(O & P & F) T]. split; [|exact T]. repeat split; auto. constructor.
  - now apply compact_total.
  - exact T.
  - exact T.
  - exact T.
Qed.

(** C9. After any sequence of operations without [decay] on a new pattern
    table ([recordTransition], [recordSequence], [updatePattern], [compact],
    [clear], and also the prediction queries and the setters), the running
    total [getTotalTransitions()] is the sum of [getTransitionCount] over
    the stored transitions. *)
Theorem running_total_is_sum_of_counts (ops : list pt_op) (threshold : Q) (maxPred : Z) :
  forallb (fun op => negb (is_decay op)) ops = true ->
  let pt := pt_run ops (new_PatternTable threshold maxPred) in
  getTotalTransitions pt = sum_of_counts pt.
Proof.
  intros ND pt.
  assert (T : total_ok pt).
  { apply (pt_run_preserves total_ok (fun op => negb (is_decay op))); auto.
    - intros pt' op. apply pt_step_total.
    - split; [apply new_PatternTable_wf|reflexivity]. }
  destruct T as [(O & _) T]. unfold getTotalTransitions.
  rewrite sum_of_counts_values by exact O. exact T.
Qed.

Lemma running_total_is_sum_of_counts_witness :
  let pt := pt_run [RecordTransition 0 1; RecordSequence [0; 1; 2; 0; 1];
                    UpdatePattern 3 4 7; Compact 2; GetPredictions 0]
              (new_PatternTable (1 # 10) 5) in
  getTotalTransitions pt = sum_of_counts pt.
Proof.
  apply (running_total_is_sum_of_counts
           [RecordTransition 0 1; RecordSequence [0; 1; 2; 0; 1];
            UpdatePattern 3 4 7; Compact 2; GetPredictions 0] (1 # 10) 5).
  reflexivity.
Defined.

(** *** Decay *)

(** C10. For a factor [f <= 0] or [f >= 1], [decay(f)] leaves the pattern
    table as it is: every transition count, the running total and the
    memoized predictions are unchanged; [decay] is a total function. *)
Theorem decay_out_of_range_noop (pt : PatternTable) (factor : Q) :
  (factor <= 0 \/ 1 <= factor)%Q ->
  decay factor pt = pt /\
  (forall fromPage toPage,
     getTransitionCount (decay factor pt) fromPage toPage =
     getTransitionCount pt fromPage toPage) /\
  getTotalTransitions (decay factor pt) = getTotalTransitions pt /\
  predictions (decay factor pt) = predictions pt.
Proof.
  intros R.
  assert (E : decay factor pt = pt).
  { unfold decay. destruct R as [R|R]; apply Qle_bool_iff in R; rewrite R.
    - reflexivity.
    - now rewrite orb_true_r. }
  rewrite E. repeat split.
Qed.

Lemma decay_out_of_range_noop_witness :
  let pt := pt_run [UpdatePattern 0 1 3; RecordTransition 0 2; GetPredictions 0]
              (new_PatternTable (6 # 10) 5) in
  decay 1 pt = pt /\ decay (-1 # 2) pt = pt.
Proof.
  intros pt. split.
  - apply (@decay_out_of_range_noop pt 1). right. unfold Qle. cbn. lia.
  - apply (@decay_out_of_range_noop pt (-1 # 2)). left. unfold Qle. cbn. lia.
Defined.

(** *** Self-transitions *)

(** The server's own learner, [HttpServer::updatePatternTable], skips a
    transition from a page to itself. *)
Lemma updatePatternTable_self_noop (clientId : Z) (page : string) (s : HttpServer) :
  updatePatternTable clientId page page s = s.
Proof.
  unfold updatePatternTable. rewrite String.eqb_refl. now rewrite !orb_true_r.
Qed.

(** C2.  [PatternTable::recordTransition] has no test for [from == to]: for
    every valid page [x], and learning enabled, [recordTransition(x, x)]
    adds one to the count of the transition from [x] to [x] and to the
    running total, and erases the memoized predictions of [x]. *)
Theorem recordTransition_self_loop_recorded (pt : PatternTable) (x : Z) :
  enableLearning pt = true -> 0 <= x ->
  let pt' := recordTransition x x pt in
  getTransitionCount pt' x x = getTransitionCount pt x x + 1 /\
  getTotalTransitions pt' = getTotalTransitions pt + 1 /\
  predictions pt' = map_erase x (predictions pt).
Proof.
  intros L V. unfold recordTransition, isValidPage. rewrite L.
  replace (0 <=? x) with true by (symmetry; now apply Z.leb_le).
  cbn [negb orb]. unfold getTransitionCount, getTotalTransitions, map_get0.
  cbn [transitions totalTransitions predictions]. rewrite map_find_set_same.
  repeat split.
Qed.

Lemma recordTransition_self_loop_recorded_witness :
  let pt := snd (getPredictions 0 (recordTransition 0 1 (new_PatternTable (1 # 10) 5))) in
  let pt' := recordTransition 0 0 pt in
  (getTransitionCount pt 0 0 = 0 /\ getTransitionCount pt' 0 0 = 1) /\
  (getTotalTransitions pt = 1 /\ getTotalTransitions pt' = 2) /\
  (predictions pt = [(0, [1])] /\ predictions pt' = []).
Proof.
  intros pt pt'.
  destruct (@recordTransition_self_loop_recorded pt 0) as (A & B & C);
    [reflexivity | lia |].
  fold pt' in A, B, C.
  split; [split; [reflexivity|rewrite A; reflexivity]|].
  split; [split; [reflexivity|rewrite B; reflexivity]|].
  split; [reflexivity|rewrite C; reflexivity].
Defined.

(** *** Transition probabilities *)

Lemma fold_total_from p (m : list ((Z * Z) * Z)) a :
  fold_left (fun total entry => if fst (fst entry) =? p then total + snd entry else total)
    m a = a + sum_from p m.
Proof.
  revert a. induction m as [|e m IH]; intros a; cbn [fold_left sum_from]; [lia|].
  rewrite IH. destruct (fst (fst e) =? p); lia.
Qed.

Lemma getTotalTransitionsFrom_sum pt p :
  getTotalTransitionsFrom pt p = sum_from p (transitions pt).
Proof. unfold getTotalTransitionsFrom. now rewrite fold_total_from. Qed.

Lemma getTransitionProbability_stored pt p t c :
  pt_wf pt -> In ((p, t), c) (transitions pt) -> getTotalTransitionsFrom pt p <> 0 ->
  getTransitionProbability pt p t =
  (inject_Z c / inject_Z (getTotalTransitionsFrom pt p))%Q.
Proof.
  intros (O & _ & F) I T. unfold getTransitionProbability, isValidPage.
  rewrite Forall_forall in F. destruct (F _ I) as (Vp & Vt & _). cbn [fst snd] in Vp, Vt.
  replace (0 <=? p) with true by (symmetry; now apply Z.leb_le).
  replace (0 <=? t) with true by (symmetry; now apply Z.leb_le).
  cbn [negb orb]. rewrite (In_map_find _ _ O I).
  apply Z.eqb_neq in T. now rewrite T.
Qed.

Lemma reachable_loop_In p t m :
  In t (reachable_loop p m) <-> exists c, In ((p, t), c) m.
Proof.
  induction m as [|[[f t'] c] m IH]; cbn [reachable_loop fst snd].
  - split; [intros []|intros (c & [])].
  - destruct (f =? p) eqn:E.
    + apply Z.eqb_eq in E. subst f. cbn [In]. rewrite IH. split.
      * intros [->|(c' & I)]; [exists c; now left|exists c'; now right].
      * intros (c' & [Eq|I]); [left; congruence|right; now exists c'].
    + apply Z.eqb_neq in E. rewrite IH. split.
      * intros (c' & I). exists c'. now right.
      * intros (c' & [Eq|I]); [congruence|now exists c'].
Qed.

Lemma sum_probabilities_loop p total (m : list ((Z * Z) * Z)) :
  (sum_probabilities (probabilities_loop p total m)
   == inject_Z (sum_from p m) / inject_Z total)%Q.
Proof.
  induction m as [|e m IH]; cbn [probabilities_loop sum_from].
  - cbn. unfold Qdiv. ring.
  - destruct (fst (fst e) =? p).
    + cbn [sum_probabilities fold_right snd]. fold (sum_probabilities (probabilities_loop p total m)).
      rewrite IH, inject_Z_plus. unfold Qdiv. ring.
    + rewrite IH. cbn. reflexivity.
Qed.

Lemma sum_probabilities_insert x l :
  (sum_probabilities (insert_desc x l) == snd x + sum_probabilities l)%Q.
Proof.
  induction l as [|y l IH]; cbn [insert_desc].
  - reflexivity.
  - destruct (Qltb (snd y) (snd x)); [reflexivity|].
    cbn [sum_probabilities fold_right]. fold (sum_probabilities (insert_desc x l)).
    fold (sum_probabilities l). rewrite IH. ring.
Qed.

Lemma sum_probabilities_sort l : (sum_probabilities (sort_desc l) == sum_probabilities l)%Q.
Proof.
  induction l as [|x l IH]; [reflexivity|].
  cbn [sort_desc fold_right]. fold (sort_desc l). rewrite sum_probabilities_insert, IH.
  reflexivity.
Qed.

Lemma Qdiv_self (z : Z) : z <> 0 -> (inject_Z z / inject_Z z == 1)%Q.
Proof.
  intros N. apply Qmult_inv_r. unfold Qeq. cbn. lia.
Qed.

Lemma sum_successors_loop pt p (l : list ((Z * Z) * Z)) :
  pt_wf pt -> getTotalTransitionsFrom pt p <> 0 ->
  (forall e, In e l -> In e (transitions pt)) ->
  (fold_right (fun toPage acc => getTransitionProbability pt p toPage + acc) 0
     (reachable_loop p l)
   == inject_Z (sum_from p l) / inject_Z (getTotalTransitionsFrom pt p))%Q.
Proof.
  intros W T. induction l as [|[[f t] c] l IH]; intros S; cbn [reachable_loop sum_from fst snd].
  - cbn. unfold Qdiv. ring.
  - assert (S' : forall e, In e l -> In e (transitions pt)) by (intros e I; apply S; now right).
    destruct (f =? p) eqn:E.
    + apply Z.eqb_eq in E. subst f. cbn [fold_right]. rewrite (IH S').
      rewrite (@getTransitionProbability_stored pt p t c W); [|apply S; now left|exact T].
      rewrite inject_Z_plus. unfold Qdiv. ring.
    + rewrite (IH S'). cbn. reflexivity.
Qed.

(** C3. In every state a pattern table can reach, for every page [p] with
    [getTotalTransitionsFrom(p) > 0]: the probability of each recorded
    successor is its count divided by that total, and these probabilities
    sum to 1, over the reachable pages as well as over the list
    [calculateProbabilities] returns (exactly, probabilities being
    rationals). *)
Theorem probabilities_sum_to_one (ops : list pt_op) (threshold : Q) (maxPred : Z) (p : Z) :
  let pt := pt_run ops (new_PatternTable threshold maxPred) in
  0 < getTotalTransitionsFrom pt p ->
  (forall t, In t (getReachablePages pt p) ->
     getTransitionProbability pt p t =
     (inject_Z (getTransitionCount pt p t) / inject_Z (getTotalTransitionsFrom pt p))%Q) /\
  (sum_successor_probabilities pt p == 1)%Q /\
  (sum_probabilities (calculateProbabilities pt p) == 1)%Q.
Proof.
  intros pt T. assert (W : pt_wf pt) by apply pt_run_wf.
  assert (T' : getTotalTransitionsFrom pt p <> 0) by lia.
  split; [|split].
  - intros t I. apply reachable_loop_In in I. destruct I as (c & I).
    rewrite (@getTransitionProbability_stored pt p t c W I T').
    unfold getTransitionCount. destruct W as (O & _). now rewrite (In_map_find _ _ O I).
  - unfold sum_successor_probabilities, getReachablePages.
    rewrite (@sum_successors_loop pt p (transitions pt) W T'); [|auto].
    rewrite <- getTotalTransitionsFrom_sum. now apply Qdiv_self.
  - unfold calculateProbabilities.
    replace (getTotalTransitionsFrom pt p =? 0) with false
      by (symmetry; now apply Z.eqb_neq).
    rewrite sum_probabilities_sort, sum_probabilities_loop.
    rewrite <- getTotalTransitionsFrom_sum. now apply Qdiv_self.
Qed.

Lemma probabilities_sum_to_one_witness :
  let pt := pt_run [UpdatePattern 0 1 8; UpdatePattern 0 2 2; RecordTransition 1 0]
              (new_PatternTable (6 # 10) 5) in
  (sum_successor_probabilities pt 0 == 1)%Q /\
  (sum_probabilities (calculateProbabilities pt 0) == 1)%Q.
Proof.
  intros pt.
  destruct (probabilities_sum_to_one
              [UpdatePattern 0 1 8; UpdatePattern 0 2 2; RecordTransition 1 0]
              (6 # 10) 5 0) as (_ & A & B).
  - vm_compute. reflexivity.
  - split; [exact A|exact B].
Defined.

(** *** Predictions *)

Lemma In_insert_desc x y l : In y (insert_desc x l) <-> y = x \/ In y l.
Proof.
  induction l as [|z l IH]; cbn [insert_desc].
  - cbn. intuition.
  - destruct (Qltb (snd z) (snd x)); cbn [In]; [intuition|]. rewrite IH. intuition.
Qed.

Lemma In_sort_desc y l : In y (sort_desc l) <-> In y l.
Proof.
  induction l as [|x l IH]; [reflexivity|].
  cbn [sort_desc fold_right]. fold (sort_desc l). rewrite In_insert_desc, IH.
  cbn. intuition.
Qed.

Lemma insert_desc_sorted x l :
  StronglySorted desc_rel l -> StronglySorted desc_rel (insert_desc x l).
Proof.
  induction l as [|y l IH]; cbn [insert_desc]; intros S.
  - repeat constructor.
  - inversion S as [|? ? Sl Fl]; subst.
    destruct (Qltb (snd y) (snd x)) eqn:E.
    + apply Qltb_true in E. constructor; [exact S|].
      constructor; [apply Qlt_le_weak, E|].
      rewrite Forall_forall in *. intros z I. unfold desc_rel in *.
      eapply Qle_trans; [apply (Fl z I)|]. now apply Qlt_le_weak.
    + apply Qltb_false in E. constructor; [now apply IH|].
      rewrite Forall_forall in *. intros z I. apply (proj1 (In_insert_desc _ _ _)) in I.
      destruct I as [->|I]; [exact E|now apply Fl].
Qed.

Lemma sort_desc_sorted l : StronglySorted desc_rel (sort_desc l).
Proof.
  induction l as [|x l IH]; [constructor|].
  cbn [sort_desc fold_right]. now apply insert_desc_sorted.
Qed.

Lemma select_predictions_pairs thr maxp probs result :
  select_predictions thr maxp probs result =
  result ++ map fst (select_pairs thr maxp probs (length result)).
Proof.
  revert result. induction probs as [|x probs IH]; intros result;
    cbn [select_predictions select_pairs].
  - cbn. now rewrite app_nil_r.
  - destruct (Qle_bool thr (snd x) && (Z.of_nat (length result) <? to_size_t maxp)).
    + rewrite IH. rewrite length_app. cbn [length map].
      replace (length result + 1)%nat with (S (length result)) by lia.
      now rewrite <- app_assoc.
    + apply IH.
Qed.

Lemma select_pairs_In thr maxp probs n x :
  In x (select_pairs thr maxp probs n) -> In x probs /\ (thr <= snd x)%Q.
Proof.
  revert n. induction probs as [|y probs IH]; intros n; cbn [select_pairs]; [intros []|].
  destruct (Qle_bool thr (snd y)) eqn:E; cbn [andb].
  - destruct (Z.of_nat n <? to_size_t maxp).
    + intros [<-|I]; [split; [now left|now apply Qle_bool_iff]|].
      destruct (IH _ I). split; [now right|assumption].
    + intros I. destruct (IH _ I). split; [now right|assumption].
  - intros I. destruct (IH _ I). split; [now right|assumption].
Qed.

Lemma select_pairs_length thr maxp probs n :
  Z.of_nat (length (select_pairs thr maxp probs n))
  <= Z.max 0 (to_size_t maxp - Z.of_nat n).
Proof.
  revert n. induction probs as [|y probs IH]; intros n; cbn [select_pairs].
  - cbn. lia.
  - destruct (Qle_bool thr (snd y)); cbn [andb]; [|apply IH].
    destruct (Z.of_nat n <? to_size_t maxp) eqn:E; [|apply IH].
    apply Z.ltb_lt in E. specialize (IH (S n)). cbn [length]. lia.
Qed.

Lemma select_pairs_sorted thr maxp probs n :
  StronglySorted desc_rel probs -> StronglySorted desc_rel (select_pairs thr maxp probs n).
Proof.
  revert n. induction probs as [|y probs IH]; intros n S; cbn [select_pairs]; [constructor|].
  inversion S as [|? ? Sl Fl]; subst.
  destruct (Qle_bool thr (snd y) && (Z.of_nat n <? to_size_t maxp)); [|now apply IH].
  constructor; [now apply IH|].
  rewrite Forall_forall in *. intros z I. apply select_pairs_In in I. now apply Fl.
Qed.

Lemma sorted_descending (l : list (Z * Q)) :
  StronglySorted desc_rel l -> descending (map snd l).
Proof.
  induction 1 as [|x l S IH F]; cbn [map descending]; [exact I|].
  split; [|exact IH]. destruct l as [|y l]; cbn [map]; [exact I|].
  inversion F; subst. assumption.
Qed.

Lemma probabilities_loop_In p total (m : list ((Z * Z) * Z)) x :
  In x (probabilities_loop p total m) ->
  exists c, In ((p, fst x), c) m /\ snd x = (inject_Z c / inject_Z total)%Q.
Proof.
  induction m as [|[[f t] c] m IH]; cbn [probabilities_loop fst snd]; [intros []|].
  destruct (f =? p) eqn:E.
  - apply Z.eqb_eq in E. subst f. intros [<-|I].
    + exists c. split; [now left|reflexivity].
    + destruct (IH I) as (c' & I' & Eq). exists c'. split; [now right|exact Eq].
  - intros I. destruct (IH I) as (c' & I' & Eq). exists c'. split; [now right|exact Eq].
Qed.

Lemma calculateProbabilities_In pt p x :
  pt_wf pt -> In x (calculateProbabilities pt p) ->
  snd x = getTransitionProbability pt p (fst x).
Proof.
  intros W. unfold calculateProbabilities.
  destruct (getTotalTransitionsFrom pt p =? 0) eqn:T; [intros []|].
  apply Z.eqb_neq in T. intros I. apply (proj1 (In_sort_desc _ _)) in I.
  apply probabilities_loop_In in I. destruct I as (c & I & ->).
  symmetry. now apply getTransitionProbability_stored.
Qed.

Lemma calculateProbabilities_sorted pt p :
  StronglySorted desc_rel (calculateProbabilities pt p).
Proof.
  unfold calculateProbabilities.
  destruct (getTotalTransitionsFrom pt p =? 0); [constructor|apply sort_desc_sorted].
Qed.

(** What [getPredictions] computes when it misses its memo table. *)
Lemma computed_predictions_good pt p :
  pt_wf pt -> 0 <= maxPredictions pt ->
  good_predictions pt p
    (select_predictions (confidenceThreshold pt) (maxPredictions pt)
       (calculateProbabilities pt p) []).
Proof.
  intros W M. rewrite select_predictions_pairs. cbn [app length].
  set (sel := select_pairs (confidenceThreshold pt) (maxPredictions pt)
                (calculateProbabilities pt p) 0).
  assert (P : forall x, In x sel ->
            snd x = getTransitionProbability pt p (fst x) /\
            (confidenceThreshold pt <= snd x)%Q).
  { intros x I. apply select_pairs_In in I. destruct I as [I L].
    split; [now apply calculateProbabilities_In|exact L]. }
  unfold good_predictions. split; [|split].
  - rewrite length_map.
    pose proof (select_pairs_length (confidenceThreshold pt) (maxPredictions pt)
                  (calculateProbabilities pt p) 0) as L. fold sel in L.
    assert (to_size_t (maxPredictions pt) <= maxPredictions pt).
    { unfold to_size_t. apply Z.mod_le; lia. }
    lia.
  - rewrite Forall_forall. intros t I. apply in_map_iff in I.
    destruct I as (x & <- & I). destruct (P x I) as [<- L]. exact L.
  - rewrite map_map.
    rewrite (map_ext_in (fun x => getTransitionProbability pt p (fst x)) snd).
    + apply sorted_descending, select_pairs_sorted, calculateProbabilities_sorted.
    + intros x I. symmetry. now apply P.
Qed.

Lemma sum_from_set_other p f t v (m : list ((Z * Z) * Z)) :
  f <> p -> sum_from p (map_set (f, t) v m) = sum_from p m.
Proof.
  intros N. assert (E : (f =? p) = false) by now apply Z.eqb_neq.
  induction m as [|[k c] m IH]; cbn [map_set sum_from fst snd].
  - rewrite E. reflexivity.
  - destruct (kcmp (f, t) k) eqn:C; cbn [sum_from fst snd].
    + apply kcmp_eq in C. subst k. cbn [fst]. now rewrite E.
    + now rewrite E.
    + now rewrite IH.
Qed.

Lemma getTransitionProbability_ext pt pt' p t :
  map_find (p, t) (transitions pt') = map_find (p, t) (transitions pt) ->
  sum_from p (transitions pt') = sum_from p (transitions pt) ->
  getTransitionProbability pt' p t = getTransitionProbability pt p t.
Proof.
  intros F S. unfold getTransitionProbability.
  rewrite !getTotalTransitionsFrom_sum, F, S. reflexivity.
Qed.

Lemma good_predictions_ext pt pt' p l :
  maxPredictions pt' = maxPredictions pt ->
  confidenceThreshold pt' = confidenceThreshold pt ->
  (forall t, getTransitionProbability pt' p t = getTransitionProbability pt p t) ->
  good_predictions pt p l -> good_predictions pt' p l.
Proof.
  intros M T P (A & B & C). unfold good_predictions. rewrite M, T.
  split; [exact A|]. split.
  - rewrite Forall_forall in *. intros t I. rewrite P. now apply B.
  - rewrite (map_ext _ _ P). exact C.
Qed.

(** Learning a transition from [f]: the memo of [f] is erased, and the
    memos of the other pages still hold, since neither their counts nor
    their totals moved. *)
Lemma memo_ok_learn pt f t v tot upd :
  map_ok (predictions pt) -> memo_ok pt ->
  memo_ok (mkPatternTable (map_set (f, t) v (transitions pt))
             (map_erase f (predictions pt)) tot
             (confidenceThreshold pt) (maxPredictions pt) (enableLearning pt)
             upd (predictionRequests pt) (successfulPredictions pt)).
Proof.
  intros O M p l. cbn [predictions]. intros F.
  destruct (Z.eq_dec f p) as [->|N].
  - rewrite map_find_erase_same in F by exact O. discriminate.
  - rewrite map_find_erase_other in F by exact N.
    apply (@good_predictions_ext pt); try reflexivity; [|now apply M].
    intros t'. apply getTransitionProbability_ext; cbn [transitions].
    + apply map_find_set_other. congruence.
    + now apply sum_from_set_other.
Qed.

Lemma recordTransition_memo thr maxp f t pt :
  memo_inv thr maxp pt -> memo_inv thr maxp (recordTransition f t pt).
Proof.
  intros (W & T & M & K). split; [now apply recordTransition_wf|].
  unfold recordTransition.
  destruct (negb (enableLearning pt) || negb (isValidPage f) || negb (isValidPage t));
    [exact (conj T (conj M K))|].
  cbn [confidenceThreshold maxPredictions]. split; [exact T|]. split; [exact M|].
  apply memo_ok_learn; [apply W|exact K].
Qed.

Lemma updatePattern_memo thr maxp f t c pt :
  memo_inv thr maxp pt -> memo_inv thr maxp (updatePattern f t c pt).
Proof.
  intros (W & T & M & K). split; [now apply updatePattern_wf|].
  unfold updatePattern.
  destruct (negb (enableLearning pt) || negb (isValidPage f) || negb (isValidPage t)
            || (c <=? 0)); [exact (conj T (conj M K))|].
  cbn [confidenceThreshold maxPredictions]. split; [exact T|]. split; [exact M|].
  apply memo_ok_learn; [apply W|exact K].
Qed.

Lemma getPredictions_memo thr maxp p pt :
  0 <= maxp -> memo_inv thr maxp pt -> memo_inv thr maxp (snd (getPredictions p pt)).
Proof.
  intros P (W & T & M & K). split; [now apply getPredictions_wf|].
  unfold getPredictions.
  destruct (negb (isValidPage p)); [exact (conj T (conj M K))|].
  cbn [count_request predictions].
  destruct (map_find p (predictions pt)) as [cached|] eqn:F; [exact (conj T (conj M K))|].
  cbn [snd set_predictions count_request confidenceThreshold maxPredictions].
  split; [exact T|]. split; [exact M|].
  intros p' l F'. cbn [predictions set_predictions count_request] in F'.
  apply (@good_predictions_ext pt); try reflexivity.
  destruct (Z.eq_dec p p') as [<-|N].
  - rewrite map_find_set_same in F'. injection F' as <-.
    apply (computed_predictions_good p W). lia.
  - rewrite map_find_set_other in F' by exact N. now apply K.
Qed.

Lemma memo_ok_empty pt : predictions pt = [] -> memo_ok pt.
Proof. intros E p l. rewrite E. discriminate. Qed.

Lemma pt_step_memo thr maxp pt op :
  0 <= maxp -> negb (is_reconfigure op) = true ->
  memo_inv thr maxp pt -> memo_inv thr maxp (pt_step pt op).
Proof.
  intros P NR I. destruct op; cbn [pt_step]; try discriminate NR.
  - now apply recordTransition_memo.
  - apply recordSequence_preserves; [|exact I]. intros. now apply recordTransition_memo.
  - now apply updatePattern_memo.
  - now apply getPredictions_memo.
  - destruct I as (W & T & M & K). unfold getPredictionsWithConfidence.
    destruct (negb (isValidPage currentPage)); exact (conj W (conj T (conj M K))).
  - destruct I as (W & T & M & K).
    split; [apply (pt_step_wf Clear W)|]. split; [exact T|]. split; [exact M|].
    now apply memo_ok_empty.
  - destruct I as (W & T & M & K).
    split; [apply (pt_step_wf ClearPredictionsCache W)|]. split; [exact T|].
    split; [exact M|]. now apply memo_ok_empty.
  - destruct I as (W & T & M & K). split; [now apply compact_wf|].
    unfold compact.
    destruct (compact_loop minCount (transitions pt) (totalTransitions pt)) as [kept total'].
    split; [exact T|]. split; [exact M|]. now apply memo_ok_empty.
  - destruct I as (W & T & M & K). split; [now apply decay_wf|].
    unfold decay. destruct (Qle_bool factor 0 || Qle_bool 1 factor); [exact (conj T (conj M K))|].
    split; [exact T|]. split; [exact M|]. now apply memo_ok_empty.
  - destruct I as (W & T & M & K). split; [exact W|]. split; [exact T|]. split; [exact M|].
    intros p l F. apply (@good_predictions_ext pt); try reflexivity. now apply K.
Qed.

(** C5, counterexample.  Two successors of page 0 with probabilities 2/3 and
    1/3 are memoized under threshold 1/10 and at most 5 predictions; after
    [setMaxPredictions(1)] the memoized list of two pages is still returned,
    and after [setConfidenceThreshold(9/10)] it still holds page 2, of
    probability 1/3.  A table built with [maxPredictions = -1] returns one
    page. *)
Lemma stale_predictions_counterexample :
  let pt := pt_run [RecordTransition 0 1; RecordTransition 0 1; RecordTransition 0 2;
                    GetPredictions 0] (new_PatternTable (1 # 10) 5) in
  let pt1 := setMaxPredictions 1 pt in
  let pt2 := setConfidenceThreshold (9 # 10) pt in
  let pt3 := pt_run [RecordTransition 0 1] (new_PatternTable (1 # 10) (-1)) in
  (fst (getPredictions 0 pt1) = [1; 2] /\ maxPredictions pt1 = 1) /\
  (fst (getPredictions 0 pt2) = [1; 2] /\ confidenceThreshold pt2 = (9 # 10)%Q /\
   getTransitionProbability pt2 0 2 = (1 # 3)%Q) /\
  (fst (getPredictions 0 pt3) = [1] /\ maxPredictions pt3 = -1).
Proof. vm_compute. repeat split. Qed.

(** C5, as amended.  In every state reached from a pattern table built with
    [maxPredictions >= 0] by operations other than [setConfidenceThreshold]
    and [setMaxPredictions], [getPredictions(p)] returns at most
    [maxPredictions] pages, each of transition probability from [p] at least
    [confidenceThreshold], in descending order of that probability. *)
Theorem predictions_bounded_confident_sorted (ops : list pt_op) (threshold : Q)
    (maxPred : Z) (p : Z) :
  0 <= maxPred ->
  forallb (fun op => negb (is_reconfigure op)) ops = true ->
  let pt := pt_run ops (new_PatternTable threshold maxPred) in
  let l := fst (getPredictions p pt) in
  maxPredictions pt = maxPred /\ confidenceThreshold pt = threshold /\
  Z.of_nat (length l) <= maxPredictions pt /\
  Forall (fun t => (confidenceThreshold pt <= getTransitionProbability pt p t)%Q) l /\
  descending (map (getTransitionProbability pt p) l).
Proof.
  intros P NR pt l.
  assert (I : memo_inv threshold maxPred pt).
  { apply (pt_run_preserves (memo_inv threshold maxPred)
             (fun op => negb (is_reconfigure op))); auto.
    - intros pt' op. now apply pt_step_memo.
    - split; [apply new_PatternTable_wf|]. split; [reflexivity|]. split; [reflexivity|].
      now apply memo_ok_empty. }
  destruct I as (W & T & M & K). split; [exact M|]. split; [exact T|].
  assert (G : good_predictions pt p l).
  { subst l. unfold getPredictions.
    destruct (negb (isValidPage p)).
    - cbn [fst]. repeat split; [cbn; lia|constructor].
    - cbn [count_request predictions].
      destruct (map_find p (predictions pt)) as [cached|] eqn:F; cbn [fst].
      + now apply K.
      + apply (computed_predictions_good p W). lia. }
  exact G.
Qed.

Lemma predictions_bounded_confident_sorted_witness :
  let pt := pt_run [UpdatePattern 0 1 8; UpdatePattern 0 2 2; GetPredictions 0;
                    RecordTransition 1 0] (new_PatternTable (6 # 10) 5) in
  fst (getPredictions 0 pt) = [1] /\
  Z.of_nat (length (fst (getPredictions 0 pt))) <= maxPredictions pt /\
  Forall (fun t => (confidenceThreshold pt <= getTransitionProbability pt 0 t)%Q)
    (fst (getPredictions 0 pt)).
Proof.
  intros pt.
  destruct (@predictions_bounded_confident_sorted
              [UpdatePattern 0 1 8; UpdatePattern 0 2 2; GetPredictions 0;
               RecordTransition 1 0] (6 # 10) 5 0) as (_ & _ & A & B & _).
  - lia.
  - reflexivity.
  - split; [reflexivity|]. split; [exact A|exact B].
Defined.

(** *** Decay inside its range *)





(* ================================================================= *)
(** ** Scenarios *)

(** [home -> login] recorded 8 times and [home -> dashboard] twice (pages
    0, 1 and 2): with threshold 6/10 the predictions of [home] are
    [[login]]. *)
Example scenario_predictions :
  let pt := pt_run (repeat (RecordTransition 0 1) 8 ++ repeat (RecordTransition 0 2) 2)
              (new_PatternTable (6 # 10) 5) in
  getTransitionProbability pt 0 1 = (8 # 10)%Q /\
  getTransitionProbability pt 0 2 = (2 # 10)%Q /\
  fst (getPredictions 0 pt) = [1].
Proof. vm_compute. repeat split. Qed.

(** Capacity 2: ["A"] inserted at time 0, ["B"] at time 1, ["A"] looked up
    at time 2, ["C"] inserted at time 3: ["B"] is evicted. *)
Example scenario_lru :
  let s := cache_run [Insert 0 "A" (new_CacheEntry 0 (-1) "a" 3600);
                      Insert 1 "B" (new_CacheEntry 1 (-1) "b" 3600);
                      Lookup 2 "A";
                      Insert 3 "C" (new_CacheEntry 3 (-1) "c" 3600)] (with_capacity 2) in
  cache_keys s = ["A"; "C"]%string /\ currentCacheSize s = 2.
Proof. vm_compute. repeat split. Qed.

(** An entry with a time to live of 5 inserted at time 0: a hit at time 4, a
    miss at time 6 after which the cache is one entry smaller. *)
Example scenario_expiry :
  let s := cache_run [Insert 0 "X" (new_CacheEntry 0 (-1) "x" 5)] initialize in
  fst (fst (checkResponseCache 4 "X" EmptyString s)) = true /\
  fst (fst (checkResponseCache 6 "X" EmptyString s)) = false /\
  currentCacheSize s = 1 /\
  currentCacheSize (snd (checkResponseCache 6 "X" EmptyString s)) = 0.
Proof. vm_compute. repeat split. Qed.

(* ================================================================= *)
(** * Further properties *)

(** ** Cache entries *)

(** X1. An entry built by either constructor keeps [contentSize] equal to
    the length of [content] under every sequence of setters, accesses and
    refreshes. *)
Theorem entry_content_size_invariant (ops : list entry_op) :
  (forall now resId pageContent ttlSeconds,
     let e := entry_run ops (new_CacheEntry now resId pageContent ttlSeconds) in
     contentSize e = Z.of_nat (String.length (content e))) /\
  (let e := entry_run ops default_CacheEntry in
   contentSize e = Z.of_nat (String.length (content e))).
Proof.
  assert (G : forall e, contentSize e = Z.of_nat (String.length (content e)) ->
            contentSize (entry_run ops e) =
            Z.of_nat (String.length (content (entry_run ops e)))).
  { induction ops as [|op ops IH]; intros e H; [exact H|].
    cbn [entry_run fold_left]. apply IH. destruct op; cbn; auto. }
  split.
  - intros now resId pageContent ttlSeconds. apply G. reflexivity.
  - apply G. reflexivity.
Qed.



(** X3. [refresh] restarts the lifetime of an entry at the time of the
    refresh: with [ttl'] the new time to live ([newTtl] when it is not
    negative, the old one otherwise), the refreshed entry is expired at [t]
    exactly when [ttl' > 0] and [t >= now + ttl'].  It is never expired at
    the time of the refresh, it is not dirty, and its access statistics are
    those it had. *)
Theorem refresh_restarts_lifetime (now : Q) (newContent : string) (newTtl : Z)
    (e : CacheEntry) (t : Q) :
  let e' := refresh now newContent newTtl e in
  let ttl' := if 0 <=? newTtl then newTtl else ttl e in
  (isExpired t e' = true <-> 0 < ttl' /\ (now + inject_Z ttl' <= t)%Q) /\
  isExpired now e' = false /\
  content e' = newContent /\ dirty e' = false /\
  accessCount e' = accessCount e /\ lastAccess e' = lastAccess e.
Proof.
  intros e' ttl'. split; [apply isExpired_true_iff|].
  split; [|repeat split].
  apply isExpired_false_iff. cbn [e' refresh ttl timestamp].
  fold ttl'. destruct (Z_le_gt_dec ttl' 0) as [L|G]; [now left|right].
  rewrite <- (Qplus_0_r now) at 1. apply Qplus_lt_r.
  unfold Qlt. cbn. lia.
Qed.

(** ** The cache functions of the server *)

Lemma map_find_filter {K V} `{KeyOrder K} (p : K * V -> bool) (m : list (K * V)) k :
  map_ok m ->
  map_find k (filter p m) =
  match map_find k m with
  | Some v => if p (k, v) then Some v else None
  | None => None
  end.
Proof.
  induction m as [|[k' v'] r IH]; intros O; [reflexivity|].
  apply map_ok_cons_inv in O. destruct O as [O F].
  cbn [filter map_find]. destruct (kcmp k k') eqn:E.
  - apply kcmp_eq in E. subst k'.
    assert (N : map_find k r = None).
    { destruct (map_find k r) as [c|] eqn:Fd; [|reflexivity].
      apply map_find_In in Fd. rewrite Forall_forall in F. specialize (F _ Fd).
      cbn [fst] in F. rewrite kcmp_refl in F. discriminate. }
    destruct (p (k, v')).
    + cbn [map_find]. now rewrite kcmp_refl.
    + rewrite (IH O), N. reflexivity.
  - destruct (p (k', v')); [cbn [map_find]; rewrite E|]; apply (IH O).
  - destruct (p (k', v')); [cbn [map_find]; rewrite E|]; apply (IH O).
Qed.

Lemma map_find_lt_None {K V} `{KeyOrder K} (m : list (K * V)) k :
  Forall (fun e => kcmp k (fst e) = Lt) m -> map_find k m = None.
Proof.
  intros F. destruct (map_find k m) as [c|] eqn:Fd; [|reflexivity].
  apply map_find_In in Fd. rewrite Forall_forall in F. specialize (F _ Fd).
  cbn [fst] in F. rewrite kcmp_refl in F. discriminate.
Qed.

Lemma map_erase_set_same {K V} `{KeyOrder K} (m : list (K * V)) k v :
  map_ok m -> map_erase k (map_set k v m) = map_erase k m.
Proof.
  induction m as [|[k' v'] r IH]; intros O.
  - cbn. now rewrite kcmp_refl.
  - pose proof O as O'. apply map_ok_cons_inv in O'. destruct O' as [Or F].
    cbn [map_set]. destruct (kcmp k k') eqn:E.
    + cbn [map_erase]. now rewrite kcmp_refl, E.
    + cbn [map_erase]. rewrite kcmp_refl, E. f_equal. symmetry.
      apply map_erase_not_found. apply map_find_lt_None.
      rewrite Forall_forall in *. intros e I. eapply kcmp_trans; [exact E|apply (F e I)].
    + cbn [map_erase]. rewrite E. now rewrite (IH Or).
Qed.

Lemma map_erase_twice {K V} `{KeyOrder K} (m : list (K * V)) k :
  map_ok m -> map_erase k (map_erase k m) = map_erase k m.
Proof. intros O. apply map_erase_not_found. now apply map_find_erase_same. Qed.

Lemma length_map_set_old {K V} `{KeyOrder K} (m : list (K * V)) k v v0 :
  map_ok m -> map_find k m = Some v0 -> length (map_set k v m) = length m.
Proof.
  induction m as [|[k' v'] r IH]; cbn [map_find map_set]; intros O; [discriminate|].
  apply map_ok_cons_inv in O. destruct O as [O F].
  destruct (kcmp k k') eqn:E; intros Fd; cbn [length]; auto.
  exfalso. rewrite map_find_lt_None in Fd; [discriminate|].
  rewrite Forall_forall in *. intros e I. eapply kcmp_trans; [exact E|apply (F e I)].
Qed.

Lemma cleanup_loop_msgs now entries (msgs : list (string * Q)) size k :
  map_ok entries -> map_ok msgs ->
  let '(_, msgs', _) := cleanup_loop now entries msgs size in
  map_ok msgs' /\
  map_find k msgs' =
  match map_find k entries with
  | Some e => if isExpired now e then None else map_find k msgs
  | None => map_find k msgs
  end.
Proof.
  revert msgs size. induction entries as [|[k0 e0] rest IH]; intros msgs size O Om.
  - cbn. split; [exact Om|reflexivity].
  - apply map_ok_cons_inv in O. destruct O as [O F].
    cbn [cleanup_loop map_find].
    assert (N : kcmp k k0 = Eq -> map_find k rest = None).
    { intros E. apply kcmp_eq in E. subst k0. now apply map_find_lt_None. }
    destruct (isExpired now e0) eqn:X.
    + specialize (IH (map_erase k0 msgs) (size - 1) O (map_ok_erase k0 Om)).
      destruct (cleanup_loop now rest (map_erase k0 msgs) (size - 1)) as [[kept msgs'] size'].
      destruct IH as [Om' IH]. split; [exact Om'|]. rewrite IH.
      destruct (kcmp k k0) eqn:E.
      * rewrite (N eq_refl), X. apply kcmp_eq in E. subst k0. now apply map_find_erase_same.
      * rewrite map_find_erase_other; [reflexivity|]. intros ->. rewrite kcmp_refl in E.
        discriminate.
      * rewrite map_find_erase_other; [reflexivity|]. intros ->. rewrite kcmp_refl in E.
        discriminate.
    + specialize (IH msgs size O Om).
      destruct (cleanup_loop now rest msgs size) as [[kept msgs'] size'].
      destruct IH as [Om' IH]. split; [exact Om'|]. rewrite IH.
      destruct (kcmp k k0) eqn:E; [|reflexivity|reflexivity].
      now rewrite (N eq_refl), X.
Qed.

Lemma cleanupExpiredCache_finds now s k :
  map_ok (responseCache s) -> map_ok (cacheExpiryMessages s) ->
  let s' := cleanupExpiredCache now s in
  map_ok (cacheExpiryMessages s') /\
  map_find k (responseCache s') =
    match map_find k (responseCache s) with
    | Some e => if isExpired now e then None else Some e
    | None => None
    end /\
  map_find k (cacheExpiryMessages s') =
    match map_find k (responseCache s) with
    | Some e => if isExpired now e then None else map_find k (cacheExpiryMessages s)
    | None => map_find k (cacheExpiryMessages s)
    end /\
  patternTable s' = patternTable s /\ clientLastPage s' = clientLastPage s.
Proof.
  intros O Om.
  destruct (cleanupExpiredCache_facts now s) as (_ & _ & _ & C). cbn zeta in *.
  split; [|split; [|split]].
  - pose proof (cleanup_loop_msgs now (currentCacheSize s) k O Om) as M.
    unfold cleanupExpiredCache.
    destruct (cleanup_loop now (responseCache s) (cacheExpiryMessages s) (currentCacheSize s))
      as [[kept msgs'] size']. apply M.
  - rewrite C, (map_find_filter _ k O). cbn [snd].
    destruct (map_find k (responseCache s)) as [e|]; [|reflexivity].
    now destruct (isExpired now e).
  - pose proof (cleanup_loop_msgs now (currentCacheSize s) k O Om) as M.
    unfold cleanupExpiredCache.
    destruct (cleanup_loop now (responseCache s) (cacheExpiryMessages s) (currentCacheSize s))
      as [[kept msgs'] size']. apply M.
  - unfold cleanupExpiredCache.
    destruct (cleanup_loop now (responseCache s) (cacheExpiryMessages s) (currentCacheSize s))
      as [[kept msgs'] size']. split; reflexivity.
Qed.

(** X4. [cleanupExpiredCache] at time [now] keeps exactly the entries that
    are not expired at [now], unchanged, and drops the pending expiry
    messages of the entries it removes and of no other page; the size
    counter decreases by the number of entries removed; no stored entry is
    expired afterwards, and a second clean-up at the same time changes
    nothing. *)
Theorem cleanupExpiredCache_sweeps (now : Q) (s : HttpServer) :
  map_ok (responseCache s) -> map_ok (cacheExpiryMessages s) ->
  let s' := cleanupExpiredCache now s in
  (forall k e, map_find k (responseCache s') = Some e <->
               map_find k (responseCache s) = Some e /\ isExpired now e = false) /\
  (forall k, map_find k (cacheExpiryMessages s') =
             match map_find k (responseCache s) with
             | Some e => if isExpired now e then None else map_find k (cacheExpiryMessages s)
             | None => map_find k (cacheExpiryMessages s)
             end) /\
  currentCacheSize s - currentCacheSize s' = cache_size s - cache_size s' /\
  Forall (fun ke => isExpired now (snd ke) = false) (responseCache s') /\
  cleanupExpiredCache now s' = s'.
Proof.
  intros O Om s'.
  destruct (cleanupExpiredCache_facts now s) as (_ & _ & D & C). fold s' in D, C.
  assert (Fr : Forall (fun ke => isExpired now (snd ke) = false) (responseCache s')).
  { rewrite C, Forall_forall. intros x I. apply filter_In in I.
    destruct I as [_ I]. now apply negb_true_iff in I. }
  split; [|split; [|split; [|split]]].
  - intros k e. destruct (cleanupExpiredCache_finds now s k O Om) as (_ & F & _).
    fold s' in F. rewrite F.
    destruct (map_find k (responseCache s)) as [e0|]; [|split; [discriminate|intros [? _]; discriminate]].
    destruct (isExpired now e0) eqn:X.
    + split; [discriminate|]. intros [[= ->] Y]. congruence.
    + split; [intros [= ->]; now split|]. now intros [[= ->] _].
  - intros k. apply (cleanupExpiredCache_finds now s k O Om).
  - exact D.
  - exact Fr.
  - now apply cleanupExpiredCache_fresh.
Qed.

Lemma cleanupExpiredCache_sweeps_witness :
  let s := cache_run [Insert 0 "a" (new_CacheEntry 0 (-1) "a" 5);
                      Insert 3 "b" (new_CacheEntry 3 (-1) "b" 5)] initialize in
  cache_keys (cleanupExpiredCache 6 s) = ["b"%string] /\
  currentCacheSize (cleanupExpiredCache 6 s) = 1.
Proof.
  intros s.
  assert (O : map_ok (responseCache s)) by (repeat constructor).
  assert (Om : map_ok (cacheExpiryMessages s)) by constructor.
  destruct (@cleanupExpiredCache_sweeps 6 s O Om) as (_ & _ & D & _).
  split; [reflexivity|]. 
  assert (E : currentCacheSize s = 2) by reflexivity.
  assert (E1 : cache_size s = 2) by reflexivity.
  assert (E2 : cache_size (cleanupExpiredCache 6 s) = 1) by reflexivity.
  rewrite E, E1, E2 in D. lia.
Defined.

(** X5. [handleCacheExpiry] removes the entry of the page, whatever its age,
    and its pending expiry message, and touches no other page; the size
    counter goes down by one exactly when an entry was stored; a second
    expiry of the same page changes nothing. *)
Theorem handleCacheExpiry_removes (pageName : string) (s : HttpServer) :
  map_ok (responseCache s) -> map_ok (cacheExpiryMessages s) ->
  let s' := handleCacheExpiry pageName s in
  map_find pageName (responseCache s') = None /\
  map_find pageName (cacheExpiryMessages s') = None /\
  (forall k, k <> pageName ->
     map_find k (responseCache s') = map_find k (responseCache s) /\
     map_find k (cacheExpiryMessages s') = map_find k (cacheExpiryMessages s)) /\
  currentCacheSize s' =
    (match map_find pageName (responseCache s) with
     | Some _ => currentCacheSize s - 1
     | None => currentCacheSize s
     end) /\
  handleCacheExpiry pageName s' = s'.
Proof.
  intros O Om s'.
  assert (E : s' = set_cache (map_erase pageName (responseCache s))
                     (map_erase pageName (cacheExpiryMessages s))
                     (match map_find pageName (responseCache s) with
                      | Some _ => currentCacheSize s - 1
                      | None => currentCacheSize s
                      end) s).
  { unfold s', handleCacheExpiry.
    destruct (map_find pageName (responseCache s)) eqn:F; [reflexivity|].
    now rewrite (map_erase_not_found _ _ F). }
  rewrite E. cbn [set_cache responseCache cacheExpiryMessages currentCacheSize].
  split; [now apply map_find_erase_same|]. split; [now apply map_find_erase_same|].
  split; [|split; [reflexivity|]].
  - intros k N. split; apply map_find_erase_other; congruence.
  - unfold handleCacheExpiry. cbn [set_cache responseCache cacheExpiryMessages currentCacheSize].
    rewrite (map_find_erase_same _ O). unfold set_cache. cbn.
    now rewrite (map_erase_twice _ Om).
Qed.

Lemma handleCacheExpiry_removes_witness :
  let s := cache_run [Insert 0 "a" (new_CacheEntry 0 (-1) "a" 5)] initialize in
  map_find "a"%string (responseCache (handleCacheExpiry "a" s)) = None /\
  currentCacheSize (handleCacheExpiry "a" s) = 0.
Proof.
  intros s.
  assert (O : map_ok (responseCache s)) by (repeat constructor).
  assert (Om : map_ok (cacheExpiryMessages s)) by constructor.
  destruct (@handleCacheExpiry_removes "a"%string s O Om) as (A & _ & _ & B & _).
  split; [exact A|]. rewrite B. reflexivity.
Defined.

(** X6. [scheduleCacheExpiry] leaves exactly one pending expiry message for
    the page, due at [now + ttlSeconds], replacing the one it had; the
    messages of the other pages and the cache are untouched, and scheduling
    twice is the same as scheduling the second time only. *)
Theorem scheduleCacheExpiry_replaces (now ttlSeconds : Q) (pageName : string)
    (s : HttpServer) :
  map_ok (cacheExpiryMessages s) ->
  let s' := scheduleCacheExpiry now pageName ttlSeconds s in
  map_ok (cacheExpiryMessages s') /\
  map_find pageName (cacheExpiryMessages s') = Some (now + ttlSeconds)%Q /\
  (forall k, k <> pageName ->
     map_find k (cacheExpiryMessages s') = map_find k (cacheExpiryMessages s)) /\
  responseCache s' = responseCache s /\ currentCacheSize s' = currentCacheSize s /\
  (forall now2 ttl2,
     scheduleCacheExpiry now2 pageName ttl2 s' = scheduleCacheExpiry now2 pageName ttl2 s).
Proof.
  intros Om s'. unfold s', scheduleCacheExpiry.
  cbn [set_cache responseCache cacheExpiryMessages currentCacheSize].
  split; [now apply map_ok_set, map_ok_erase|].
  split; [apply map_find_set_same|]. split; [|split; [reflexivity|split; [reflexivity|]]].
  - intros k N. rewrite map_find_set_other by congruence.
    apply map_find_erase_other. congruence.
  - intros now2 ttl2. unfold set_cache. cbn. f_equal.
    rewrite map_erase_set_same by now apply map_ok_erase.
    now rewrite map_erase_twice.
Qed.

Lemma scheduleCacheExpiry_replaces_witness :
  let s := scheduleCacheExpiry 0 "a" 5 initialize in
  map_find "a"%string (cacheExpiryMessages (scheduleCacheExpiry 2 "a" 5 s)) = Some (2 + 5)%Q.
Proof.
  intros s.
  assert (Om : map_ok (cacheExpiryMessages s)) by (repeat constructor).
  apply (@scheduleCacheExpiry_replaces 2 5 "a"%string s Om).
Defined.

(** X7. Inserting a page that is already stored, into a cache whose counter
    is below the capacity, replaces the entry and leaves the number of
    stored entries as it was, yet adds one to [currentCacheSize]: the
    counter runs ahead of the store. *)
Theorem reinsert_counts_twice (now : Q) (pageName : string) (entry old : CacheEntry)
    (s : HttpServer) :
  map_ok (responseCache s) ->
  map_find pageName (responseCache s) = Some old ->
  currentCacheSize s < maxCacheSize s ->
  let s' := snd (addToCacheWithManagement now pageName entry s) in
  map_find pageName (responseCache s') = Some entry /\
  (forall k, k <> pageName ->
     map_find k (responseCache s') = map_find k (responseCache s)) /\
  cache_size s' = cache_size s /\
  currentCacheSize s' = currentCacheSize s + 1.
Proof.
  intros O F L s'. unfold s'. rewrite addToCacheWithManagement_eq.
  rewrite (make_room_below now s L). unfold cache_size.
  cbn [snd set_cache responseCache currentCacheSize].
  split; [apply map_find_set_same|]. split; [|split; [|reflexivity]].
  - intros k N. apply map_find_set_other. congruence.
  - now rewrite (length_map_set_old _ entry O F).
Qed.

Lemma reinsert_counts_twice_witness :
  let s := cache_run [Insert 0 "a" (new_CacheEntry 0 (-1) "a" 5)] initialize in
  let s' := snd (addToCacheWithManagement 1 "a" (new_CacheEntry 1 (-1) "a" 5) s) in
  cache_size s' = 1 /\ currentCacheSize s' = 2.
Proof.
  intros s s'.
  assert (O : map_ok (responseCache s)) by (repeat constructor).
  destruct (@reinsert_counts_twice 1 "a"%string (new_CacheEntry 1 (-1) "a" 5)
              (new_CacheEntry 0 (-1) "a" 5) s O) as (_ & _ & A & B).
  - reflexivity.
  - reflexivity.
  - fold s' in A, B. split; [rewrite A|rewrite B]; reflexivity.
Defined.

Lemma map_ok_alter {K V} `{KeyOrder K} (f : V -> V) k (m : list (K * V)) :
  map_ok m -> map_ok (map_alter f k m).
Proof.
  induction m as [|[k' v'] r IH]; cbn [map_alter]; intros O; [exact O|].
  apply map_ok_cons_inv in O. destruct O as [O F].
  assert (G : Forall (keys_lt (k', v')) (map_alter f k r)).
  { rewrite Forall_forall in *. intros e I.
    assert (Ik : In (fst e) (map fst (map_alter f k r))) by now apply in_map.
    rewrite map_keys_alter in Ik. apply in_map_iff in Ik. destruct Ik as (x & Ex & Ix).
    unfold keys_lt. cbn [fst]. rewrite <- Ex. apply (F x Ix). }
  destruct (kcmp k k').
  - constructor; [exact O|exact F].
  - constructor; [now apply IH|exact G].
  - constructor; [now apply IH|exact G].
Qed.

(** X8. A lookup that hits adds one to the access count of the entry and
    sets its last access to the time of the lookup; it does not extend the
    life of the entry (it expires when it would have), and it leaves the
    other entries, the pending expiry messages and both sizes as they
    were. *)
Theorem lookup_hit_updates_access (now : Q) (page cr : string) (e : CacheEntry)
    (s : HttpServer) :
  map_find page (responseCache s) = Some e -> isExpired now e = false ->
  let s' := snd (checkResponseCache now page cr s) in
  (exists e', map_find page (responseCache s') = Some e' /\
              accessCount e' = accessCount e + 1 /\ lastAccess e' = now /\
              content e' = content e /\
              forall t, isExpired t e' = isExpired t e) /\
  (forall k, k <> page -> map_find k (responseCache s') = map_find k (responseCache s)) /\
  cacheExpiryMessages s' = cacheExpiryMessages s /\
  cache_size s' = cache_size s /\ currentCacheSize s' = currentCacheSize s.
Proof.
  intros F X s'. unfold s'. rewrite (checkResponseCache_hit now page cr s F X).
  unfold cache_size. cbn [snd set_cache responseCache cacheExpiryMessages currentCacheSize].
  split; [|split; [|split; [reflexivity|split; [|reflexivity]]]].
  - exists (updateAccess now e). rewrite map_find_alter_same, F. repeat split.
  - intros k N. apply map_find_alter_other. congruence.
  - now rewrite length_map_alter.
Qed.

Lemma lookup_hit_updates_access_witness :
  let s := cache_run [Insert 0 "a" (new_CacheEntry 0 (-1) "a" 5)] initialize in
  let s' := snd (checkResponseCache 4 "a" EmptyString s) in
  option_map lastAccess (map_find "a"%string (responseCache s')) = Some 4%Q /\
  fst (fst (checkResponseCache 5 "a" EmptyString s')) = false.
Proof.
  intros s s'.
  destruct (@lookup_hit_updates_access 4 "a"%string EmptyString
              (new_CacheEntry 0 (-1) "a" 5) s) as ((e' & F & _ & L & _ & X) & _).
  - reflexivity.
  - reflexivity.
  - fold s' in F. rewrite F. cbn [option_map]. rewrite L. split; [reflexivity|].
    unfold checkResponseCache. rewrite F, X. reflexivity.
Defined.

(** X9. An entry that has just been hit by a lookup, at a time later than
    the last access of every other stored entry, is not the one the next
    eviction removes, as soon as another entry is stored. *)
Theorem recently_used_survives_eviction (now : Q) (page cr : string) (e : CacheEntry)
    (other : string) (eo : CacheEntry) (s : HttpServer) :
  map_ok (responseCache s) ->
  map_find page (responseCache s) = Some e -> isExpired now e = false ->
  other <> page -> map_find other (responseCache s) = Some eo ->
  (forall k e', k <> page -> map_find k (responseCache s) = Some e' ->
                (lastAccess e' < now)%Q) ->
  let s' := snd (checkResponseCache now page cr s) in
  (forall v, lru_victim (responseCache s') = Some v -> fst v <> page) /\
  map_find page (responseCache (evictLeastRecentlyUsed s')) = Some (updateAccess now e) /\
  cache_size (evictLeastRecentlyUsed s') = cache_size s - 1.
Proof.
  intros O F X N Fo Old s'.
  assert (E : responseCache s' = map_alter (updateAccess now) page (responseCache s)).
  { unfold s'. now rewrite (checkResponseCache_hit now page cr s F X). }
  assert (O' : map_ok (responseCache s')) by (rewrite E; now apply map_ok_alter).
  assert (Fp : map_find page (responseCache s') = Some (updateAccess now e)).
  { now rewrite E, map_find_alter_same, F. }
  assert (Fo' : map_find other (responseCache s') = Some eo).
  { rewrite E, map_find_alter_other; [exact Fo|congruence]. }
  assert (V : forall v, lru_victim (responseCache s') = Some v -> fst v <> page).
  { intros v Ev Eq. destruct (lru_victim_least O' Ev) as (I & Least & _).
    destruct v as [kv ev]. cbn [fst] in Eq. subst kv.
    rewrite (In_map_find _ _ O' I) in Fp. injection Fp as ->.
    specialize (Least _ (map_find_In _ _ Fo')). cbn [snd updateAccess lastAccess] in Least.
    specialize (Old other eo N Fo). apply (Qlt_irrefl now).
    eapply Qle_lt_trans; eauto. }
  split; [exact V|].
  destruct (lru_victim (responseCache s')) as [v|] eqn:Ev.
  - rewrite (evictLeastRecentlyUsed_victim s' Ev). unfold cache_size.
    cbn [set_cache responseCache]. split.
    + rewrite map_find_erase_other; [exact Fp|]. apply (V v eq_refl).
    + destruct (lru_victim_least O' Ev) as (I & _).
      destruct (In_key_map_find (fst v) (responseCache s')) as [ev Fv];
        [now apply in_map|].
      apply length_map_erase_found in Fv. rewrite E in Fv |- *.
      rewrite length_map_alter in Fv. lia.
  - exfalso. destruct (responseCache s'); [discriminate Fp|discriminate Ev].
Qed.

Lemma recently_used_survives_eviction_witness :
  let s := cache_run [Insert 0 "a" (new_CacheEntry 0 (-1) "a" 3600);
                      Insert 1 "b" (new_CacheEntry 1 (-1) "b" 3600)] initialize in
  let s' := snd (checkResponseCache 2 "a" EmptyString s) in
  cache_keys (evictLeastRecentlyUsed s') = ["a"%string].
Proof.
  intros s s'.
  assert (O : map_ok (responseCache s)) by (repeat constructor).
  destruct (@recently_used_survives_eviction 2 "a"%string EmptyString
              (new_CacheEntry 0 (-1) "a" 3600) "b"%string
              (new_CacheEntry 1 (-1) "b" 3600) s O) as (_ & A & _).
  - reflexivity.
  - reflexivity.
  - discriminate.
  - reflexivity.
  - intros k e' N F. 
    destruct (String.eqb_spec k "b") as [->|Nb].
    + injection F as <-. reflexivity.
    + exfalso. cbn in F. 
      destruct (k ?= "a")%string eqn:Ca.
      * apply String.compare_eq_iff in Ca. congruence.
      * destruct (k ?= "b")%string eqn:Cb; try discriminate.
        apply String.compare_eq_iff in Cb. congruence.
      * destruct (k ?= "b")%string eqn:Cb; try discriminate.
        apply String.compare_eq_iff in Cb. congruence.
  - reflexivity.
Defined.

(** ** The server as a whole *)

Lemma page_consistent_ext k s s' :
  responseCache s' = responseCache s -> cacheExpiryMessages s' = cacheExpiryMessages s ->
  page_consistent k s -> page_consistent k s'.
Proof. unfold page_consistent. now intros -> ->. Qed.

Lemma page_consistent_erase k k0 s size :
  map_ok (responseCache s) -> map_ok (cacheExpiryMessages s) ->
  page_consistent k s ->
  page_consistent k
    (set_cache (map_erase k0 (responseCache s)) (map_erase k0 (cacheExpiryMessages s))
       size s).
Proof.
  intros O Om C. unfold page_consistent in *. cbn [set_cache responseCache cacheExpiryMessages].
  destruct (string_dec k0 k) as [->|N].
  - now rewrite !map_find_erase_same.
  - now rewrite !map_find_erase_other.
Qed.

Lemma handleCacheExpiry_eq pageName s :
  handleCacheExpiry pageName s =
  set_cache (map_erase pageName (responseCache s))
    (map_erase pageName (cacheExpiryMessages s))
    (match map_find pageName (responseCache s) with
     | Some _ => currentCacheSize s - 1
     | None => currentCacheSize s
     end) s.
Proof.
  unfold handleCacheExpiry.
  destruct (map_find pageName (responseCache s)) eqn:F; [reflexivity|].
  now rewrite (map_erase_not_found _ _ F).
Qed.

Lemma checkResponseCache_cache_inv cap now page cr s :
  cache_part_inv cap s ->
  cache_part_inv cap (snd (checkResponseCache now page cr s)) /\
  patternTable (snd (checkResponseCache now page cr s)) = patternTable s.
Proof.
  intros (O & Om & M & L1 & L2 & C).
  destruct (checkResponseCache_sizes now page cr s) as (M' & S1 & S2).
  unfold checkResponseCache in *.
  destruct (map_find page (responseCache s)) as [e|] eqn:F;
    [|split; [repeat split; auto|reflexivity]].
  destruct (isExpired now e) eqn:X; cbn [negb snd] in *.
  - split; [|reflexivity]. split; [now apply map_ok_erase|]. split; [now apply map_ok_erase|].
    split; [exact M|]. split; [lia|]. split; [lia|].
    intros k. now apply page_consistent_erase.
  - split; [|reflexivity]. split; [now apply map_ok_alter|]. split; [exact Om|].
    split; [exact M|]. split; [lia|]. split; [lia|].
    intros k. specialize (C k). unfold page_consistent in *.
    cbn [set_cache responseCache cacheExpiryMessages].
    destruct (string_dec page k) as [->|N].
    + rewrite map_find_alter_same, F in *. cbn [option_map]. exact C.
    + now rewrite map_find_alter_other.
Qed.

Lemma cleanupExpiredCache_consistent now s k :
  map_ok (responseCache s) -> map_ok (cacheExpiryMessages s) ->
  page_consistent k s -> page_consistent k (cleanupExpiredCache now s).
Proof.
  intros O Om C. destruct (cleanupExpiredCache_finds now s k O Om) as (_ & F1 & F2 & _).
  unfold page_consistent in *. rewrite F1, F2.
  destruct (map_find k (responseCache s)) as [e|]; [|exact C].
  destruct (isExpired now e); [reflexivity|exact C].
Qed.

Lemma cleanupExpiredCache_cache_inv cap now s :
  cache_part_inv cap s ->
  cache_part_inv cap (cleanupExpiredCache now s) /\
  patternTable (cleanupExpiredCache now s) = patternTable s.
Proof.
  intros (O & Om & M & L1 & L2 & C).
  destruct (cleanupExpiredCache_facts now s) as (M' & S1 & S2 & _).
  destruct (cleanupExpiredCache_finds now s EmptyString O Om) as (Om' & _ & _ & P & _).
  split; [|exact P]. split; [now apply cleanupExpiredCache_ok|]. split; [exact Om'|].
  split; [congruence|]. split; [lia|]. split; [lia|].
  intros k. now apply cleanupExpiredCache_consistent.
Qed.

Lemma handleCacheExpiry_cache_inv cap pageName s :
  cache_part_inv cap s ->
  cache_part_inv cap (handleCacheExpiry pageName s) /\
  patternTable (handleCacheExpiry pageName s) = patternTable s.
Proof.
  intros (O & Om & M & L1 & L2 & C).
  destruct (handleCacheExpiry_sizes pageName s) as (M' & S1 & S2).
  rewrite handleCacheExpiry_eq in *. split; [|reflexivity].
  split; [now apply map_ok_erase|]. split; [now apply map_ok_erase|].
  split; [exact M|]. split; [lia|]. split; [lia|].
  intros k. now apply page_consistent_erase.
Qed.

(** Making room for page [k0], which is not stored: afterwards at least one
    more entry fits. *)
Lemma make_room_room_inv cap now k0 s :
  1 <= cap -> room_inv cap k0 s ->
  room_inv cap k0 (make_room now s) /\ cache_size (make_room now s) <= cap - 1 /\
  patternTable (make_room now s) = patternTable s.
Proof.
  intros P (O & Om & M & L1 & L2 & A & C). unfold make_room.
  destruct (maxCacheSize s <=? currentCacheSize s) eqn:Full.
  2: { apply Z.leb_gt in Full. split; [repeat split; auto|]. split; [lia|reflexivity]. }
  destruct (cleanupExpiredCache_facts now s) as (M1 & S1 & D1 & _).
  destruct (cleanupExpiredCache_finds now s k0 O Om) as (Om1 & F1 & _ & P1 & _).
  pose proof (cleanupExpiredCache_ok now s O) as O1.
  assert (C1 : forall k, k <> k0 -> page_consistent k (cleanupExpiredCache now s)).
  { intros k N. apply cleanupExpiredCache_consistent; auto. }
  rewrite A in F1.
  set (s1 := cleanupExpiredCache now s) in *.
  destruct (maxCacheSize s1 <=? currentCacheSize s1) eqn:Full1.
  2: { apply Z.leb_gt in Full1. split; [repeat split; auto; try congruence; lia|].
       split; [lia|exact P1]. }
  destruct (evictLeastRecentlyUsed_facts s1) as (M2 & E & NE).
  destruct (lru_victim (responseCache s1)) as [v|] eqn:Ev.
  - assert (Ne : responseCache s1 <> []) by (destruct (responseCache s1); discriminate).
    destruct (NE Ne) as (N1 & N2).
    rewrite (evictLeastRecentlyUsed_victim s1 Ev) in *.
    cbn [set_cache responseCache cacheExpiryMessages maxCacheSize currentCacheSize patternTable]
      in *.
    split; [|split; [lia|exact P1]].
    unfold room_inv. rewrite N1.
    cbn [set_cache responseCache cacheExpiryMessages maxCacheSize currentCacheSize].
    split; [now apply map_ok_erase|]. split; [now apply map_ok_erase|].
    split; [congruence|]. split; [lia|]. split; [lia|]. split.
    + destruct (string_dec (fst v) k0) as [<-|N]; [now apply map_find_erase_same|].
      now rewrite map_find_erase_other.
    + intros k N. now apply page_consistent_erase, C1.
  - assert (Em : responseCache s1 = []) by (destruct (responseCache s1); [reflexivity|discriminate]).
    rewrite (E Em).
    assert (cache_size s1 = 0) by (unfold cache_size; now rewrite Em).
    split; [repeat split; auto; try congruence; lia|]. split; [lia|exact P1].
Qed.

Lemma precache_entry_pregenerated now k :
  pregenerated k (setTimestamp now (new_CacheEntry now (-1) (generatePageContent k) 5)) /\
  timestamp (setTimestamp now (new_CacheEntry now (-1) (generatePageContent k) 5)) = now.
Proof. repeat split. Qed.

(** Adding the pre-generated entry of [k0] and scheduling its expiry, from a
    state in which [k0] is not stored. *)
Lemma precache_add_inv cap now k0 s :
  1 <= cap -> room_inv cap k0 s ->
  let entry := setTimestamp now (new_CacheEntry now (-1) (generatePageContent k0) 5) in
  let s' := scheduleCacheExpiry now k0 5 (snd (addToCacheWithManagement now k0 entry s)) in
  cache_part_inv cap s' /\ patternTable s' = patternTable s /\
  map_find k0 (responseCache s') = Some entry.
Proof.
  intros P R entry s'.
  destruct (make_room_room_inv now P R) as ((O & Om & M & L1 & L2 & A & C) & L3 & Pt).
  unfold s'. rewrite addToCacheWithManagement_eq. unfold scheduleCacheExpiry.
  set (s2 := make_room now s) in *. unfold cache_part_inv, cache_size in *.
  cbn [snd set_cache responseCache cacheExpiryMessages maxCacheSize currentCacheSize patternTable].
  split; [|split; [exact Pt|apply map_find_set_same]].
  split; [now apply map_ok_set|]. split; [now apply map_ok_set, map_ok_erase|].
  split; [exact M|].
  rewrite length_map_set_new by exact A. split; [lia|]. split; [lia|].
  intros k. unfold page_consistent.
  cbn [set_cache responseCache cacheExpiryMessages].
  destruct (string_dec k0 k) as [<-|N].
  - rewrite !map_find_set_same. split; [apply precache_entry_pregenerated|reflexivity].
  - rewrite !map_find_set_other by exact N. rewrite map_find_erase_other by exact N.
    apply (C k). congruence.
Qed.

Lemma cache_part_room cap k0 s :
  cache_part_inv cap s -> map_find k0 (responseCache s) = None -> room_inv cap k0 s.
Proof. intros (O & Om & M & L1 & L2 & C) A. repeat split; auto. Qed.

Lemma precache_candidate_inv cap now k0 s :
  1 <= cap -> cache_part_inv cap s ->
  cache_part_inv cap (precache_candidate now k0 s) /\
  patternTable (precache_candidate now k0 s) = patternTable s.
Proof.
  intros P I. unfold precache_candidate.
  destruct (map_find k0 (responseCache s)) as [e|] eqn:F.
  - destruct (isExpired now e) eqn:X; cbn [negb]; [|split; [exact I|reflexivity]].
    set (s1 := set_cache (map_erase k0 (responseCache s)) (cacheExpiryMessages s)
                 (currentCacheSize s) s).
    assert (R : room_inv cap k0 s1).
    { destruct I as (O & Om & M & L1 & L2 & C). unfold s1, room_inv, cache_size in *.
      pose proof (length_map_erase_found _ _ F) as Len.
      cbn [set_cache responseCache currentCacheSize cacheExpiryMessages maxCacheSize].
      split; [now apply map_ok_erase|]. split; [exact Om|]. split; [exact M|].
      split; [lia|]. split; [lia|]. split; [now apply map_find_erase_same|].
      intros k N. specialize (C k). unfold page_consistent in *.
      cbn [set_cache responseCache cacheExpiryMessages].
      rewrite map_find_erase_other by congruence. exact C. }
    destruct (precache_add_inv now P R) as (A & B & _).
    rewrite (surjective_pairing (addToCacheWithManagement now k0 _ s1)).
    rewrite addToCacheWithManagement_eq at 1. cbn [fst].
    split; [exact A|exact B].
  - destruct (precache_add_inv now P (@cache_part_room cap k0 s I F)) as (A & B & _).
    rewrite (surjective_pairing (addToCacheWithManagement now k0 _ s)).
    rewrite addToCacheWithManagement_eq at 1. cbn [fst].
    split; [exact A|exact B].
Qed.

Lemma precache_fold_inv cap thr now currentPage l s :
  1 <= cap -> cache_part_inv cap s ->
  cache_part_inv cap (fold_left (precache_step thr now currentPage) l s) /\
  patternTable (fold_left (precache_step thr now currentPage) l s) = patternTable s.
Proof.
  intros P. revert s.
  induction l as [|pattern l IH]; intros s I; [split; [exact I|reflexivity]|].
  cbn [fold_left].
  assert (S : cache_part_inv cap (precache_step thr now currentPage s pattern) /\
              patternTable (precache_step thr now currentPage s pattern) = patternTable s).
  { unfold precache_step.
    destruct (String.eqb (fst (fst pattern)) currentPage); [|split; [exact I|reflexivity]].
    destruct (Qltb thr _); [|split; [exact I|reflexivity]].
    now apply precache_candidate_inv. }
  destruct S as [S Pt]. destruct (IH _ S) as [A B]. split; [exact A|congruence].
Qed.

Lemma predictivePreCache_inv cap thr now currentPage s :
  1 <= cap -> cache_part_inv cap s ->
  cache_part_inv cap (predictivePreCache thr now currentPage s) /\
  patternTable (predictivePreCache thr now currentPage s) = patternTable s.
Proof. intros P I. now apply precache_fold_inv. Qed.

Lemma updatePatternTable_cache clientId fromPage toPage s :
  responseCache (updatePatternTable clientId fromPage toPage s) = responseCache s /\
  cacheExpiryMessages (updatePatternTable clientId fromPage toPage s) = cacheExpiryMessages s /\
  maxCacheSize (updatePatternTable clientId fromPage toPage s) = maxCacheSize s /\
  currentCacheSize (updatePatternTable clientId fromPage toPage s) = currentCacheSize s.
Proof.
  unfold updatePatternTable.
  destruct (String.eqb fromPage EmptyString || String.eqb toPage EmptyString
            || String.eqb fromPage toPage); repeat split.
Qed.

Lemma updatePatternTable_cache_inv cap clientId fromPage toPage s :
  cache_part_inv cap s -> cache_part_inv cap (updatePatternTable clientId fromPage toPage s).
Proof.
  intros (O & Om & M & L1 & L2 & C).
  destruct (updatePatternTable_cache clientId fromPage toPage s) as (A & B & D & E).
  unfold cache_part_inv, cache_size. rewrite A, B, D, E.
  repeat split; auto. intros k. apply (@page_consistent_ext k s _ A B (C k)).
Qed.

Lemma updatePatternTable_pattern_inv clientId fromPage toPage s :
  pattern_inv s -> pattern_inv (updatePatternTable clientId fromPage toPage s).
Proof.
  intros (O & F). unfold updatePatternTable.
  destruct (String.eqb_spec fromPage EmptyString) as [|N1]; [now split|].
  destruct (String.eqb_spec toPage EmptyString) as [|N2]; [now split|].
  destruct (String.eqb_spec fromPage toPage) as [|N3]; [now split|].
  cbn [orb]. split; cbn [patternTable]; [now apply map_ok_set|].
  rewrite Forall_forall in *. intros e I. apply In_map_set in I.
  destruct I as [->|I]; [|now apply F].
  repeat split; auto. cbn [snd]. unfold map_get0.
  destruct (map_find (fromPage, toPage) (patternTable s)) as [c|] eqn:Fd; [|lia].
  apply map_find_In in Fd. destruct (F _ Fd) as (_ & _ & _ & C). cbn [snd] in C. lia.
Qed.

Lemma learn_and_precache_inv cap thr now clientId resourceId fromPage s :
  1 <= cap -> server_inv cap s ->
  server_inv cap (learn_and_precache thr now clientId resourceId fromPage s).
Proof.
  intros P (I & Pt). unfold learn_and_precache.
  set (s1 := if 0 <=? fromPage
             then updatePatternTable clientId (getPageName fromPage) (getPageName resourceId) s
             else s).
  assert (I1 : cache_part_inv cap s1 /\ pattern_inv s1).
  { unfold s1. destruct (0 <=? fromPage); [|now split].
    split; [now apply updatePatternTable_cache_inv|now apply updatePatternTable_pattern_inv]. }
  destruct I1 as [I1 Pt1].
  destruct (predictivePreCache_inv thr now (getPageName resourceId) P I1) as [A B].
  split; [exact A|]. unfold pattern_inv. now rewrite B.
Qed.

Lemma handleMessage_inv cap thr s ev :
  1 <= cap -> server_inv cap s -> server_inv cap (handleMessage thr s ev).
Proof.
  intros P I.
  destruct ev as [now rid|now reqid cid rid fp c|now|pageName|now reqid cid rid fp];
    cbn [handleMessage].
  - unfold handleHttpRequest.
    destruct I as (I & Pt).
    destruct (checkResponseCache_cache_inv now (getPageName rid) EmptyString I) as [A B].
    destruct (checkResponseCache now (getPageName rid) EmptyString s) as [[hit c] s'].
    cbn [snd] in *. destruct hit; cbn [snd]; (split; [exact A|unfold pattern_inv; now rewrite B]).
  - now apply learn_and_precache_inv.
  - destruct I as (I & Pt). destruct (cleanupExpiredCache_cache_inv now I) as [A B].
    split; [exact A|unfold pattern_inv; now rewrite B].
  - destruct I as (I & Pt). destruct (handleCacheExpiry_cache_inv pageName I) as [A B].
    split; [exact A|unfold pattern_inv; now rewrite B].
  - unfold processDelayedRequest. destruct (getPageInfo rid); cbn [snd]; [|exact I].
    now apply learn_and_precache_inv.
Qed.

Lemma server_run_inv cap thr events s :
  1 <= cap -> server_inv cap s -> server_inv cap (server_run thr events s).
Proof.
  intros P. revert s. induction events as [|ev events IH]; intros s I; [exact I|].
  cbn [server_run fold_left]. apply IH. now apply handleMessage_inv.
Qed.

Lemma initialize_server_inv : server_inv 20 initialize.
Proof.
  split; [|split; constructor].
  unfold cache_part_inv, cache_size. cbn. repeat split; try constructor; try lia.
Qed.

Lemma server_reachable_inv thr events : server_inv 20 (server_run thr events initialize).
Proof. apply server_run_inv; [lia|exact initialize_server_inv]. Qed.

(** X10. Whatever requests, responses, clean-ups and expiry timers the
    server handles after [initialize], with learning and pre-caching at any
    threshold, the cache never stores more than the 20 pages of
    [maxCacheSize], the capacity is never changed, and the size counter is
    never below the number of stored pages. *)
Theorem server_cache_within_capacity (thr : Q) (events : list server_event) :
  let s := server_run thr events initialize in
  maxCacheSize s = 20 /\ cache_size s <= 20 /\ cache_size s <= currentCacheSize s.
Proof.
  intros s. destruct (server_reachable_inv thr events) as ((_ & _ & M & C & B & _) & _).
  fold s in M, C, B. auto.
Qed.

(** X11. In every state the server reaches, a stored page [k] holds the
    content generated for the name [k], five seconds to live and the
    resource identifier -1, so that [isValid] never holds of a stored entry;
    it expires exactly five seconds after its time stamp, which is when its
    pending expiry message is due; and a page that is not stored has no
    pending expiry message. *)
Theorem server_cache_entries_pregenerated (thr : Q) (events : list server_event)
    (k : string) :
  let s := server_run thr events initialize in
  (forall e, map_find k (responseCache s) = Some e ->
     content e = generatePageContent k /\ ttl e = 5 /\ resourceId e = -1 /\
     (forall t, isValid t e = false) /\
     (forall t, isExpired t e = true <-> (timestamp e + 5 <= t)%Q) /\
     map_find k (cacheExpiryMessages s) = Some (timestamp e + 5)%Q) /\
  (map_find k (responseCache s) = None -> map_find k (cacheExpiryMessages s) = None).
Proof.
  intros s. destruct (server_reachable_inv thr events) as ((_ & _ & _ & _ & _ & C) & _).
  specialize (C k). fold s in C. unfold page_consistent in C. split.
  - intros e F. rewrite F in C. destruct C as ((A1 & A2 & A3) & B).
    repeat split; auto.
    + intros t. unfold isValid. now rewrite A3.
    + intros X. apply isExpired_true_iff in X. rewrite A2 in X. apply X.
    + intros X. apply isExpired_true_iff. rewrite A2. split; [lia|exact X].
  - intros F. now rewrite F in C.
Qed.

Lemma webPages_keys : map fst webPages = [0; 1; 2; 3; 4; 5].
Proof. reflexivity. Qed.

Lemma getPageInfo_known pageId p : getPageInfo pageId = Some p -> 0 <= pageId <= 5.
Proof.
  intros F. apply map_find_key_In in F. rewrite webPages_keys in F. cbn in F. lia.
Qed.

Lemma getPageInfo_unknown pageId : pageId < 0 \/ 5 < pageId -> getPageInfo pageId = None.
Proof.
  intros R. destruct (getPageInfo pageId) as [p|] eqn:F; [|reflexivity].
  apply getPageInfo_known in F. lia.
Qed.

Lemma known_page_cases pageId :
  0 <= pageId <= 5 ->
  pageId = 0 \/ pageId = 1 \/ pageId = 2 \/ pageId = 3 \/ pageId = 4 \/ pageId = 5.
Proof. lia. Qed.

Lemma handleHttpRequest_hit now rid s c s' :
  handleHttpRequest now rid s = (Some c, s') ->
  exists e, map_find (getPageName rid) (responseCache s) = Some e /\
            isExpired now e = false /\ c = content e.
Proof.
  unfold handleHttpRequest, checkResponseCache.
  destruct (map_find (getPageName rid) (responseCache s)) as [e|] eqn:F; [|discriminate].
  destruct (isExpired now e) eqn:X; cbn [negb]; [discriminate|].
  intros [= <- _]. now exists e.
Qed.

(** X12. A request that hits the cache is answered with the page generated
    for the lower-case name [getPageName] gives, in every state the server
    reaches; for each of the six pages this is not the content
    [processDelayedRequest] serves for the same request on a miss, which
    [initializeWebPages] generated for the capitalised name. *)
Theorem cache_hit_serves_generated_page (thr : Q) (events : list server_event)
    (now : Q) (rid : Z) (c : string) (s' : HttpServer) :
  handleHttpRequest now rid (server_run thr events initialize) = (Some c, s') ->
  c = generatePageContent (getPageName rid) /\
  (forall thr' requestId clientId fromPage s0,
     getPageInfo rid <> None ->
     resp_content (fst (processDelayedRequest thr' now requestId clientId rid fromPage s0))
     <> c).
Proof.
  intros Hit. apply handleHttpRequest_hit in Hit. destruct Hit as (e & F & _ & ->).
  destruct (server_reachable_inv thr events) as ((_ & _ & _ & _ & _ & C) & _).
  specialize (C (getPageName rid)). unfold page_consistent in C. rewrite F in C.
  destruct C as ((A & _) & _). split; [exact A|].
  intros thr' requestId clientId fromPage s0 Known. rewrite A.
  unfold processDelayedRequest.
  destruct (getPageInfo rid) as [p|] eqn:G; [|congruence]. cbn [fst resp_content].
  pose proof (getPageInfo_known _ G) as R. apply known_page_cases in R.
  apply String.eqb_neq.
  destruct R as [-> | [-> | [-> | [-> | [-> | ->]]]]]; vm_compute in G; injection G as <-;
    vm_compute; reflexivity.
Qed.

Lemma cache_hit_serves_generated_page_witness :
  let events := [EvDelayedProcessing 0 1 7 1 0; EvDelayedProcessing 1 2 7 0 (-1)] in
  fst (handleHttpRequest 2 1 (server_run initial_predictionThreshold events initialize))
  = Some (generatePageContent (getPageName 1)).
Proof.
  intros events.
  destruct (handleHttpRequest 2 1 (server_run initial_predictionThreshold events initialize))
    as [[c|] s'] eqn:E.
  - cbn [fst]. f_equal.
    exact (proj1 (@cache_hit_serves_generated_page initial_predictionThreshold events
                    2 1 c s' E)).
  - vm_compute in E. discriminate.
Defined.

(** X13. [processDelayedRequest] answers a request for one of the pages 0..5
    with the content and the time to live [initializeWebPages] stored for
    it, marked cacheable; the page found has the identifier asked for, the
    name [getPageName] gives it and a size equal to the length of its
    content.  A request for any other identifier is answered with the 404
    text, a time to live of 300 and not cacheable, and leaves the learned
    transitions and the cache as they were, whatever page it came from. *)
Theorem processDelayedRequest_known_and_unknown (thr now : Q)
    (requestId clientId rid fromPage : Z) (s : HttpServer) :
  let r := fst (processDelayedRequest thr now requestId clientId rid fromPage s) in
  let s' := snd (processDelayedRequest thr now requestId clientId rid fromPage s) in
  (0 <= rid <= 5 ->
   exists p, getPageInfo rid = Some p /\ pi_pageId p = rid /\
             pi_pageName p = getPageName rid /\
             pi_contentSize p = Z.of_nat (String.length (pi_content p)) /\
             resp_content r = pi_content p /\ resp_ttl r = pi_ttl p /\
             resp_cacheable r = true /\
             s' = learn_and_precache thr now clientId rid fromPage s) /\
  (rid < 0 \/ 5 < rid ->
   getPageName rid = "unknown"%string /\
   resp_content r = "ERROR 404: Page not found"%string /\ resp_ttl r = 300 /\
   resp_cacheable r = false /\ s' = s).
Proof.
  intros r s'. unfold r, s', processDelayedRequest. split.
  - intros R. apply known_page_cases in R.
    destruct R as [-> | [-> | [-> | [-> | [-> | ->]]]]];
      (eexists; split; [reflexivity|]; repeat split; reflexivity).
  - intros R. rewrite (getPageInfo_unknown R). cbn [fst snd resp_content resp_ttl resp_cacheable].
    repeat split. unfold getPageName, HOME, LOGIN, DASHBOARD, PROFILE, SETTINGS, LOGOUT.
    destruct (Z.eqb_spec rid 0); [lia|]. destruct (Z.eqb_spec rid 1); [lia|].
    destruct (Z.eqb_spec rid 2); [lia|]. destruct (Z.eqb_spec rid 3); [lia|].
    destruct (Z.eqb_spec rid 4); [lia|]. destruct (Z.eqb_spec rid 5); [lia|]. reflexivity.
Qed.

Lemma processDelayedRequest_known_and_unknown_witness :
  resp_cacheable (fst (processDelayedRequest initial_predictionThreshold 0 1 7 9 0 initialize))
  = false /\
  snd (processDelayedRequest initial_predictionThreshold 0 1 7 9 0 initialize) = initialize.
Proof.
  destruct (processDelayedRequest_known_and_unknown initial_predictionThreshold 0 1 7 9 0
              initialize) as [_ U].
  destruct U as (_ & _ & _ & A & B); [lia|]. split; [exact A|exact B].
Defined.

(** ** Learned transitions and their probabilities *)

Lemma fold_pattern_total fromPage (m : list ((string * string) * Z)) a :
  fold_left
    (fun total entry =>
       if String.eqb (fst (fst entry)) fromPage then total + snd entry else total) m a
  = a + pattern_total_from fromPage m.
Proof.
  revert a. induction m as [|e m IH]; intros a; cbn [fold_left pattern_total_from]; [lia|].
  rewrite IH. destruct (String.eqb (fst (fst e)) fromPage); lia.
Qed.

Lemma pattern_total_nonneg fromPage m :
  Forall pattern_entry_ok m -> 0 <= pattern_total_from fromPage m.
Proof.
  induction 1 as [|e m (_ & _ & _ & C) F IH]; cbn [pattern_total_from]; [lia|].
  destruct (String.eqb (fst (fst e)) fromPage); lia.
Qed.

Lemma pattern_total_In fromPage t c m :
  Forall pattern_entry_ok m -> In ((fromPage, t), c) m ->
  c <= pattern_total_from fromPage m.
Proof.
  induction 1 as [|e m (_ & _ & _ & C) F IH]; cbn [pattern_total_from In]; [tauto|].
  intros [->|I].
  - cbn [fst snd]. rewrite String.eqb_refl. pose proof (@pattern_total_nonneg fromPage _ F). lia.
  - specialize (IH I). destruct (String.eqb (fst (fst e)) fromPage); lia.
Qed.

Lemma pattern_total_In2 fromPage t1 t2 c1 c2 m :
  Forall pattern_entry_ok m -> t1 <> t2 ->
  In ((fromPage, t1), c1) m -> In ((fromPage, t2), c2) m ->
  c1 + c2 <= pattern_total_from fromPage m.
Proof.
  intros F N. induction F as [|e m (_ & _ & _ & C) F IH]; cbn [pattern_total_from In]; [tauto|].
  intros [->|I1] [E2|I2].
  - congruence.
  - cbn [fst snd]. rewrite String.eqb_refl. pose proof (@pattern_total_In fromPage _ _ _ F I2). lia.
  - subst e. cbn [fst snd]. rewrite String.eqb_refl.
    pose proof (@pattern_total_In fromPage _ _ _ F I1). lia.
  - specialize (IH I1 I2). destruct (String.eqb (fst (fst e)) fromPage); lia.
Qed.

Lemma calculateTransitionProbability_absent fromPage toPage s :
  map_find (fromPage, toPage) (patternTable s) = None ->
  calculateTransitionProbability fromPage toPage s = 0%Q.
Proof.
  intros F. unfold calculateTransitionProbability. rewrite F.
  now destruct (String.eqb fromPage EmptyString || String.eqb toPage EmptyString).
Qed.

Lemma calculateTransitionProbability_stored fromPage toPage c s :
  pattern_inv s -> map_find (fromPage, toPage) (patternTable s) = Some c ->
  1 <= c <= pattern_total_from fromPage (patternTable s) /\
  calculateTransitionProbability fromPage toPage s =
  (inject_Z c / inject_Z (pattern_total_from fromPage (patternTable s)))%Q.
Proof.
  intros (O & F) Fd. pose proof (map_find_In _ _ Fd) as I.
  pose proof (@pattern_total_In fromPage _ _ _ F I) as L.
  rewrite Forall_forall in F. destruct (F _ I) as (N1 & N2 & _ & C). cbn [fst snd] in *.
  split; [lia|]. unfold calculateTransitionProbability. rewrite Fd.
  apply String.eqb_neq in N1, N2. rewrite N1, N2. cbn [orb].
  rewrite fold_pattern_total. cbn [Z.add].
  destruct (Z.eqb_spec (pattern_total_from fromPage (patternTable s)) 0); [lia|reflexivity].
Qed.

Lemma Qdiv_Z_range c total :
  1 <= c <= total -> (0 < inject_Z c / inject_Z total)%Q /\ (inject_Z c / inject_Z total <= 1)%Q.
Proof.
  intros R. assert (T : (0 < inject_Z total)%Q) by (unfold Qlt; cbn; lia).
  split.
  - apply Qlt_shift_div_l; [exact T|]. unfold Qlt; cbn; lia.
  - apply Qle_shift_div_r; [exact T|]. unfold Qle. cbn [Qnum Qden inject_Z Qmult]. lia.
Qed.

Lemma Qdiv_Z_above_half thr c total :
  0 < total -> (1 # 2 <= thr)%Q -> (thr < inject_Z c / inject_Z total)%Q -> total < 2 * c.
Proof.
  intros P H L. assert (T : (0 < inject_Z total)%Q) by (unfold Qlt; cbn; lia).
  assert (L2 : (1 # 2 < inject_Z c / inject_Z total)%Q) by (eapply Qle_lt_trans; eauto).
  assert (L3 : ((1 # 2) * inject_Z total < inject_Z c)%Q).
  { destruct (Qlt_le_dec ((1 # 2) * inject_Z total) (inject_Z c)) as [A|A]; [exact A|].
    exfalso. apply (Qlt_not_le _ _ L2). apply Qle_shift_div_r; [exact T|exact A]. }
  unfold Qlt in L3. cbn [Qnum Qden inject_Z Qmult] in L3. lia.
Qed.

(** X14. In every state the server reaches, the learned transitions join two
    different named pages and have been seen at least once; the probability
    [calculateTransitionProbability] gives lies between 0 and 1, and it is
    positive exactly for the transitions that have been learned. *)
Theorem server_transition_probability_range (thr : Q) (events : list server_event)
    (fromPage toPage : string) :
  let s := server_run thr events initialize in
  let p := calculateTransitionProbability fromPage toPage s in
  (0 <= p)%Q /\ (p <= 1)%Q /\
  ((0 < p)%Q <-> map_find (fromPage, toPage) (patternTable s) <> None) /\
  (forall c, map_find (fromPage, toPage) (patternTable s) = Some c ->
     1 <= c /\ fromPage <> toPage /\ fromPage <> EmptyString /\ toPage <> EmptyString).
Proof.
  intros s p. destruct (server_reachable_inv thr events) as (_ & Pt). fold s in Pt.
  destruct (map_find (fromPage, toPage) (patternTable s)) as [c|] eqn:Fd.
  - destruct (calculateTransitionProbability_stored _ _ Pt Fd) as (R & E).
    destruct (Qdiv_Z_range R) as [A B]. unfold p. rewrite E.
    split; [now apply Qlt_le_weak|]. split; [exact B|]. split; [split; [discriminate|auto]|].
    intros c' [= <-]. pose proof (map_find_In _ _ Fd) as I.
    destruct Pt as (_ & F). rewrite Forall_forall in F.
    destruct (F _ I) as (N1 & N2 & N3 & C). cbn [fst snd] in *. auto.
  - unfold p. rewrite (calculateTransitionProbability_absent _ _ _ Fd).
    split; [apply Qle_refl|]. split; [discriminate|]. split; [|discriminate].
    split; [intros L; discriminate L|congruence].
Qed.

Lemma probability_above_half_unique thr fromPage t1 t2 s :
  pattern_inv s -> (1 # 2 <= thr)%Q ->
  (thr < calculateTransitionProbability fromPage t1 s)%Q ->
  (thr < calculateTransitionProbability fromPage t2 s)%Q ->
  t1 = t2.
Proof.
  intros Pt H L1 L2.
  assert (P0 : (0 <= thr)%Q) by (eapply Qle_trans; [|exact H]; discriminate).
  destruct (map_find (fromPage, t1) (patternTable s)) as [c1|] eqn:F1.
  2:{ rewrite (calculateTransitionProbability_absent _ _ _ F1) in L1.
      exfalso. exact (Qlt_not_le _ _ L1 P0). }
  destruct (map_find (fromPage, t2) (patternTable s)) as [c2|] eqn:F2.
  2:{ rewrite (calculateTransitionProbability_absent _ _ _ F2) in L2.
      exfalso. exact (Qlt_not_le _ _ L2 P0). }
  destruct (calculateTransitionProbability_stored _ _ Pt F1) as (R1 & E1).
  destruct (calculateTransitionProbability_stored _ _ Pt F2) as (R2 & E2).
  rewrite E1 in L1. rewrite E2 in L2.
  apply Qdiv_Z_above_half in L1; [|lia|exact H].
  apply Qdiv_Z_above_half in L2; [|lia|exact H].
  destruct (string_dec t1 t2) as [|N]; [assumption|exfalso].
  destruct Pt as (_ & F).
  pose proof (@pattern_total_In2 fromPage t1 t2 c1 c2 _ F N (map_find_In _ _ F1)
                (map_find_In _ _ F2)). lia.
Qed.

Lemma probability_positive_stored thr fromPage toPage s :
  (0 <= thr)%Q -> (thr < calculateTransitionProbability fromPage toPage s)%Q ->
  exists c, map_find (fromPage, toPage) (patternTable s) = Some c.
Proof.
  intros P0 L. destruct (map_find (fromPage, toPage) (patternTable s)) as [c|] eqn:F.
  - now exists c.
  - rewrite (calculateTransitionProbability_absent _ _ _ F) in L.
    exfalso. exact (Qlt_not_le _ _ L P0).
Qed.

(** X15. With a prediction threshold of at least one half, as the 0.6 of
    [initialize], at most one page following a given page has a transition
    probability above the threshold, in every state the server reaches. *)
Theorem at_most_one_page_above_threshold (thr : Q) (events : list server_event)
    (fromPage t1 t2 : string) :
  (1 # 2 <= thr)%Q ->
  (thr < calculateTransitionProbability fromPage t1
           (server_run thr events initialize))%Q ->
  (thr < calculateTransitionProbability fromPage t2
           (server_run thr events initialize))%Q ->
  t1 = t2.
Proof.
  intros H L1 L2. destruct (server_reachable_inv thr events) as (_ & Pt).
  exact (probability_above_half_unique _ _ _ Pt H L1 L2).
Qed.

Lemma at_most_one_page_above_threshold_witness :
  let events := [EvDelayedProcessing 0 1 7 1 0; EvDelayedProcessing 1 2 7 0 (-1)] in
  let s := server_run initial_predictionThreshold events initialize in
  (initial_predictionThreshold < calculateTransitionProbability "home" "login" s)%Q /\
  "login"%string = "login"%string.
Proof.
  intros events s.
  assert (L : (initial_predictionThreshold < calculateTransitionProbability "home" "login" s)%Q)
    by (vm_compute; reflexivity).
  split; [exact L|].
  apply (@at_most_one_page_above_threshold initial_predictionThreshold events
           "home" "login" "login"); [vm_compute; discriminate|exact L|exact L].
Defined.

(** ** What pre-caching stores *)

Lemma calculateTransitionProbability_ext fromPage toPage s s' :
  patternTable s' = patternTable s ->
  calculateTransitionProbability fromPage toPage s' =
  calculateTransitionProbability fromPage toPage s.
Proof. intros E. unfold calculateTransitionProbability. now rewrite E. Qed.

Lemma make_room_finds now s k e :
  map_ok (responseCache s) -> map_ok (cacheExpiryMessages s) ->
  map_find k (responseCache (make_room now s)) = Some e ->
  map_find k (responseCache s) = Some e.
Proof.
  intros O Om. unfold make_room.
  destruct (maxCacheSize s <=? currentCacheSize s); [|auto].
  assert (C : map_find k (responseCache (cleanupExpiredCache now s)) = Some e ->
              map_find k (responseCache s) = Some e).
  { destruct (@cleanupExpiredCache_finds now s k O Om) as (_ & A & _). rewrite A.
    destruct (map_find k (responseCache s)) as [e0|]; [|discriminate].
    destruct (isExpired now e0); [discriminate|auto]. }
  pose proof (@cleanupExpiredCache_ok now s O) as O1.
  set (s1 := cleanupExpiredCache now s) in *.
  destruct (maxCacheSize s1 <=? currentCacheSize s1); [|exact C].
  unfold evictLeastRecentlyUsed.
  destruct (responseCache s1) as [|first rest] eqn:E; [rewrite E; exact C|].
  cbn [set_cache responseCache]. intros F. apply C.
  set (v := lru_scan first (lastAccess (snd first)) (first :: rest)) in *.
  destruct (string_dec (fst v) k) as [<-|N].
  - rewrite map_find_erase_same in F by exact O1. discriminate.
  - now rewrite map_find_erase_other in F by exact N.
Qed.

Lemma precache_candidate_finds now toPage s k e :
  map_ok (responseCache s) -> map_ok (cacheExpiryMessages s) ->
  map_find k (responseCache (precache_candidate now toPage s)) = Some e ->
  map_find k (responseCache s) = Some e \/
  (k = toPage /\
   e = setTimestamp now (new_CacheEntry now (-1) (generatePageContent toPage) 5)).
Proof.
  intros O Om. unfold precache_candidate.
  assert (G : forall s1,
             map_ok (responseCache s1) -> map_ok (cacheExpiryMessages s1) ->
             (forall e', map_find k (responseCache s1) = Some e' ->
                         map_find k (responseCache s) = Some e') ->
             map_find k
               (responseCache
                  (scheduleCacheExpiry now toPage 5
                     (snd (addToCacheWithManagement now toPage
                             (setTimestamp now
                                (new_CacheEntry now (-1) (generatePageContent toPage) 5))
                             s1)))) = Some e ->
             map_find k (responseCache s) = Some e \/
             (k = toPage /\
              e = setTimestamp now
                    (new_CacheEntry now (-1) (generatePageContent toPage) 5))).
  { intros s1 O1 Om1 Sub. rewrite addToCacheWithManagement_eq.
    unfold scheduleCacheExpiry. cbn [snd set_cache responseCache].
    destruct (string_dec toPage k) as [<-|N].
    - rewrite map_find_set_same. intros [= <-]. now right.
    - rewrite map_find_set_other by exact N. intros F. left. apply Sub.
      now apply make_room_finds in F. }
  destruct (map_find toPage (responseCache s)) as [e0|] eqn:F0.
  - destruct (isExpired now e0); cbn [negb]; [|now left].
    cbn [fst snd]. apply G; cbn [set_cache responseCache cacheExpiryMessages].
    + now apply map_ok_erase.
    + exact Om.
    + intros e' F. destruct (string_dec toPage k) as [<-|N].
      * rewrite map_find_erase_same in F by exact O. discriminate.
      * now rewrite map_find_erase_other in F by exact N.
  - apply G; auto.
Qed.

Lemma precache_candidate_fresh_noop now k s e :
  map_find k (responseCache s) = Some e -> isExpired now e = false ->
  precache_candidate now k s = s.
Proof. intros F X. unfold precache_candidate. now rewrite F, X. Qed.

Lemma precache_entry_fresh now k :
  isExpired now (setTimestamp now (new_CacheEntry now (-1) (generatePageContent k) 5)) = false.
Proof.
  apply isExpired_false_iff. right. cbn [timestamp ttl setTimestamp new_CacheEntry].
  change (inject_Z 5) with 5%Q. lra.
Qed.

Lemma precache_candidate_stores now k s :
  exists e, map_find k (responseCache (precache_candidate now k s)) = Some e /\
            isExpired now e = false.
Proof.
  unfold precache_candidate.
  assert (G : forall s1,
             exists e,
               map_find k
                 (responseCache
                    (scheduleCacheExpiry now k 5
                       (snd (addToCacheWithManagement now k
                               (setTimestamp now
                                  (new_CacheEntry now (-1) (generatePageContent k) 5))
                               s1)))) = Some e /\ isExpired now e = false).
  { intros s1. eexists. split; [|apply (precache_entry_fresh now k)].
    rewrite addToCacheWithManagement_eq. unfold scheduleCacheExpiry.
    cbn [snd set_cache responseCache]. apply map_find_set_same. }
  destruct (map_find k (responseCache s)) as [e0|] eqn:F0.
  - destruct (isExpired now e0) eqn:X; cbn [negb]; [apply G|]. now exists e0.
  - apply G.
Qed.

Lemma precache_step_cases thr now currentPage s pattern :
  precache_step thr now currentPage s pattern = s \/
  (fst (fst pattern) = currentPage /\
   (thr < calculateTransitionProbability currentPage (snd (fst pattern)) s)%Q /\
   precache_step thr now currentPage s pattern =
   precache_candidate now (snd (fst pattern)) s).
Proof.
  unfold precache_step.
  destruct (String.eqb_spec (fst (fst pattern)) currentPage) as [E|]; [|now left].
  rewrite E.
  destruct (Qltb thr (calculateTransitionProbability currentPage (snd (fst pattern)) s))
    eqn:L; [|now left].
  apply Qltb_true in L. now right.
Qed.

Lemma precache_step_inv cap thr now currentPage s pattern :
  1 <= cap -> cache_part_inv cap s ->
  cache_part_inv cap (precache_step thr now currentPage s pattern) /\
  patternTable (precache_step thr now currentPage s pattern) = patternTable s.
Proof.
  intros P I.
  destruct (precache_step_cases thr now currentPage s pattern) as [->|(_ & _ & ->)];
    [now split|now apply precache_candidate_inv].
Qed.

Lemma precache_fold_finds cap thr now currentPage l s k e :
  1 <= cap -> cache_part_inv cap s ->
  map_find k (responseCache (fold_left (precache_step thr now currentPage) l s)) = Some e ->
  map_find k (responseCache s) = Some e \/
  (e = setTimestamp now (new_CacheEntry now (-1) (generatePageContent k) 5) /\
   (thr < calculateTransitionProbability currentPage k s)%Q /\
   exists c, In ((currentPage, k), c) l).
Proof.
  intros P. revert s. induction l as [|pattern l IH]; intros s I; cbn [fold_left]; [auto|].
  destruct (precache_step_inv thr now currentPage pattern P I) as [I1 Pt1].
  intros F. destruct (IH _ I1 F) as [F1|(E & L & c & In1)].
  - destruct (precache_step_cases thr now currentPage s pattern) as [R|(A & B & R)];
      rewrite R in F1; [now left|].
    destruct I as (O & Om & _).
    destruct (@precache_candidate_finds now _ s k e O Om F1) as [F0|[-> ->]]; [now left|right].
    split; [reflexivity|]. split; [exact B|].
    destruct pattern as [[f t] c]. cbn [fst snd] in *. subst f. exists c. now left.
  - right. split; [exact E|]. rewrite (@calculateTransitionProbability_ext _ _ _ _ Pt1) in L.
    split; [exact L|]. exists c. now right.
Qed.

Lemma precache_fold_noop thr now currentPage l s :
  (forall t c, In ((currentPage, t), c) l ->
               (calculateTransitionProbability currentPage t s <= thr)%Q) ->
  fold_left (precache_step thr now currentPage) l s = s.
Proof.
  induction l as [|pattern l IH]; intros H; cbn [fold_left]; [reflexivity|].
  assert (R : precache_step thr now currentPage s pattern = s).
  { destruct (precache_step_cases thr now currentPage s pattern) as [R|(A & B & _)];
      [exact R|exfalso].
    destruct pattern as [[f t] c]. cbn [fst snd] in *. subst f.
    apply (Qlt_not_le _ _ B). apply (H t c). now left. }
  rewrite R. apply IH. intros t c I. apply (H t c). now right.
Qed.

Lemma precache_fold_fresh cap thr now currentPage k l s :
  1 <= cap -> cache_part_inv cap s ->
  (forall t, (thr < calculateTransitionProbability currentPage t s)%Q -> t = k) ->
  ((exists e, map_find k (responseCache s) = Some e /\ isExpired now e = false) ->
   fold_left (precache_step thr now currentPage) l s = s) /\
  ((thr < calculateTransitionProbability currentPage k s)%Q ->
   (exists c, In ((currentPage, k), c) l) ->
   exists e,
     map_find k (responseCache (fold_left (precache_step thr now currentPage) l s)) = Some e /\
     isExpired now e = false).
Proof.
  intros P. revert s. induction l as [|pattern l IH]; intros s I U; cbn [fold_left].
  - split; [reflexivity|]. intros _ (c & []).
  - destruct (precache_step_cases thr now currentPage s pattern) as [R|(A & B & R)]; rewrite R.
    + destruct (IH _ I U) as [IH1 IH2]. split; [exact IH1|].
      intros L (c & [E|In1]); [|apply IH2; eauto].
      subst pattern. unfold precache_step in R. cbn [fst snd] in R.
      rewrite String.eqb_refl in R. apply Qltb_true in L. rewrite L in R.
      destruct (precache_candidate_stores now k s) as (e & F & X). rewrite R in F.
      rewrite IH1; now exists e.
    + pose proof (U _ B) as T. rewrite T in *.
      destruct (precache_candidate_inv now k P I) as [I1 Pt1].
      assert (U1 : forall t,
                 (thr < calculateTransitionProbability currentPage t
                          (precache_candidate now k s))%Q -> t = k).
      { intros t L. apply U. now rewrite (@calculateTransitionProbability_ext _ _ _ _ Pt1) in L. }
      destruct (IH _ I1 U1) as [IH1 IH2].
      split.
      * intros (e & F & X). rewrite (precache_candidate_fresh_noop _ _ _ F X).
        destruct (IH _ I U) as [IH1' _]. apply IH1'. now exists e.
      * intros _ _. rewrite IH1; apply precache_candidate_stores.
Qed.

Lemma calculateTransitionProbability_le_1 fromPage toPage s :
  pattern_inv s -> (calculateTransitionProbability fromPage toPage s <= 1)%Q.
Proof.
  intros Pt. destruct (map_find (fromPage, toPage) (patternTable s)) as [c|] eqn:Fd.
  - destruct (calculateTransitionProbability_stored _ _ Pt Fd) as (R & E).
    rewrite E. apply (Qdiv_Z_range R).
  - rewrite (calculateTransitionProbability_absent _ _ _ Fd). discriminate.
Qed.

Lemma precache_fold_single cap thr now currentPage k l s :
  1 <= cap -> cache_part_inv cap s ->
  (forall t, (thr < calculateTransitionProbability currentPage t s)%Q -> t = k) ->
  (thr < calculateTransitionProbability currentPage k s)%Q ->
  (exists c, In ((currentPage, k), c) l) ->
  fold_left (precache_step thr now currentPage) l s = precache_candidate now k s.
Proof.
  intros P I U L. induction l as [|pattern l IH]; intros (c & In1); [destruct In1|].
  cbn [fold_left].
  destruct (precache_candidate_inv now k P I) as [I1 Pt1].
  assert (U1 : forall t,
             (thr < calculateTransitionProbability currentPage t
                      (precache_candidate now k s))%Q -> t = k).
  { intros t L1. apply U. now rewrite (@calculateTransitionProbability_ext _ _ _ _ Pt1) in L1. }
  assert (Settled : fold_left (precache_step thr now currentPage) l
                      (precache_candidate now k s) = precache_candidate now k s).
  { apply (proj1 (precache_fold_fresh now currentPage l P I1 U1)).
    apply precache_candidate_stores. }
  destruct (precache_step_cases thr now currentPage s pattern) as [R|(A & B & R)]; rewrite R.
  - destruct In1 as [E|In1]; [|apply IH; eauto].
    subst pattern. unfold precache_step in R. cbn [fst snd] in R.
    rewrite String.eqb_refl in R. pose proof (proj2 (Qltb_true _ _) L) as Lb.
    rewrite Lb in R. rewrite <- R at 1. exact Settled.
  - rewrite (U _ B). exact Settled.
Qed.

(** X16. With a threshold of at least one half, once [predictivePreCache]
    has run for the current page in a state the server reaches, the page
    that follows it with a probability above the threshold is stored, not
    expired, with the content generated for its name: a request for it at
    that time is a cache hit answered with that content. *)
Theorem likely_next_page_is_precached (thr : Q) (events : list server_event) (now : Q)
    (currentPage k : string) :
  (1 # 2 <= thr)%Q ->
  (thr < calculateTransitionProbability currentPage k
           (server_run thr events initialize))%Q ->
  let s' := predictivePreCache thr now currentPage (server_run thr events initialize) in
  (exists e, map_find k (responseCache s') = Some e /\ isExpired now e = false /\
             content e = generatePageContent k) /\
  (forall rid, getPageName rid = k ->
     fst (handleHttpRequest now rid s') = Some (generatePageContent k)).
Proof.
  intros H L. set (s := server_run thr events initialize) in *. intros s'.
  destruct (server_reachable_inv thr events) as (I & Pt). fold s in I, Pt.
  assert (P0 : (0 <= thr)%Q) by (eapply Qle_trans; [|exact H]; discriminate).
  assert (U : forall t, (thr < calculateTransitionProbability currentPage t s)%Q -> t = k).
  { intros t Lt. exact (probability_above_half_unique _ _ _ Pt H Lt L). }
  destruct (probability_positive_stored _ _ _ P0 L) as (c & Fd).
  assert (P : 1 <= 20) by lia.
  destruct (proj2 (precache_fold_fresh now currentPage (patternTable s) P I U) L)
    as (e & F & X).
  { exists c. now apply map_find_In. }
  fold (predictivePreCache thr now currentPage s) in F. fold s' in F.
  destruct (predictivePreCache_inv thr now currentPage P I) as [(_ & _ & _ & _ & _ & C) _].
  fold s' in C. specialize (C k). unfold page_consistent in C. rewrite F in C.
  destruct C as ((A & _) & _).
  split; [now exists e|].
  intros rid <-. unfold handleHttpRequest.
  rewrite (checkResponseCache_hit now (getPageName rid) EmptyString s' F X).
  cbn [fst]. now rewrite A.
Qed.

Lemma likely_next_page_is_precached_witness :
  let events := [EvDelayedProcessing 0 1 7 1 0] in
  let s := server_run initial_predictionThreshold events initialize in
  map_find "login"%string (responseCache s) = None /\
  fst (handleHttpRequest 3 1
         (predictivePreCache initial_predictionThreshold 3 "home" s))
  = Some (generatePageContent "login").
Proof.
  intros events s. split; [reflexivity|].
  apply (@likely_next_page_is_precached initial_predictionThreshold events 3
           "home" "login"); [vm_compute; discriminate|vm_compute; reflexivity|reflexivity].
Defined.

(** X17. [predictivePreCache] never learns and never changes a stored entry:
    in a state the server reaches, an entry stored after it was stored
    before, unchanged, or is the entry just built, at the current time, for
    a page that follows the current page with a probability above the
    threshold.  When no page follows the current page with such a
    probability the state is left as it was; this is so for every page when
    the threshold is 1 or more. *)
Theorem predictivePreCache_only_adds_likely_pages (thr : Q) (events : list server_event)
    (now : Q) (currentPage : string) :
  let s := server_run thr events initialize in
  let s' := predictivePreCache thr now currentPage s in
  patternTable s' = patternTable s /\
  (forall k e, map_find k (responseCache s') = Some e ->
     map_find k (responseCache s) = Some e \/
     ((thr < calculateTransitionProbability currentPage k s)%Q /\
      e = setTimestamp now (new_CacheEntry now (-1) (generatePageContent k) 5))) /\
  ((forall t, (calculateTransitionProbability currentPage t s <= thr)%Q) -> s' = s) /\
  ((1 <= thr)%Q -> s' = s).
Proof.
  intros s s'. destruct (server_reachable_inv thr events) as (I & Pt). fold s in I, Pt.
  assert (P : 1 <= 20) by lia.
  assert (N : (forall t, (calculateTransitionProbability currentPage t s <= thr)%Q) ->
              s' = s).
  { intros A. apply precache_fold_noop. intros t c _. apply A. }
  split; [apply (predictivePreCache_inv thr now currentPage P I)|].
  split; [|split; [exact N|]].
  - intros k e F.
    destruct (@precache_fold_finds 20 thr now currentPage (patternTable s) s k e P I F)
      as [A|(A & B & _)]; [now left|now right].
  - intros L. apply N. intros t. eapply Qle_trans; [|exact L].
    now apply calculateTransitionProbability_le_1.
Qed.

(** X18. When the page that is likely to follow the current one is stored
    but expired, [predictivePreCache] (threshold at least one half, size
    counter below the capacity) replaces its entry by a fresh one and leaves
    the other entries alone; the number of stored pages is what it was, but
    [currentCacheSize] has grown by one, as the expired entry is erased
    without being counted out. *)
Theorem precache_of_expired_page_inflates_counter (thr : Q) (events : list server_event)
    (now : Q) (currentPage k : string) (e0 : CacheEntry) :
  (1 # 2 <= thr)%Q ->
  let s := server_run thr events initialize in
  (thr < calculateTransitionProbability currentPage k s)%Q ->
  map_find k (responseCache s) = Some e0 -> isExpired now e0 = true ->
  currentCacheSize s < maxCacheSize s ->
  let s' := predictivePreCache thr now currentPage s in
  map_find k (responseCache s') =
    Some (setTimestamp now (new_CacheEntry now (-1) (generatePageContent k) 5)) /\
  (forall k', k' <> k -> map_find k' (responseCache s') = map_find k' (responseCache s)) /\
  cache_size s' = cache_size s /\
  currentCacheSize s' = currentCacheSize s + 1.
Proof.
  intros H s L F X Room s'.
  destruct (server_reachable_inv thr events) as (I & Pt). fold s in I, Pt.
  assert (P0 : (0 <= thr)%Q) by (eapply Qle_trans; [|exact H]; discriminate).
  assert (U : forall t, (thr < calculateTransitionProbability currentPage t s)%Q -> t = k).
  { intros t Lt. exact (probability_above_half_unique _ _ _ Pt H Lt L). }
  destruct (probability_positive_stored _ _ _ P0 L) as (c & Fd).
  assert (P : 1 <= 20) by lia.
  assert (E : s' = precache_candidate now k s).
  { apply (@precache_fold_single 20 thr now currentPage k (patternTable s) s P I U L).
    exists c. now apply map_find_In. }
  rewrite E. unfold precache_candidate. rewrite F, X. cbn [negb].
  rewrite addToCacheWithManagement_eq. unfold scheduleCacheExpiry, make_room.
  cbn [snd set_cache responseCache cacheExpiryMessages maxCacheSize currentCacheSize].
  destruct (Z.leb_spec (maxCacheSize s) (currentCacheSize s)) as [Full|_]; [lia|].
  unfold cache_size.
  cbn [snd set_cache responseCache cacheExpiryMessages maxCacheSize currentCacheSize].
  destruct I as (O & _).
  split; [apply map_find_set_same|]. split.
  - intros k' N. rewrite map_find_set_other by congruence.
    now rewrite map_find_erase_other by congruence.
  - split; [|reflexivity].
    rewrite length_map_set_new by (now apply map_find_erase_same).
    pose proof (length_map_erase_found _ _ F) as Len. lia.
Qed.

Lemma precache_of_expired_page_inflates_counter_witness :
  let events := [EvDelayedProcessing 0 1 7 1 0; EvDelayedProcessing 1 2 7 0 (-1)] in
  let s := server_run initial_predictionThreshold events initialize in
  let s' := predictivePreCache initial_predictionThreshold 6 "home" s in
  (cache_size s = 1 /\ currentCacheSize s = 1) /\
  (cache_size s' = 1 /\ currentCacheSize s' = 2).
Proof.
  intros events s s'. split; [split; reflexivity|].
  destruct (@precache_of_expired_page_inflates_counter initial_predictionThreshold events 6
              "home" "login"
              (setTimestamp 1 (new_CacheEntry 1 (-1) (generatePageContent "login") 5)))
    as (_ & _ & A & B).
  - vm_compute; discriminate.
  - vm_compute; reflexivity.
  - reflexivity.
  - reflexivity.
  - reflexivity.
  - fold s in A, B. fold s' in A, B. split; [rewrite A|rewrite B]; reflexivity.
Defined.

(** ** More on the pattern table *)

Lemma recordTransition_count a b f t pt :
  getTransitionCount (recordTransition a b pt) f t =
  getTransitionCount pt f t +
  (if enableLearning pt && isValidPage a && isValidPage b && ((a =? f) && (b =? t))
   then 1 else 0).
Proof.
  unfold recordTransition.
  destruct (enableLearning pt); cbn [negb orb andb]; [|lia].
  destruct (isValidPage a); cbn [negb orb andb]; [|lia].
  destruct (isValidPage b); cbn [negb orb andb]; [|lia].
  unfold getTransitionCount, map_get0. cbn [transitions].
  destruct (Z.eqb_spec a f) as [->|N1]; cbn [andb].
  - destruct (Z.eqb_spec b t) as [->|N2].
    + rewrite map_find_set_same. reflexivity.
    + rewrite map_find_set_other by congruence. lia.
  - rewrite map_find_set_other by congruence. lia.
Qed.

Lemma recordTransition_enableLearning a b pt :
  enableLearning (recordTransition a b pt) = enableLearning pt.
Proof.
  unfold recordTransition.
  now destruct (negb (enableLearning pt) || negb (isValidPage a) || negb (isValidPage b)).
Qed.

Lemma recordSequence_loop_count l : forall pt f t,
  getTransitionCount (recordSequence_loop l pt) f t =
  getTransitionCount pt f t +
  (if enableLearning pt && isValidPage f && isValidPage t then count_steps f t l else 0).
Proof.
  induction l as [|a l IH]; intros pt f t.
  - cbn. destruct (enableLearning pt && isValidPage f && isValidPage t); lia.
  - destruct l as [|b rest].
    + cbn. destruct (enableLearning pt && isValidPage f && isValidPage t); lia.
    + change (recordSequence_loop (a :: b :: rest) pt)
        with (recordSequence_loop (b :: rest) (recordTransition a b pt)).
      rewrite IH, recordTransition_count, recordTransition_enableLearning.
      change (count_steps f t (a :: b :: rest))
        with ((if (a =? f) && (b =? t) then 1 else 0) + count_steps f t (b :: rest)).
      destruct (Z.eqb_spec a f) as [->|N1]; cbn [andb].
      * destruct (Z.eqb_spec b t) as [->|N2]; cbn [andb].
        -- rewrite andb_true_r.
           destruct (enableLearning pt && isValidPage f && isValidPage t); lia.
        -- rewrite andb_false_r.
           destruct (enableLearning pt && isValidPage f && isValidPage t); lia.
      * rewrite andb_false_r.
        destruct (enableLearning pt && isValidPage f && isValidPage t); lia.
Qed.

Lemma recordSequence_loop_total l : forall pt,
  enableLearning pt = true -> Forall (fun p => isValidPage p = true) l ->
  totalTransitions (recordSequence_loop l pt) =
  totalTransitions pt + Z.of_nat (pred (length l)).
Proof.
  induction l as [|a l IH]; intros pt E V; [cbn; lia|].
  destruct l as [|b rest]; [cbn; lia|].
  change (recordSequence_loop (a :: b :: rest) pt)
    with (recordSequence_loop (b :: rest) (recordTransition a b pt)).
  inversion V as [|? ? Va V']; subst. pose proof V' as V''.
  inversion V'' as [|? ? Vb _]; subst.
  rewrite IH; [|now rewrite recordTransition_enableLearning|exact V'].
  unfold recordTransition. rewrite E, Va, Vb. cbn [negb orb totalTransitions length pred].
  lia.
Qed.

(** X19. [recordSequence] adds to the count of the transition from [f] to
    [t] the number of times the step from [f] to [t] occurs in the
    sequence, when learning is enabled and both pages are valid, and
    nothing otherwise.  For a sequence of valid pages the running total
    grows by the number of steps, one less than the number of pages; a
    sequence of fewer than two pages changes nothing. *)
Theorem recordSequence_counts (pageSequence : list Z) (pt : PatternTable) (f t : Z) :
  let pt' := recordSequence pageSequence pt in
  getTransitionCount pt' f t =
    getTransitionCount pt f t +
    (if enableLearning pt && isValidPage f && isValidPage t
     then count_steps f t pageSequence else 0) /\
  (enableLearning pt = true -> Forall (fun p => isValidPage p = true) pageSequence ->
   totalTransitions pt' = totalTransitions pt + Z.of_nat (pred (length pageSequence))) /\
  ((length pageSequence < 2)%nat -> pt' = pt).
Proof.
  intros pt'. unfold pt', recordSequence. split; [|split].
  - destruct (enableLearning pt) eqn:E; cbn [negb orb andb]; [|lia].
    destruct (Nat.ltb_spec (length pageSequence) 2) as [L|L].
    + destruct pageSequence as [|a [|b rest]]; cbn [length] in L; try lia;
        cbn [count_steps]; destruct (isValidPage f && isValidPage t); lia.
    + rewrite recordSequence_loop_count, E. reflexivity.
  - intros E V. rewrite E. cbn [negb orb].
    destruct (Nat.ltb_spec (length pageSequence) 2) as [L|L].
    + destruct pageSequence as [|a [|b rest]]; cbn [length] in *; try lia; cbn; lia.
    + now apply recordSequence_loop_total.
  - intros L. apply Nat.ltb_lt in L. rewrite L. now rewrite orb_true_r.
Qed.

Lemma map_set_set {K V} `{KeyOrder K} (k : K) (v v' : V) (m : list (K * V)) :
  map_set k v' (map_set k v m) = map_set k v' m.
Proof.
  induction m as [|[k1 v1] r IH]; cbn [map_set].
  - now rewrite kcmp_refl.
  - destruct (kcmp k k1) eqn:E; cbn [map_set].
    + now rewrite kcmp_refl.
    + now rewrite kcmp_refl.
    + now rewrite E, IH.
Qed.

Lemma map_get0_set_same {K} `{KeyOrder K} (k : K) v (m : list (K * Z)) :
  map_get0 k (map_set k v m) = v.
Proof. unfold map_get0. now rewrite map_find_set_same. Qed.

Lemma recordTransition_skips f t pt :
  enableLearning pt && isValidPage f && isValidPage t = false ->
  recordTransition f t pt = pt.
Proof.
  unfold recordTransition.
  destruct (enableLearning pt), (isValidPage f), (isValidPage t); cbn; congruence.
Qed.

Lemma iter_recordTransition f t n pt :
  enableLearning pt && isValidPage f && isValidPage t = true ->
  map_ok (predictions pt) ->
  Nat.iter (S n) (recordTransition f t) pt =
  mkPatternTable
    (map_set (f, t) (map_get0 (f, t) (transitions pt) + Z.of_nat (S n)) (transitions pt))
    (map_erase f (predictions pt))
    (totalTransitions pt + Z.of_nat (S n))
    (confidenceThreshold pt) (maxPredictions pt) (enableLearning pt)
    (totalUpdates pt + Z.of_nat (S n)) (predictionRequests pt) (successfulPredictions pt).
Proof.
  intros E O. apply andb_true_iff in E. destruct E as [E Vt].
  apply andb_true_iff in E. destruct E as [E Vf].
  induction n as [|n IH].
  - change (Nat.iter 1 (recordTransition f t) pt) with (recordTransition f t pt).
    unfold recordTransition. rewrite E, Vf, Vt. reflexivity.
  - change (Nat.iter (S (S n)) (recordTransition f t) pt)
      with (recordTransition f t (Nat.iter (S n) (recordTransition f t) pt)).
    rewrite IH. unfold recordTransition at 1.
    cbn [enableLearning transitions predictions totalTransitions confidenceThreshold
         maxPredictions totalUpdates predictionRequests successfulPredictions].
    rewrite E, Vf, Vt. cbn [negb orb].
    rewrite map_get0_set_same, map_set_set, (map_erase_twice f O).
    replace (Z.of_nat (S (S n))) with (Z.of_nat (S n) + 1) by lia.
    now rewrite !Z.add_assoc.
Qed.

(** X20. In any state of a pattern table, [updatePattern] with a positive
    count [n] leaves the transitions, the running total and the memoized
    predictions exactly as [n] calls of [recordTransition] do; only the
    number of updates differs, which it raises by one where the [n] calls
    raise it by [n]. *)
Theorem updatePattern_is_repeated_recordTransition (ops : list pt_op) (threshold : Q)
    (maxPred : Z) (f t : Z) (n : nat) :
  let pt := pt_run ops (new_PatternTable threshold maxPred) in
  let pt1 := updatePattern f t (Z.of_nat (S n)) pt in
  let pt2 := Nat.iter (S n) (recordTransition f t) pt in
  transitions pt1 = transitions pt2 /\ predictions pt1 = predictions pt2 /\
  totalTransitions pt1 = totalTransitions pt2 /\
  confidenceThreshold pt1 = confidenceThreshold pt2 /\
  maxPredictions pt1 = maxPredictions pt2 /\ enableLearning pt1 = enableLearning pt2 /\
  predictionRequests pt1 = predictionRequests pt2 /\
  successfulPredictions pt1 = successfulPredictions pt2 /\
  (enableLearning pt && isValidPage f && isValidPage t = true ->
   totalUpdates pt1 = totalUpdates pt + 1 /\
   totalUpdates pt2 = totalUpdates pt + Z.of_nat (S n)).
Proof.
  intros pt pt1 pt2.
  destruct (pt_run_wf ops threshold maxPred) as (_ & O & _). fold pt in O.
  destruct (enableLearning pt && isValidPage f && isValidPage t) eqn:E.
  - assert (E2 : pt2 = _) by exact (iter_recordTransition f t n pt E O).
    assert (E1 : pt1 =
              mkPatternTable
                (map_set (f, t) (map_get0 (f, t) (transitions pt) + Z.of_nat (S n))
                   (transitions pt))
                (map_erase f (predictions pt))
                (totalTransitions pt + Z.of_nat (S n))
                (confidenceThreshold pt) (maxPredictions pt) (enableLearning pt)
                (totalUpdates pt + 1) (predictionRequests pt) (successfulPredictions pt)).
    { unfold pt1, updatePattern. apply andb_true_iff in E. destruct E as [E Vt].
      apply andb_true_iff in E. destruct E as [E Vf]. rewrite E, Vf, Vt.
      cbn [negb orb]. destruct (Z.leb_spec (Z.of_nat (S n)) 0); [lia|reflexivity]. }
    rewrite E1, E2. cbn. repeat split; reflexivity.
  - assert (E2 : pt2 = pt).
    { unfold pt2. clear pt1 pt2. induction n as [|n IH].
      - change (Nat.iter 1 (recordTransition f t) pt) with (recordTransition f t pt).
        now apply recordTransition_skips.
      - change (Nat.iter (S (S n)) (recordTransition f t) pt)
          with (recordTransition f t (Nat.iter (S n) (recordTransition f t) pt)).
        rewrite IH. now apply recordTransition_skips. }
    assert (E1 : pt1 = pt).
    { unfold pt1, updatePattern.
      destruct (enableLearning pt), (isValidPage f), (isValidPage t); cbn in *;
        congruence. }
    rewrite E1, E2. repeat split; discriminate.
Qed.

Lemma sum_from_nonneg p (m : list ((Z * Z) * Z)) :
  Forall valid_entry m -> 0 <= sum_from p m.
Proof.
  induction 1 as [|e m (_ & _ & C) F IH]; cbn [sum_from]; [lia|].
  destruct (fst (fst e) =? p); lia.
Qed.

Lemma sum_from_In p t c (m : list ((Z * Z) * Z)) :
  Forall valid_entry m -> In ((p, t), c) m -> 1 <= c <= sum_from p m.
Proof.
  induction 1 as [|e m V F IH]; cbn [sum_from In]; [tauto|].
  pose proof (@sum_from_nonneg p m F) as N. destruct V as (_ & _ & C).
  intros [->|I].
  - cbn [fst snd] in *. rewrite Z.eqb_refl. lia.
  - specialize (IH I). destruct (fst (fst e) =? p); lia.
Qed.

Lemma getTransitionProbability_unstored pt p t :
  map_find (p, t) (transitions pt) = None -> getTransitionProbability pt p t = 0%Q.
Proof.
  intros F. unfold getTransitionProbability. rewrite F.
  now destruct (negb (isValidPage p) || negb (isValidPage t)).
Qed.

Lemma getTransitionProbability_positive pt p t c :
  pt_wf pt -> map_find (p, t) (transitions pt) = Some c ->
  1 <= c <= getTotalTransitionsFrom pt p /\
  getTransitionProbability pt p t =
  (inject_Z c / inject_Z (getTotalTransitionsFrom pt p))%Q /\
  (0 < getTransitionProbability pt p t)%Q.
Proof.
  intros W F. pose proof (map_find_In _ _ F) as I.
  destruct W as (O & Op & V). pose proof (@sum_from_In p t c _ V I) as R.
  rewrite <- getTotalTransitionsFrom_sum in R. split; [exact R|].
  assert (E : getTransitionProbability pt p t =
              (inject_Z c / inject_Z (getTotalTransitionsFrom pt p))%Q).
  { apply getTransitionProbability_stored; [repeat split; auto|exact I|lia]. }
  split; [exact E|]. rewrite E. apply (Qdiv_Z_range R).
Qed.

Lemma reachable_loop_NoDup p (m : list ((Z * Z) * Z)) :
  map_ok m -> NoDup (reachable_loop p m).
Proof.
  induction m as [|[[f t] c] m IH]; intros O; cbn [reachable_loop fst snd]; [constructor|].
  apply map_ok_cons_inv in O. destruct O as [O F].
  destruct (Z.eqb_spec f p) as [->|N]; [|now apply IH].
  constructor; [|now apply IH].
  intros I. apply reachable_loop_In in I. destruct I as (c' & I).
  rewrite Forall_forall in F. specialize (F _ I). cbn [fst] in F.
  rewrite kcmp_refl in F. discriminate.
Qed.

(** X21. In any state of a pattern table, [getReachablePages] lists, each
    once, exactly the pages [t] for which the transition from the page has
    been counted at least once; these are exactly the pages with a positive
    transition probability. *)
Theorem getReachablePages_spec (ops : list pt_op) (threshold : Q) (maxPred : Z)
    (fromPage : Z) :
  let pt := pt_run ops (new_PatternTable threshold maxPred) in
  NoDup (getReachablePages pt fromPage) /\
  (forall t, In t (getReachablePages pt fromPage) <->
             1 <= getTransitionCount pt fromPage t) /\
  (forall t, In t (getReachablePages pt fromPage) <->
             (0 < getTransitionProbability pt fromPage t)%Q).
Proof.
  intros pt. pose proof (pt_run_wf ops threshold maxPred) as W. fold pt in W.
  pose proof W as (O & Op & V). unfold getReachablePages.
  split; [now apply reachable_loop_NoDup|].
  assert (S : forall t, In t (reachable_loop fromPage (transitions pt)) <->
                        exists c, map_find (fromPage, t) (transitions pt) = Some c).
  { intros t. rewrite reachable_loop_In. split; intros (c & I); exists c.
    - now apply In_map_find.
    - now apply map_find_In. }
  split; intros t; rewrite S.
  - unfold getTransitionCount. split.
    + intros (c & F). rewrite F.
      apply (getTransitionProbability_positive _ _ W F).
    + destruct (map_find (fromPage, t) (transitions pt)) as [c|]; [eauto|lia].
  - split.
    + intros (c & F). apply (getTransitionProbability_positive _ _ W F).
    + destruct (map_find (fromPage, t) (transitions pt)) as [c|] eqn:F; [eauto|].
      rewrite (getTransitionProbability_unstored _ _ _ F). intros L. discriminate L.
Qed.

Lemma filter_all {A} (p : A -> bool) (l : list A) :
  Forall (fun x => p x = true) l -> filter p l = l.
Proof.
  induction 1 as [|x l E F IH]; cbn [filter]; [reflexivity|]. now rewrite E, IH.
Qed.

Lemma filter_filter_same {A} (p : A -> bool) (l : list A) :
  filter p (filter p l) = filter p l.
Proof.
  apply filter_all. apply Forall_forall. intros x I. now apply filter_In in I.
Qed.

Lemma compact_eq minCount pt :
  compact minCount pt =
  mkPatternTable
    (filter (fun entry => negb (snd entry <? minCount)) (transitions pt)) []
    (totalTransitions pt
     - (sum_values (transitions pt)
        - sum_values (filter (fun entry => negb (snd entry <? minCount)) (transitions pt))))
    (confidenceThreshold pt) (maxPredictions pt) (enableLearning pt)
    (totalUpdates pt) (predictionRequests pt) (successfulPredictions pt).
Proof.
  unfold compact.
  pose proof (compact_loop_facts minCount (transitions pt) (totalTransitions pt)) as C.
  destruct (compact_loop minCount (transitions pt) (totalTransitions pt)) as [kept total'].
  destruct C as [-> ->]. reflexivity.
Qed.

(** X22. In any state of a pattern table, [compact] removes exactly the
    transitions counted fewer than [minCount] times and keeps the counts of
    the others; it empties the memoized predictions and takes the removed
    counts off the running total.  With [minCount] at most 1 nothing is
    removed, and compacting a second time with the same bound changes
    nothing. *)
Theorem compact_keeps_frequent (ops : list pt_op) (threshold : Q) (maxPred : Z)
    (minCount : Z) :
  let pt := pt_run ops (new_PatternTable threshold maxPred) in
  let pt' := compact minCount pt in
  (forall f t, getTransitionCount pt' f t =
               if getTransitionCount pt f t <? minCount then 0
               else getTransitionCount pt f t) /\
  predictions pt' = [] /\
  totalTransitions pt - totalTransitions pt' =
    sum_values (transitions pt) - sum_values (transitions pt') /\
  (minCount <= 1 ->
   transitions pt' = transitions pt /\ totalTransitions pt' = totalTransitions pt) /\
  compact minCount pt' = pt'.
Proof.
  intros pt pt'. destruct (pt_run_wf ops threshold maxPred) as (O & _ & V).
  fold pt in O, V. unfold pt'. rewrite !compact_eq.
  cbn [transitions predictions totalTransitions confidenceThreshold maxPredictions
       enableLearning totalUpdates predictionRequests successfulPredictions].
  split; [|split; [reflexivity|split; [lia|split]]].
  - intros f t. unfold getTransitionCount. cbn [transitions].
    rewrite map_find_filter by exact O.
    destruct (map_find (f, t) (transitions pt)) as [c|]; cbn [snd].
    + now destruct (c <? minCount).
    + now destruct (0 <? minCount).
  - intros L.
    assert (E : filter (fun entry => negb (snd entry <? minCount)) (transitions pt)
                = transitions pt).
    { apply filter_all. rewrite Forall_forall in *. intros e I.
      destruct (V _ I) as (_ & _ & C). apply negb_true_iff, Z.ltb_ge. lia. }
    rewrite E. split; [reflexivity|lia].
  - rewrite filter_filter_same. f_equal. lia.
Qed.

Lemma probabilities_loop_complete p total t c (m : list ((Z * Z) * Z)) :
  In ((p, t), c) m ->
  In (t, (inject_Z c / inject_Z total)%Q) (probabilities_loop p total m).
Proof.
  induction m as [|[[f t'] c'] m IH]; cbn [probabilities_loop fst snd In]; [tauto|].
  intros [E|I].
  - injection E as -> -> ->. rewrite Z.eqb_refl. now left.
  - destruct (f =? p); [right|]; now apply IH.
Qed.

Lemma calculateProbabilities_complete pt p t c :
  pt_wf pt -> map_find (p, t) (transitions pt) = Some c ->
  In (t, getTransitionProbability pt p t) (calculateProbabilities pt p).
Proof.
  intros W F. destruct (getTransitionProbability_positive _ _ W F) as (R & E & _).
  unfold calculateProbabilities.
  destruct (Z.eqb_spec (getTotalTransitionsFrom pt p) 0) as [Z0|_]; [lia|].
  apply In_sort_desc. rewrite E. apply probabilities_loop_complete.
  now apply map_find_In.
Qed.

Lemma calculateProbabilities_nil pt p :
  pt_wf pt -> calculateProbabilities pt p = [] -> getReachablePages pt p = [].
Proof.
  intros W E. unfold getReachablePages.
  destruct (reachable_loop p (transitions pt)) as [|t r] eqn:R; [reflexivity|exfalso].
  assert (I : In t (reachable_loop p (transitions pt))) by (rewrite R; now left).
  apply reachable_loop_In in I. destruct I as (c & I).
  destruct W as (O & Op & V). apply (In_map_find _ _ O) in I.
  pose proof (@calculateProbabilities_complete pt p t c (conj O (conj Op V)) I) as C.
  now rewrite E in C.
Qed.

(** X23. In any state of a pattern table, [getMostLikelyNextPage] answers
    -1 exactly when no transition from the page has been recorded or no
    page reaches the confidence threshold; otherwise it answers a page that
    has been reached from the current one, whose transition probability is
    at least the threshold and at least that of every other page. *)
Theorem getMostLikelyNextPage_spec (ops : list pt_op) (threshold : Q) (maxPred : Z)
    (currentPage : Z) :
  let pt := pt_run ops (new_PatternTable threshold maxPred) in
  let r := getMostLikelyNextPage pt currentPage in
  (r = -1 <->
   getReachablePages pt currentPage = [] \/
   forall t, (getTransitionProbability pt currentPage t < confidenceThreshold pt)%Q) /\
  (r <> -1 ->
   In r (getReachablePages pt currentPage) /\
   (confidenceThreshold pt <= getTransitionProbability pt currentPage r)%Q /\
   forall t, (getTransitionProbability pt currentPage t
              <= getTransitionProbability pt currentPage r)%Q).
Proof.
  intros pt r. pose proof (pt_run_wf ops threshold maxPred) as W. fold pt in W.
  pose proof W as (O & Op & V).
  pose proof (calculateProbabilities_sorted pt currentPage) as Sd.
  unfold r, getMostLikelyNextPage.
  destruct (calculateProbabilities pt currentPage) as [|best rest] eqn:C.
  - split; [|congruence]. split; [|reflexivity]. intros _. left.
    now apply calculateProbabilities_nil.
  - assert (Ib : In best (calculateProbabilities pt currentPage)) by (rewrite C; now left).
    pose proof (calculateProbabilities_In _ _ W Ib) as Eb.
    assert (Sb : exists c, map_find (currentPage, fst best) (transitions pt) = Some c).
    { unfold calculateProbabilities in Ib.
      destruct (getTotalTransitionsFrom pt currentPage =? 0); [destruct Ib|].
      apply (proj1 (In_sort_desc _ _)) in Ib. apply probabilities_loop_In in Ib.
      destruct Ib as (c & I & _). exists c. now apply In_map_find. }
    destruct Sb as (cb & Fb).
    destruct (getTransitionProbability_positive _ _ W Fb) as (_ & _ & Pb).
    assert (Vb : 0 <= fst best).
    { rewrite Forall_forall in V. apply map_find_In in Fb.
      destruct (V _ Fb) as (_ & Vt & _). exact Vt. }
    assert (Max : forall t, (getTransitionProbability pt currentPage t
                             <= getTransitionProbability pt currentPage (fst best))%Q).
    { intros t. destruct (map_find (currentPage, t) (transitions pt)) as [c|] eqn:F.
      - pose proof (calculateProbabilities_complete _ _ W F) as It. rewrite C in It.
        destruct It as [E|It].
        + rewrite E. cbn [fst]. apply Qle_refl.
        + inversion Sd as [|? ? _ Fa]; subst. rewrite Forall_forall in Fa.
          specialize (Fa _ It). unfold desc_rel in Fa. cbn [snd] in Fa.
          now rewrite <- Eb.
      - rewrite (getTransitionProbability_unstored _ _ _ F). now apply Qlt_le_weak. }
    destruct (Qltb (snd best) (confidenceThreshold pt)) eqn:L.
    + split; [|congruence]. split; [|reflexivity]. intros _. right. intros t.
      apply Qltb_true in L. rewrite Eb in L. eapply Qle_lt_trans; [apply Max|exact L].
    + apply Qltb_false in L. rewrite Eb in L. split.
      * split; [lia|]. intros [E|A]; exfalso.
        -- unfold getReachablePages in E.
           assert (I : In (fst best) (reachable_loop currentPage (transitions pt))).
           { apply reachable_loop_In. exists cb. now apply map_find_In. }
           now rewrite E in I.
        -- exact (Qlt_not_le _ _ (A (fst best)) L).
      * intros _. split; [|split; [exact L|exact Max]].
        unfold getReachablePages. apply reachable_loop_In. exists cb.
        now apply map_find_In.
Qed.

(** X24. [getPredictions] memoizes its answer: asked again for the same
    page it gives the same list; neither call changes a transition count or
    the running total, and each call counts one prediction request. *)
Theorem getPredictions_memoized (currentPage : Z) (pt : PatternTable) :
  let pt1 := snd (getPredictions currentPage pt) in
  let pt2 := snd (getPredictions currentPage pt1) in
  fst (getPredictions currentPage pt1) = fst (getPredictions currentPage pt) /\
  transitions pt2 = transitions pt /\ totalTransitions pt2 = totalTransitions pt /\
  predictions pt2 = predictions pt1 /\
  predictionRequests pt1 = predictionRequests pt + 1 /\
  predictionRequests pt2 = predictionRequests pt + 2.
Proof.
  unfold getPredictions. cbn [count_request predictions].
  destruct (isValidPage currentPage); cbn [negb].
  - destruct (map_find currentPage (predictions pt)) as [cached|] eqn:F;
      cbn [fst snd count_request set_predictions predictions transitions
           totalTransitions predictionRequests].
    + rewrite F. cbn. repeat split; lia.
    + rewrite map_find_set_same. cbn. repeat split; lia.
  - cbn. repeat split; lia.
Qed.

Lemma insert_by_count_perm x l : Permutation (insert_by_count x l) (x :: l).
Proof.
  induction l as [|y r IH]; cbn [insert_by_count]; [reflexivity|].
  destruct (snd y <? snd x); [reflexivity|].
  rewrite IH. apply perm_swap.
Qed.

Lemma sort_by_count_perm l : Permutation (sort_by_count l) l.
Proof.
  induction l as [|x l IH]; cbn [sort_by_count fold_right]; [reflexivity|].
  fold (sort_by_count l). rewrite insert_by_count_perm. now constructor.
Qed.

Lemma insert_by_count_sorted x l :
  StronglySorted count_desc l -> StronglySorted count_desc (insert_by_count x l).
Proof.
  induction 1 as [|y r S IH F]; cbn [insert_by_count].
  - repeat constructor.
  - destruct (Z.ltb_spec (snd y) (snd x)) as [L|L].
    + constructor; [now constructor|]. constructor; [unfold count_desc; lia|].
      rewrite Forall_forall in *. intros z I. specialize (F z I).
      unfold count_desc in *. lia.
    + constructor; [exact IH|]. rewrite Forall_forall in *. intros z I.
      apply (Permutation_in _ (insert_by_count_perm x r)) in I.
      destruct I as [<-|I]; [exact L|now apply F].
Qed.

Lemma sort_by_count_sorted l : StronglySorted count_desc (sort_by_count l).
Proof.
  induction l as [|x l IH]; cbn [sort_by_count fold_right]; [constructor|].
  now apply insert_by_count_sorted.
Qed.

Lemma top_loop_firstn limit l : forall count,
  top_loop limit count l = map fst (firstn (Z.to_nat (limit - count)) l).
Proof.
  induction l as [|entry rest IH]; intros count; cbn [top_loop].
  - now rewrite firstn_nil.
  - destruct (Z.leb_spec limit count) as [L|L].
    + replace (Z.to_nat (limit - count)) with 0%nat by lia. reflexivity.
    + replace (Z.to_nat (limit - count)) with (S (Z.to_nat (limit - (count + 1)))) by lia.
      cbn [firstn map]. now rewrite IH.
Qed.

Lemma StronglySorted_app_inv {A} (R : A -> A -> Prop) (l1 l2 : list A) :
  StronglySorted R (l1 ++ l2) ->
  StronglySorted R l1 /\ forall a b, In a l1 -> In b l2 -> R a b.
Proof.
  induction l1 as [|x l1 IH]; cbn [app]; intros S.
  - split; [constructor|intros a b []].
  - inversion S as [|? ? S' F]; subst. destruct (IH S') as [S1 Cross].
    rewrite Forall_forall in F. split.
    + constructor; [exact S1|]. apply Forall_forall. intros z I. apply F.
      apply in_or_app. now left.
    + intros a b [<-|Ia] Ib; [|now apply Cross]. apply F. apply in_or_app. now right.
Qed.

Lemma map_ok_NoDup_keys {K V} `{KeyOrder K} (m : list (K * V)) :
  map_ok m -> NoDup (map fst m).
Proof.
  induction m as [|[k v] m IH]; intros O; cbn [map fst]; [constructor|].
  apply map_ok_cons_inv in O. destruct O as [O F]. constructor; [|now apply IH].
  intros I. apply in_map_iff in I. destruct I as (e & E & I).
  rewrite Forall_forall in F. specialize (F _ I). rewrite E, kcmp_refl in F.
  discriminate.
Qed.

(** X25. In any state of a pattern table, [getTopTransitions] returns
    [limit] transitions, or all of them when fewer are stored, and none for
    a limit that is not positive; they are stored transitions, all
    different, in descending order of their counts, and no transition left
    out has been counted more often than one returned. *)
Theorem getTopTransitions_spec (ops : list pt_op) (threshold : Q) (maxPred : Z)
    (limit : Z) :
  let pt := pt_run ops (new_PatternTable threshold maxPred) in
  let top := getTopTransitions pt limit in
  let count := fun k : Z * Z => getTransitionCount pt (fst k) (snd k) in
  Z.of_nat (length top) = Z.min (Z.max limit 0) (getPatternCount pt) /\
  NoDup top /\
  (forall k, In k top -> 1 <= count k) /\
  (forall k k', In k top -> ~ In k' top -> count k' <= count k) /\
  StronglySorted (fun a b => count b <= count a) top.
Proof.
  intros pt top count.
  destruct (pt_run_wf ops threshold maxPred) as (O & _ & V). fold pt in O, V.
  set (sorted := sort_by_count (transitions pt)).
  set (n := Z.to_nat limit).
  assert (Et : top = map fst (firstn n sorted)).
  { unfold top, getTopTransitions. rewrite top_loop_firstn.
    now replace (Z.to_nat (limit - 0)) with n by (unfold n; lia). }
  pose proof (sort_by_count_perm (transitions pt)) as Pm. fold sorted in Pm.
  pose proof (sort_by_count_sorted (transitions pt)) as Sd. fold sorted in Sd.
  rewrite <- (firstn_skipn n sorted) in Sd.
  apply StronglySorted_app_inv in Sd. destruct Sd as [Sd Cross].
  assert (Cnt : forall e, In e sorted -> count (fst e) = snd e /\ 1 <= snd e).
  { intros e I. apply (Permutation_in _ Pm) in I. split.
    - unfold count. now apply getTransitionCount_stored.
    - rewrite Forall_forall in V. now destruct (V _ I) as (_ & _ & C). }
  assert (Sub : forall e, In e (firstn n sorted) -> In e sorted).
  { intros e I. rewrite <- (firstn_skipn n sorted). apply in_or_app. now left. }
  assert (Nd : NoDup (map fst (firstn n sorted) ++ map fst (skipn n sorted))).
  { rewrite <- map_app, firstn_skipn.
    apply (Permutation_NoDup (Permutation_sym (Permutation_map fst Pm))).
    now apply map_ok_NoDup_keys. }
  rewrite Et. split; [|split; [|split; [|split]]].
  - rewrite length_map, length_firstn, (Permutation_length Pm).
    unfold getPatternCount, n. lia.
  - now apply NoDup_app_remove_r in Nd.
  - intros k I. apply in_map_iff in I. destruct I as (e & <- & I).
    destruct (Cnt e (Sub e I)) as [-> C]. exact C.
  - intros k k' I N'. apply in_map_iff in I. destruct I as (e & <- & I).
    destruct (Cnt e (Sub e I)) as [-> C].
    unfold count, getTransitionCount.
    destruct (map_find (fst k', snd k') (transitions pt)) as [c'|] eqn:F; [|lia].
    apply map_find_In in F. replace (fst k', snd k') with k' in F by now destruct k'.
    apply (Permutation_in _ (Permutation_sym Pm)) in F.
    rewrite <- (firstn_skipn n sorted) in F. apply in_app_or in F.
    destruct F as [F|F].
    + exfalso. apply N'. apply in_map_iff. now exists (k', c').
    + apply (Cross e (k', c') I F).
  - assert (G : forall l, StronglySorted count_desc l ->
                         (forall e, In e l -> In e sorted) ->
                         StronglySorted (fun a b => count b <= count a) (map fst l)).
    { induction 1 as [|e l S IH F]; intros Sub0; cbn [map]; [constructor|].
      assert (Sub' : forall e0, In e0 l -> In e0 sorted)
        by (intros; apply Sub0; now right).
      constructor; [now apply IH|].
      apply Forall_forall. intros k I. apply in_map_iff in I. destruct I as (e' & <- & I).
      rewrite Forall_forall in F. specialize (F _ I). unfold count_desc in F.
      destruct (Cnt e (Sub0 e (or_introl eq_refl))) as [-> _].
      destruct (Cnt e' (Sub' e' I)) as [-> _]. exact F. }
    now apply G.
Qed.

Lemma pt_step_successfulPredictions pt op :
  successfulPredictions pt = 0 -> successfulPredictions (pt_step pt op) = 0.
Proof.
  intros Z0. destruct op; cbn [pt_step]; try exact Z0; try reflexivity.
  - unfold recordTransition. now destruct (_ || _).
  - unfold recordSequence. destruct (_ || _); [exact Z0|].
    revert pt Z0. induction pageSequence as [|a l IH]; intros pt Z0; [exact Z0|].
    destruct l as [|b rest]; [exact Z0|].
    change (recordSequence_loop (a :: b :: rest) pt)
      with (recordSequence_loop (b :: rest) (recordTransition a b pt)).
    apply IH. unfold recordTransition. now destruct (_ || _).
  - unfold updatePattern. now destruct (_ || _).
  - unfold getPredictions. destruct (negb _); [exact Z0|].
    now destruct (map_find _ _).
  - unfold getPredictionsWithConfidence. now destruct (negb _).
  - unfold compact. now destruct (compact_loop _ _ _).
  - unfold decay. now destruct (_ || _).
Qed.

(** X26. No operation of a pattern table records a successful prediction:
    in every state, however many predictions have been requested,
    [getPredictionAccuracy] is 0. *)
Theorem getPredictionAccuracy_is_zero (ops : list pt_op) (threshold : Q) (maxPred : Z) :
  let pt := pt_run ops (new_PatternTable threshold maxPred) in
  successfulPredictions pt = 0 /\ (getPredictionAccuracy pt == 0)%Q.
Proof.
  intros pt.
  assert (Z0 : successfulPredictions pt = 0).
  { unfold pt. apply (pt_run_preserves (fun pt => successfulPredictions pt = 0)
                        (fun _ => true)).
    - intros pt' op _. apply pt_step_successfulPredictions.
    - now induction ops.
    - reflexivity. }
  split; [exact Z0|]. unfold getPredictionAccuracy. rewrite Z0.
  destruct (predictionRequests pt =? 0); [reflexivity|].
  unfold Qdiv. now rewrite Qmult_0_l.
Qed.

(** ** The cache of the client *)

Lemma existsb_eqb_In r (l : list Z) : existsb (Z.eqb r) l = true <-> In r l.
Proof.
  rewrite existsb_exists. split.
  - intros (x & I & E). apply Z.eqb_eq in E. now subst.
  - intros I. exists r. split; [exact I|apply Z.eqb_refl].
Qed.

Lemma to_size_t_small n : 0 <= n < 2 ^ 31 -> to_size_t n = n.
Proof. intros R. unfold to_size_t. apply Z.mod_small. lia. Qed.

Lemma updateCache_inv size r c :
  0 <= size < 2 ^ 31 -> cacheSize c = size ->
  Z.of_nat (length (cache c)) <= size -> NoDup (cache c) ->
  cacheSize (updateCache r c) = size /\
  Z.of_nat (length (cache (updateCache r c))) <= size /\
  NoDup (cache (updateCache r c)) /\
  (forall x, In x (cache (updateCache r c)) -> x = r \/ In x (cache c)).
Proof.
  intros R E L N. unfold updateCache. rewrite E, (to_size_t_small R).
  destruct (size =? 0); [now auto|].
  destruct (existsb (Z.eqb r) (cache c)) eqn:X; [now auto|].
  assert (NI : ~ In r (cache c)).
  { intros I. apply existsb_eqb_In in I. congruence. }
  destruct (Z.ltb_spec (Z.of_nat (length (cache c))) size) as [Lt|Ge].
  - cbn [cacheSize cache]. split; [reflexivity|]. rewrite length_app. cbn [length].
    split; [lia|]. split.
    + apply NoDup_app; [exact N|repeat constructor; intros []|].
      intros x I [<-|[]]. now apply NI.
    + intros x I. apply in_app_or in I. destruct I as [I|[<-|[]]]; auto.
  - destruct (cache c) as [|h rest] eqn:C; [rewrite C; now auto|].
    cbn [cacheSize cache]. split; [reflexivity|]. rewrite length_app.
    cbn [length] in *. split; [lia|]. inversion N as [|? ? Nh Nr]; subst. split.
    + apply NoDup_app; [exact Nr|repeat constructor; intros []|].
      intros x I [<-|[]]. apply NI. now right.
    + intros x I. apply in_app_or in I. destruct I as [I|[<-|[]]]; auto.
      right. now right.
Qed.

Lemma client_run_inv size resources : forall c,
  0 <= size < 2 ^ 31 -> cacheSize c = size ->
  Z.of_nat (length (cache c)) <= size -> NoDup (cache c) ->
  cacheSize (client_run resources c) = size /\
  Z.of_nat (length (cache (client_run resources c))) <= size /\
  NoDup (cache (client_run resources c)) /\
  (forall x, In x (cache (client_run resources c)) -> In x resources \/ In x (cache c)).
Proof.
  induction resources as [|r l IH]; intros c R E L N; [cbn; auto|].
  cbn [client_run fold_left].
  destruct (updateCache_inv r c R E L N) as (E1 & L1 & N1 & S1).
  destruct (IH _ R E1 L1 N1) as (E2 & L2 & N2 & S2).
  split; [exact E2|]. split; [exact L2|]. split; [exact N2|].
  intros x I. destruct (S2 x I) as [A|A]; [left; now right|].
  destruct (S1 x A) as [->|B]; [left; now left|now right].
Qed.

(** X27. A client whose [cacheSize] is a non-negative [int] never caches
    more than [cacheSize] resources, whatever responses it receives; it
    never caches a resource twice, and what [checkCache] finds is a resource
    it has received.  With [cacheSize] 0 nothing is ever found. *)
Theorem client_cache_bounded (size : Z) (resources : list Z) :
  0 <= size < 2 ^ 31 ->
  let c := client_run resources (mkHttpClient size []) in
  cacheSize c = size /\ Z.of_nat (length (cache c)) <= size /\ NoDup (cache c) /\
  (forall r, checkCache r c = true -> In r resources) /\
  (size = 0 -> forall r, checkCache r c = false).
Proof.
  intros R c.
  destruct (@client_run_inv size resources (mkHttpClient size []) R eq_refl)
    as (E & L & N & S); [cbn; lia|constructor|].
  fold c in E, L, N, S. split; [exact E|]. split; [exact L|]. split; [exact N|]. split.
  - intros r H. unfold checkCache in H. destruct (cacheSize c =? 0); [discriminate|].
    apply existsb_eqb_In in H. destruct (S r H) as [A|[]]. exact A.
  - intros Z0 r. unfold checkCache. rewrite E, Z0. reflexivity.
Qed.

Lemma client_cache_bounded_witness :
  let c := client_run [7; 8; 7; 9] (mkHttpClient 2 []) in
  Z.of_nat (length (cache c)) <= 2 /\ cache c = [8; 9].
Proof.
  intros c. split; [|reflexivity].
  apply (@client_cache_bounded 2 [7; 8; 7; 9]). lia.
Defined.

Lemma client_keeps_recent size r l : forall c pre post,
  1 <= size < 2 ^ 31 -> cacheSize c = size -> cache c = pre ++ r :: post ->
  Z.of_nat (length (cache c)) <= size ->
  Z.of_nat (length post) + Z.of_nat (length l) < size ->
  checkCache r (client_run l c) = true.
Proof.
  induction l as [|x l IH]; intros c pre post R E C L B.
  - cbn [client_run fold_left]. unfold checkCache. rewrite E.
    destruct (Z.eqb_spec size 0); [lia|]. apply existsb_eqb_In. rewrite C.
    apply in_or_app. right. now left.
  - cbn [client_run fold_left]. cbn [length] in B.
    assert (R' : 0 <= size < 2 ^ 31) by lia.
    unfold updateCache. rewrite E, (to_size_t_small R').
    destruct (Z.eqb_spec size 0); [lia|].
    destruct (existsb (Z.eqb x) (cache c)).
    + apply (IH c pre post); auto; lia.
    + destruct (Z.ltb_spec (Z.of_nat (length (cache c))) size) as [Lt|Ge].
      * apply (IH _ pre (post ++ [x])); auto; cbn [cacheSize cache].
        -- rewrite C, <- app_assoc. reflexivity.
        -- rewrite length_app. cbn [length]. lia.
        -- rewrite length_app. cbn [length]. lia.
      * destruct pre as [|p pre'].
        -- exfalso. rewrite C in Ge. cbn [app length] in Ge. lia.
        -- rewrite C. cbn [app]. apply (IH _ pre' (post ++ [x])); auto; cbn [cacheSize cache].
           ++ rewrite <- app_assoc. reflexivity.
           ++ rewrite C in L. cbn [app length] in L. rewrite !length_app in *.
              cbn [length] in *. lia.
           ++ rewrite length_app. cbn [length]. lia.
Qed.

(** X28. The cache of the client is first in, first out: a resource that
    was not cached when its response arrived is found by [checkCache] after
    [updateCache], and stays cached while fewer than [cacheSize] further
    responses arrive, whatever they carry. *)
Theorem received_resource_stays_cached (size : Z) (before later : list Z) (r : Z) :
  1 <= size < 2 ^ 31 ->
  let c := client_run before (mkHttpClient size []) in
  checkCache r c = false ->
  Z.of_nat (length later) < size ->
  checkCache r (client_run later (updateCache r c)) = true.
Proof.
  intros R c Miss Few. assert (R' : 0 <= size < 2 ^ 31) by lia.
  destruct (@client_run_inv size before (mkHttpClient size []) R' eq_refl)
    as (E & L & N & _); [cbn; lia|constructor|].
  fold c in E, L, N.
  destruct (updateCache_inv r c R' E L N) as (E1 & L1 & _).
  assert (C : exists pre, cache (updateCache r c) = pre ++ [r]).
  { unfold checkCache in Miss. unfold updateCache. rewrite E in *.
    rewrite (to_size_t_small R'). destruct (Z.eqb_spec size 0); [lia|].
    rewrite Miss. destruct (Z.ltb_spec (Z.of_nat (length (cache c))) size) as [Lt|Ge].
    - now exists (cache c).
    - destruct (cache c) as [|h rest] eqn:Cc; [cbn [length] in Ge; lia|].
      now exists rest. }
  destruct C as (pre & C).
  apply (@client_keeps_recent size r later (updateCache r c) pre [] R E1 C L1).
  cbn [length]. lia.
Qed.

Lemma received_resource_stays_cached_witness :
  checkCache 7 (client_run [8; 9] (updateCache 7 (client_run [1; 2; 3] (mkHttpClient 3 []))))
  = true.
Proof.
  apply (@received_resource_stays_cached 3 [1; 2; 3] [8; 9] 7); [lia|reflexivity|cbn; lia].
Defined.

(** ** Comparing stored entries *)

(** X29. [operator==] compares resource identifiers only, and every entry
    the server stores carries the identifier -1: in every state the server
    reaches, any two stored entries are equal for [operator==], whatever
    pages they hold, and neither is below the other for [operator<]. *)
Theorem stored_entries_compare_equal (thr : Q) (events : list server_event)
    (k1 k2 : string) (e1 e2 : CacheEntry) :
  map_find k1 (responseCache (server_run thr events initialize)) = Some e1 ->
  map_find k2 (responseCache (server_run thr events initialize)) = Some e2 ->
  entry_eqb e1 e2 = true /\ entry_neqb e1 e2 = false /\ entry_ltb e1 e2 = false.
Proof.
  intros F1 F2.
  destruct (server_reachable_inv thr events) as ((_ & _ & _ & _ & _ & C) & _).
  pose proof (C k1) as C1. pose proof (C k2) as C2. unfold page_consistent in C1, C2.
  rewrite F1 in C1. rewrite F2 in C2.
  destruct C1 as ((_ & _ & R1) & _). destruct C2 as ((_ & _ & R2) & _).
  unfold entry_neqb, entry_eqb, entry_ltb. rewrite R1, R2. repeat split.
Qed.

Lemma stored_entries_compare_equal_witness :
  let events := [EvDelayedProcessing 0 1 7 1 0; EvDelayedProcessing 1 2 7 2 1;
                 EvDelayedProcessing 2 3 7 0 (-1); EvDelayedProcessing 3 4 7 1 (-1)] in
  let s := server_run initial_predictionThreshold events initialize in
  entry_eqb (setTimestamp 2 (new_CacheEntry 2 (-1) (generatePageContent "login") 5))
            (setTimestamp 3 (new_CacheEntry 3 (-1) (generatePageContent "dashboard") 5))
  = true.
Proof.
  intros events s.
  apply (@stored_entries_compare_equal initial_predictionThreshold events
           "login" "dashboard"); reflexivity.
Defined.
